(** * KoiFish: a shallow embedding of the simulation core

    The TypeScript sources are embedded module by module.  Conventions:

    - a JavaScript [number] is a real number ([R]); the results of
      [Math.floor] and [Math.ceil] and everything computed from them (cell
      indices, grid dimensions) are integers ([Z]).  Non-finite doubles and
      rounding are outside the model;
    - [Date.now()] and [Math.random()] are read from the [Runtime]: the n-th
      call returns the n-th element of a stream, so that a run is a function
      of the initial state;
    - objects that are shared by reference live in the [World] and are named
      by their [id]; a method that mutates its receiver returns the new state
      of the receiver;
    - a [throw] is the outcome [Threw], carrying the state reached so far. *)

From Stdlib Require Import Reals Lra Lia ZArith.
From stdpp Require Import base option list gmap strings functions.

Set Default Proof Using "Type".

(* ================================================================= *)
(** ** JavaScript numbers and [Math] *)

Module Js.
Local Open Scope R_scope.

(** [Math.sign] *)
Definition sign (v : R) : R :=
  if Rlt_dec 0 v then 1 else if Rlt_dec v 0 then -1 else 0.

(** [Math.atan2(y, x)], in radians, in (-PI, PI] *)
Definition atan2 (b a : R) : R :=
  if Rlt_dec 0 a then atan (b / a)
  else if Rlt_dec a 0 then
         (if Rle_dec 0 b then atan (b / a) + PI else atan (b / a) - PI)
       else if Rlt_dec 0 b then PI / 2
            else if Rlt_dec b 0 then - (PI / 2) else 0.

(** [Math.trunc], used by the remainder operator *)
Definition trunc (v : R) : Z := if Rle_dec 0 v then Zfloor v else Zceil v.

(** the remainder operator [a % b] on numbers: the sign follows [a] *)
Definition rem (a b : R) : R := a - b * IZR (trunc (a / b)).

(** boolean views of the comparisons *)
Definition ltb (a b : R) : bool := if Rlt_dec a b then true else false.
Definition gtb (a b : R) : bool := ltb b a.
Definition leb (a b : R) : bool := if Rle_dec a b then true else false.

(** [Math.round]: the nearest integer, a half rounded up *)
Definition round (v : R) : Z := Zfloor (v + 1 / 2).
End Js.

(* ================================================================= *)
(** ** Effects: state, exceptions, the clock and the random source *)

Inductive Outcome (A : Type) : Type :=
| Returned (a : A)
| Threw (message : string)
| OutOfFuel.
Arguments Returned {A} a.
Arguments Threw {A} message.
Arguments OutOfFuel {A}.

Definition Eff (S A : Type) : Type := S → Outcome A * S.

Definition ret {S A : Type} (a : A) : Eff S A := λ s, (Returned a, s).

Definition bind {S A B : Type} (m : Eff S A) (k : A → Eff S B) : Eff S B :=
  λ s, match m s with
       | (Returned a, s') => k a s'
       | (Threw msg, s') => (Threw msg, s')
       | (OutOfFuel, s') => (OutOfFuel, s')
       end.

Definition throw {S A : Type} (msg : string) : Eff S A := λ s, (Threw msg, s).
Definition get {S : Type} : Eff S S := λ s, (Returned s, s).
Definition gets {S A : Type} (f : S → A) : Eff S A := λ s, (Returned (f s), s).
Definition modify {S : Type} (f : S → S) : Eff S unit := λ s, (Returned tt, f s).

Declare Scope eff_scope.
Delimit Scope eff_scope with eff.
Notation "'let*' x ':=' m 'in' k" := (bind m (λ x, k))
  (at level 10, x pattern, m at level 100, k at level 200) : eff_scope.
Notation "m '>>' k" := (bind m (λ _, k))
  (at level 100, k at level 200, right associativity) : eff_scope.

(** A computation that can only throw *)
Inductive Result (A : Type) : Type :=
| Ok (a : A)
| Err (message : string).
Arguments Ok {A} a.
Arguments Err {A} message.

Definition liftResult {S A : Type} (r : Result A) : Eff S A :=
  match r with Ok a => ret a | Err msg => throw msg end.

(** The n-th call of [Date.now()] returns [clock n]; the n-th call of
    [Math.random()] returns [random n]. *)
Record Runtime : Type := mkRuntime {
  clock : nat → R;
  ticks : nat;
  random : nat → R;
  draws : nat;
}.

Definition Date_now : Eff Runtime R :=
  λ rt, (Returned (clock rt (ticks rt)),
         mkRuntime (clock rt) (S (ticks rt)) (random rt) (draws rt)).

Definition Math_random : Eff Runtime R :=
  λ rt, (Returned (random rt (draws rt)),
         mkRuntime (clock rt) (ticks rt) (random rt) (S (draws rt))).

(** [mutate]: a transform returns its result; with [mutate = true] the
    receiver takes the result's coordinates and is what is returned.  A
    method with this flag yields the pair (returned value, receiver after
    the call). *)
Definition withMutate {A : Type} (mutate : bool) (this result : A) : A * A :=
  (result, if mutate then result else this).

(* ================================================================= *)
(** ** util: numberUtil, timeUtil, randomUtil, memoize *)

Module numberUtil.
Local Open Scope R_scope.
Definition scaleToRange (min max scale : R) : R := min + (max - min) * scale.
End numberUtil.

Module timeUtil.
Local Open Scope R_scope.
Local Open Scope eff_scope.

(** the arithmetic of [getElapsedSeconds], given the clock reading *)
Definition elapsedSeconds (currentTimestamp pastTimestamp : R) : R :=
  let millisecondsElapsed := currentTimestamp - pastTimestamp in
  millisecondsElapsed / 1000.

Definition getElapsedSeconds (pastTimestamp : R) : Eff Runtime R :=
  let* currentTimestamp := Date_now in
  ret (elapsedSeconds currentTimestamp pastTimestamp).
End timeUtil.

Module randomUtil.
Local Open Scope R_scope.
Local Open Scope eff_scope.

Definition getRandomNumber (min max : R) : Eff Runtime R :=
  let* r := Math_random in ret (r * (max - min) + min).

(** [items[randomIndex]] is [undefined] ([None]) outside the array *)
Definition getRandomItem {A : Type} (items : list A) : Eff Runtime (option A) :=
  if decide (length items = 0%nat)
  then throw "Array is empty and cannot provide a random item."
  else
    let* r := Math_random in
    let randomIndex := Zfloor (r * INR (length items)) in
    ret (if decide (0 ≤ randomIndex)%Z then items !! Z.to_nat randomIndex else None).
End randomUtil.

Module util.
(** [memoize]: the cache is keyed by [JSON.stringify(args)]; for integer
    arguments that is the argument array itself. *)
Definition memoize {S V : Type} (fn : list Z → S → V)
    (cache : gmap (list Z) V) (args : list Z) (s : S) : V * gmap (list Z) V :=
  let key := args in
  match cache !! key with
  | Some v => (v, cache)
  | None => let result := fn args s in (result, <[key := result]> cache)
  end.
End util.

(* ================================================================= *)
(** ** geometry/Vector.ts *)

Module Vector.
Local Open Scope R_scope.
Local Open Scope eff_scope.

Record t : Type := mk { dx : R; dy : R }.

Definition getMagnitude (this : t) : R :=
  let magnitude := sqrt (dx this * dx this + dy this * dy this) in
  magnitude.

Definition normalize (this : t) (mutate : bool) : Result (t * t) :=
  let magnitude := sqrt (dx this * dx this + dy this * dy this) in
  if Req_dec_T magnitude 0 then Err "Cannot normalize a zero vector."
  else
    let finalDx := dx this / magnitude in
    let finalDy := dy this / magnitude in
    Ok (withMutate mutate this (mk finalDx finalDy)).

(** positive angles turn clockwise *)
Definition rotateVector (this : t) (angleDegrees : R) (mutate : bool) : t * t :=
  let angleRadians := (- angleDegrees * PI) / 180 in
  let cosTheta := cos angleRadians in
  let sinTheta := sin angleRadians in
  let finalDx := dx this * cosTheta - dy this * sinTheta in
  let finalDy := dx this * sinTheta + dy this * cosTheta in
  withMutate mutate this (mk finalDx finalDy).

Definition scale (this : t) (scaleFactor : R) (mutate : bool) : t * t :=
  let finalDx := dx this * scaleFactor in
  let finalDy := dy this * scaleFactor in
  withMutate mutate this (mk finalDx finalDy).

(** degrees from vertical, in [0, 360) *)
Definition getAngle (this : t) : R :=
  let angle := Js.atan2 (dx this) (dy this) in
  let degrees := angle * (180 / PI) in
  if Rlt_dec degrees 0 then degrees + 360 else degrees.

Definition clone (this : t) : t := mk (dx this) (dy this).

Definition signedAngleBetween (a b : t) : R :=
  let angleA := Js.atan2 (dy a) (dx a) in
  let angleB := Js.atan2 (dy b) (dx b) in
  let angleDegrees := (angleA - angleB) * (180 / PI) in
  let angleDegrees := if Rgt_dec angleDegrees 180 then angleDegrees - 360 else angleDegrees in
  let angleDegrees := if Rlt_dec angleDegrees (-180) then angleDegrees + 360 else angleDegrees in
  angleDegrees.

Definition getRandomDirection : Eff Runtime t :=
  let* s1 := randomUtil.getRandomItem [1; -1] in
  let* r1 := Math_random in
  let* s2 := randomUtil.getRandomItem [1; -1] in
  let* r2 := Math_random in
  let* v := liftResult (normalize (mk (default 0 s1 * r1) (default 0 s2 * r2)) false) in
  ret (fst v).

Definition getDownRightDirection : Eff Runtime t :=
  let* r1 := Math_random in
  let dx := r1 in
  let* r2 := Math_random in
  let dy := - r2 in
  let* v := liftResult (normalize (mk dx dy) false) in
  ret (fst v).

Definition UP : t := mk 0 1.
Definition RIGHT : t := mk 1 0.
Definition DOWN : t := mk 0 (-1).
Definition LEFT : t := mk (-1) 0.
End Vector.

(* ================================================================= *)
(** ** The canvas (util/canvasUtil.ts, the part without the grid) *)

Record Canvas : Type := mkCanvas { width : R; height : R }.

(* ================================================================= *)
(** ** geometry/Point.ts *)

Module Point.
Local Open Scope R_scope.
Local Open Scope eff_scope.

Record t : Type := mk { x : R; y : R }.

Definition applyVector (this : t) (vector : Vector.t) (mutate : bool) : t * t :=
  let finalX := x this + Vector.dx vector in
  let finalY := y this + Vector.dy vector in
  withMutate mutate this (mk finalX finalY).

(** [target] is a Point, or the [position] of an environment object *)
Definition getVectorTo (this targetPoint : t) : Vector.t :=
  let dx := x targetPoint - x this in
  let dy := y targetPoint - y this in
  Vector.mk dx dy.

Definition getDirectionTo (this target : t) : Result Vector.t :=
  match Vector.normalize (getVectorTo this target) false with
  | Ok v => Ok (fst v)
  | Err msg => Err msg
  end.

Definition getDistanceTo (this targetPoint : t) : R :=
  Vector.getMagnitude (getVectorTo this targetPoint).

Definition rotateAround (this pointB : t) (angleDeg : R) (mutate : bool) : t * t :=
  let angleRad := (angleDeg * PI) / 180 in
  let x0 := x this - x pointB in
  let y0 := y this - y pointB in
  let cosAngle := cos angleRad in
  let sinAngle := sin angleRad in
  let rotatedX := x0 * cosAngle + y0 * sinAngle in
  let rotatedY := - x0 * sinAngle + y0 * cosAngle in
  let finalX := rotatedX + x pointB in
  let finalY := rotatedY + y pointB in
  withMutate mutate this (mk finalX finalY).

Definition clone (this : t) : t := mk (x this) (y this).

(** [this.mutate(newPoint)]: the receiver after the call *)
Definition mutate (this newPoint : t) : t := mk (x newPoint) (y newPoint).

Definition getRandomPoint (canvas : Canvas) (ratio : R) : Eff Runtime t :=
  let marginX := ((1 - ratio) * width canvas) / 2 in
  let marginY := ((1 - ratio) * height canvas) / 2 in
  let* r1 := Math_random in
  let x := marginX + r1 * (width canvas * ratio) in
  let* r2 := Math_random in
  let y := marginY + r2 * (height canvas * ratio) in
  ret (mk x y).

Definition translateBy (this : t) (vector : Vector.t) (mutate : bool) : t * t :=
  let translatedX := x this + Vector.dx vector in
  let translatedY := y this + Vector.dy vector in
  withMutate mutate this (mk translatedX translatedY).

Definition round (this : t) (mutate : bool) : t * t :=
  let finalX := IZR (Js.round (x this)) in
  let finalY := IZR (Js.round (y this)) in
  withMutate mutate this (mk finalX finalY).

Definition getCoordinates (this : t) : R * R := (x this, y this).

(** A [PointMap] is an object from names to points.  Its keys are names
    (none is an array index), so that [Object.keys] and [Object.values]
    enumerate them in insertion order: an association list.  The points of
    a map are distinct objects. *)
Definition PointMap : Type := list (string * t).

Definition Object_values (pointMap : PointMap) : list t := map snd pointMap.

(** the returned map, and the map that was passed after the call *)
Definition rotateAllPoints (rotationCenter : t) (rotationAngle : R) (pointsMap : PointMap)
    (mutate : bool) : PointMap * PointMap :=
  let result :=
    map (λ entry,
           (fst entry, fst (rotateAround (snd entry) rotationCenter rotationAngle mutate)))
        pointsMap in
  withMutate mutate pointsMap result.

Definition translateAllPoints (translationVector : Vector.t) (pointsMap : PointMap)
    (mutate : bool) : PointMap * PointMap :=
  let result :=
    map (λ entry, (fst entry, fst (translateBy (snd entry) translationVector mutate)))
        pointsMap in
  withMutate mutate pointsMap result.

Record Corners : Type := mkCorners {
  bottomMost : t;
  topMost : t;
  leftMost : t;
  rightMost : t;
}.

(** the callback of the [reduce] in [findCorners] *)
Definition widen (acc : Corners) (point : t) : Corners :=
  let acc := if Rlt_dec (y point) (y (bottomMost acc))
             then mkCorners point (topMost acc) (leftMost acc) (rightMost acc) else acc in
  let acc := if Rgt_dec (y point) (y (topMost acc))
             then mkCorners (bottomMost acc) point (leftMost acc) (rightMost acc) else acc in
  let acc := if Rlt_dec (x point) (x (leftMost acc))
             then mkCorners (bottomMost acc) (topMost acc) point (rightMost acc) else acc in
  let acc := if Rgt_dec (x point) (x (rightMost acc))
             then mkCorners (bottomMost acc) (topMost acc) (leftMost acc) point else acc in
  acc.

Definition findCorners (pointMap : PointMap) : Result Corners :=
  let points := Object_values pointMap in
  match points with
  | [] => Err "Point map cannot be empty."
  | first :: _ => Ok (foldl widen (mkCorners first first first first) points)
  end.

(** [number] is a JavaScript number: the loop runs for [i = 0, 1, ...]
    while [i < number] *)
Definition getEvenlySpacedPoints (point1 point2 : t) (number : R) : list t :=
  let deltaX := (x point2 - x point1) / (number - 1) in
  let deltaY := (y point2 - y point1) / (number - 1) in
  map (λ i, let newX := x point1 + deltaX * INR i in
            let newY := y point1 + deltaY * INR i in
            mk newX newY)
      (seq 0 (Z.to_nat (Zceil number))).

Definition calculateMidpoint (point1 point2 : t) : t :=
  let x := (x point1 + x point2) / 2 in
  let y := (y point1 + y point2) / 2 in
  mk x y.

Definition calculatePointOnLine (point1 point2 : t) (t0 : R) : t :=
  let x := x point1 + t0 * (x point2 - x point1) in
  let y := y point1 + t0 * (y point2 - y point1) in
  mk x y.

Definition calculateSlope (point1 point2 : t) : R :=
  (y point2 - y point1) / (x point2 - x point1).

(** the pair (midpoint, perpendicularFoot) *)
Definition calculatePerpendicularFoot (point1 point2 point3 point4 : t) : t * t :=
  let midpoint := calculateMidpoint point1 point2 in
  let slopeAB := calculateSlope point1 point2 in
  let slopePerpendicular := -1 / slopeAB in
  let slopeCD := calculateSlope point3 point4 in
  let interceptCD := y point3 - slopeCD * x point3 in
  let interceptPerpendicular := y midpoint - slopePerpendicular * x midpoint in
  let xIntersection := (interceptPerpendicular - interceptCD) / (slopeCD - slopePerpendicular) in
  let yIntersection := slopePerpendicular * xIntersection + interceptPerpendicular in
  let perpendicularFoot := mk xIntersection yIntersection in
  (midpoint, perpendicularFoot).

(** the pair (partialControlPoint, partialEndPoint) *)
Definition calculatePartialQuadraticCurve
    (originalStartPoint originalControlPoint originalEndPoint : t) (t0 : R) : t * t :=
  let P0P1 := calculatePointOnLine originalStartPoint originalControlPoint t0 in
  let P1P2 := calculatePointOnLine originalControlPoint originalEndPoint t0 in
  let partialEndPoint := calculatePointOnLine P0P1 P1P2 t0 in
  (P0P1, partialEndPoint).
End Point.

(* ================================================================= *)
(** ** util/drawUtil.ts: the geometry helpers *)

Module drawUtil.
Local Open Scope R_scope.

Record ArcPoints : Type := mkArcPoints { arcPoint : Point.t; midPoint : Point.t }.

Definition getArcPoints (pointA pointB : Point.t) (vector : Vector.t) : ArcPoints :=
  let midpoint :=
    Point.mk ((Point.x pointA + Point.x pointB) / 2) ((Point.y pointA + Point.y pointB) / 2) in
  let arcPoint :=
    Point.mk (Point.x midpoint + Vector.dx vector) (Point.y midpoint + Vector.dy vector) in
  mkArcPoints arcPoint (Point.mk (Point.x midpoint) (Point.y midpoint)).

Record PerpindicularPoints : Type :=
  mkPerpindicularPoints { point1 : Point.t; point2 : Point.t }.

Definition getPerpindicularPoints (pointA pointB : Point.t) (distance : R)
    : PerpindicularPoints :=
  let midX := (Point.x pointA + Point.x pointB) / 2 in
  let midY := (Point.y pointA + Point.y pointB) / 2 in
  let dx := Point.x pointB - Point.x pointA in
  let dy := Point.y pointB - Point.y pointA in
  let length := sqrt (dx * dx + dy * dy) in
  let unitDx := dx / length in
  let unitDy := dy / length in
  let perpDx := - unitDy in
  let perpDy := unitDx in
  let perpPoint1 := Point.mk (midX + perpDx * distance) (midY + perpDy * distance) in
  let perpPoint2 := Point.mk (midX - perpDx * distance) (midY - perpDy * distance) in
  mkPerpindicularPoints perpPoint1 perpPoint2.

(** the [SquarePoints] of a square around [center], rotated *)
Definition getSquarePoints (center : Point.t) (rotationAngle sideLength : R)
    : Point.PointMap :=
  let '(centerX, centerY) := Point.getCoordinates center in
  let halfSide := sideLength / 2 in
  let squarePoints :=
    [ ("corner1", Point.mk (centerX - halfSide) (centerY - halfSide));
      ("corner2", Point.mk (centerX + halfSide) (centerY - halfSide));
      ("corner3", Point.mk (centerX + halfSide) (centerY + halfSide));
      ("corner4", Point.mk (centerX - halfSide) (centerY + halfSide)) ] in
  fst (Point.rotateAllPoints center rotationAngle squarePoints false).
End drawUtil.

(* ================================================================= *)
(** ** geometry/Oscillator.ts *)

Module Oscillator.
Local Open Scope R_scope.
Local Open Scope eff_scope.

Record t : Type := mk {
  amplitude : R;
  period : R;
  phase : R;
  lastUpdateTime : R;
  min : R;
  max : R;
  neutralValue : R;
  value : R;
  speedFactor : R;
}.

(** [new Oscillator(min, max, period)] *)
Definition new (min max period : R) : Eff Runtime t :=
  let amplitude := (max - min) / 2 in
  let* now := Date_now in
  let neutralValue := min + amplitude in
  ret (mk amplitude period 0 now min max neutralValue neutralValue 1).

Definition update (this : t) : Eff Runtime t :=
  let* currentTime := Date_now in
  let deltaTime := (currentTime - lastUpdateTime this) / 1000 in
  let currentPhase :=
    2 * PI * (deltaTime / (period this / speedFactor this)) + phase this in
  let value := min this + amplitude this + amplitude this * sin currentPhase in
  ret (mk (amplitude this) (period this) (Js.rem currentPhase (2 * PI)) currentTime
          (min this) (max this) (neutralValue this) value (speedFactor this)).

Definition setSpeedFactor (this : t) (factor : R) : t :=
  mk (amplitude this) (period this) (phase this) (lastUpdateTime this)
     (min this) (max this) (neutralValue this) (value this) factor.

(** returns the value and the oscillator after the read *)
Definition getValue (this : t) : Eff Runtime (R * t) :=
  let* this := update this in
  ret (value this, this).

(** A client of the oscillator: reads and changes of the speed factor, in
    any order.  The wall-clock time of each read is the clock's. *)
Inductive call : Type :=
| GetValue
| SetSpeedFactor (factor : R).

(** the values returned by the reads of a call sequence, in order *)
Fixpoint run (this : t) (calls : list call) : Eff Runtime (list R) :=
  match calls with
  | [] => ret []
  | GetValue :: rest =>
      let* r := getValue this in
      let* vs := run (snd r) rest in
      ret (fst r :: vs)
  | SetSpeedFactor factor :: rest => run (setSpeedFactor this factor) rest
  end.

Definition positiveFactor (c : call) : Prop :=
  match c with GetValue => True | SetSpeedFactor factor => 0 < factor end.
End Oscillator.

(* ================================================================= *)
(** ** config.json: the tunables read by the embedded code *)

Record Config : Type := mkConfig {
  fish_followDistance : R;
  wave_riverMode : bool;
  ripple_maxOpacity : R;
}.

(* ================================================================= *)
(** ** objects/ripple.ts *)

Module Ripple.
Local Open Scope R_scope.
Local Open Scope eff_scope.

Record t : Type := mk {
  id : string;
  position : Point.t;
  direction : Vector.t;
  generationTime : R;
  speed : R;
  lastUpdateTime : R;
  length : R;
  initialRippleDispersion : R;
}.

Definition lifeTime : R := 5.
Definition peakOpacityTime : R := 15 / 10.

(** the body of [getOpacity], at a given existence time *)
Definition opacityAt (rippleConfig : Config) (existenceTime : R) : R :=
  if Rlt_dec existenceTime peakOpacityTime then
    numberUtil.scaleToRange 0 (ripple_maxOpacity rippleConfig)
      (existenceTime / peakOpacityTime)
  else
    let timeSincePeak := existenceTime - peakOpacityTime in
    let fadeOutTime := lifeTime - peakOpacityTime in
    numberUtil.scaleToRange (ripple_maxOpacity rippleConfig) 0
      (timeSincePeak / fadeOutTime).

Definition getOpacity (rippleConfig : Config) (this : t) : Eff Runtime R :=
  let* existenceTime := timeUtil.getElapsedSeconds (generationTime this) in
  ret (opacityAt rippleConfig existenceTime).
End Ripple.

(* ================================================================= *)
(** ** drawManager.ts *)

Module DrawManager.

(** the enum, in declaration order ("top to bottom") *)
Inductive DrawLayer : Type :=
| DEV | LANTERN | FOOD | PETAL | WAVE | WATER_SURFACE | RIPPLE | LANTERN_SHADOW | FISH.

#[global] Instance DrawLayer_eq_dec : EqDecision DrawLayer.
Proof. solve_decision. Defined.

(** the number the compiler gives to each member *)
Definition value (l : DrawLayer) : nat :=
  match l with
  | DEV => 0 | LANTERN => 1 | FOOD => 2 | PETAL => 3 | WAVE => 4
  | WATER_SURFACE => 5 | RIPPLE => 6 | LANTERN_SHADOW => 7 | FISH => 8
  end.

Definition ofValue (n : nat) : option DrawLayer :=
  match n with
  | 0 => Some DEV | 1 => Some LANTERN | 2 => Some FOOD | 3 => Some PETAL
  | 4 => Some WAVE | 5 => Some WATER_SURFACE | 6 => Some RIPPLE
  | 7 => Some LANTERN_SHADOW | 8 => Some FISH | _ => None
  end.

#[global] Instance DrawLayer_countable : Countable DrawLayer.
Proof. apply (inj_countable value ofValue). intros []; reflexivity. Defined.

(** A numeric enum compiles to an object with a reverse mapping:
    [Object.keys] lists the integer keys first, then the member names in
    declaration order. *)
Inductive key : Type :=
| Index (n : nat)
| Name (l : DrawLayer).

Definition Object_keys : list key :=
  map Index (seq 0 9)
  ++ map Name [DEV; LANTERN; FOOD; PETAL; WAVE; WATER_SURFACE; RIPPLE; LANTERN_SHADOW; FISH].

(** [isNaN(Number(key))] *)
Definition isNaN_Number (k : key) : bool :=
  match k with Index _ => false | Name _ => true end.

(** [DrawLayer[key]] on the keys that pass the filter *)
Definition member (k : key) : option DrawLayer :=
  match k with Index _ => None | Name l => Some l end.

Definition layerDrawOrder : list DrawLayer :=
  reverse (omap member (filter (λ k, isNaN_Number k = true) Object_keys)).

Section manager.
(** a draw callback is opaque; running one is recorded in the order of
    execution *)
Context {Callback : Type}.

Record t : Type := mk { scheduledDraws : gmap DrawLayer (list Callback) }.

Definition new : t := mk ∅.

Definition scheduleDraw (layer : DrawLayer) (drawCallback : Callback) (this : t) : t :=
  let scheduledDrawsAtLayer := default [] (scheduledDraws this !! layer) in
  let scheduledDrawsAtLayer := scheduledDrawsAtLayer ++ [drawCallback] in
  mk (<[layer := scheduledDrawsAtLayer]> (scheduledDraws this)).

(** the callbacks run, in order, and the manager afterwards *)
Definition executeScheduledDraws (this : t) : list Callback * t :=
  let executed :=
    flat_map (λ drawLayer, default [] (scheduledDraws this !! drawLayer)) layerDrawOrder in
  (executed, mk ∅).

(** a frame: a sequence of [scheduleDraw] calls, then one flush *)
Definition scheduleAll (calls : list (DrawLayer * Callback)) (this : t) : t :=
  foldl (λ m c, scheduleDraw (fst c) (snd c) m) this calls.

Definition frame (calls : list (DrawLayer * Callback)) : list Callback * t :=
  executeScheduledDraws (scheduleAll calls new).

(** the callbacks scheduled at one layer, in scheduling order *)
Definition scheduledAt (calls : list (DrawLayer * Callback)) (layer : DrawLayer) : list Callback :=
  map snd (filter (λ c, fst c = layer) calls).
End manager.
Arguments t : clear implicits.

(** the order of the specification: the debug layer first, then back to
    front from the lantern to the fish *)
Definition specifiedOrder : list DrawLayer :=
  [DEV; LANTERN; FOOD; PETAL; WAVE; WATER_SURFACE; RIPPLE; LANTERN_SHADOW; FISH].

(** the order of the code: the enum reversed *)
Definition executedOrder : list DrawLayer :=
  [FISH; LANTERN_SHADOW; RIPPLE; WATER_SURFACE; WAVE; PETAL; FOOD; LANTERN; DEV].
End DrawManager.

(* ================================================================= *)
(** ** The objects of the environment *)

(** An object is named by its [id] (a [crypto.randomUUID()] string). *)
Definition ObjectId : Type := string.

(** A reference to a [Point] object.  The points that are shared between
    objects are the [position] of a food (a fish chasing it holds it as its
    target) and the two follow points of a leader (held by its followers);
    every other point is reachable through one field only. *)
Inductive PointRef : Type :=
| OwnPoint (p : Point.t)
| PositionOfFood (food : ObjectId)
| LeftFollowPointOf (leader : ObjectId)
| RightFollowPointOf (leader : ObjectId).

#[global] Instance ObjectId_eq_dec : EqDecision ObjectId := String.eq_dec.

Module Food.
Record FoodParticle : Type := mkFoodParticle {
  tipAngle : R;
  tipDistance : R;
  curveAngle : R;
  curveDistance : R;
  particleDirection : Vector.t;
}.

Record t : Type := mk {
  id : ObjectId;
  position : Point.t;
  direction : Vector.t;
  speed : R;
  foodParticles : list FoodParticle;
  lastUpdateTime : R;
  particleDispersion : R;
  isEaten : bool;
}.

Definition set_isEaten (b : bool) (this : t) : t :=
  mk (id this) (position this) (direction this) (speed this) (foodParticles this)
     (lastUpdateTime this) (particleDispersion this) b.

Definition set_foodParticles (ps : list FoodParticle) (this : t) : t :=
  mk (id this) (position this) (direction this) (speed this) ps
     (lastUpdateTime this) (particleDispersion this) (isEaten this).
End Food.

Module Wave.
Record t : Type := mk {
  id : ObjectId;
  position : Point.t;
  direction : Vector.t;
  lastUpdateTime : R;
  speed : R;
  size : R;
  color : string;
}.

Definition set_position (p : Point.t) (this : t) : t :=
  mk (id this) p (direction this) (lastUpdateTime this) (speed this) (size this) (color this).
Definition set_direction (d : Vector.t) (this : t) : t :=
  mk (id this) (position this) d (lastUpdateTime this) (speed this) (size this) (color this).
Definition set_lastUpdateTime (n : R) (this : t) : t :=
  mk (id this) (position this) (direction this) n (speed this) (size this) (color this).
End Wave.

Module KoiFish.
(** the fields of the class that the simulation reads and writes (the
    colours, decorations and lengths only matter to drawing) *)
Record t : Type := mk {
  id : ObjectId;
  size : R;
  position : Point.t;
  direction : Vector.t;
  baseSpeed : R;
  speed : R;
  previousSpeed : R;
  turnMultiplier : R;
  targetPoint : PointRef;
  lastUpdateTime : R;
  finAngleOscillator : Oscillator.t;
  tailAngleOscillator : Oscillator.t;
  (* food *)
  desiredFood : option ObjectId;
  (* leader *)
  leftFollowAngle : R;
  rightFollowAngle : R;
  leftFollowPoint : Point.t;
  rightFollowPoint : Point.t;
  leftFollower : option ObjectId;
  rightFollower : option ObjectId;
  (* follower *)
  followTime : R;
  leaderKoiFish : option ObjectId;
}.

Definition set_position (v : Point.t) (k : t) : t :=
  mk (id k) (size k) v (direction k) (baseSpeed k) (speed k) (previousSpeed k)
     (turnMultiplier k) (targetPoint k) (lastUpdateTime k) (finAngleOscillator k)
     (tailAngleOscillator k) (desiredFood k) (leftFollowAngle k) (rightFollowAngle k)
     (leftFollowPoint k) (rightFollowPoint k) (leftFollower k) (rightFollower k)
     (followTime k) (leaderKoiFish k).
Definition set_direction (v : Vector.t) (k : t) : t :=
  mk (id k) (size k) (position k) v (baseSpeed k) (speed k) (previousSpeed k)
     (turnMultiplier k) (targetPoint k) (lastUpdateTime k) (finAngleOscillator k)
     (tailAngleOscillator k) (desiredFood k) (leftFollowAngle k) (rightFollowAngle k)
     (leftFollowPoint k) (rightFollowPoint k) (leftFollower k) (rightFollower k)
     (followTime k) (leaderKoiFish k).
Definition set_speed (v : R) (k : t) : t :=
  mk (id k) (size k) (position k) (direction k) (baseSpeed k) v (previousSpeed k)
     (turnMultiplier k) (targetPoint k) (lastUpdateTime k) (finAngleOscillator k)
     (tailAngleOscillator k) (desiredFood k) (leftFollowAngle k) (rightFollowAngle k)
     (leftFollowPoint k) (rightFollowPoint k) (leftFollower k) (rightFollower k)
     (followTime k) (leaderKoiFish k).
Definition set_previousSpeed (v : R) (k : t) : t :=
  mk (id k) (size k) (position k) (direction k) (baseSpeed k) (speed k) v
     (turnMultiplier k) (targetPoint k) (lastUpdateTime k) (finAngleOscillator k)
     (tailAngleOscillator k) (desiredFood k) (leftFollowAngle k) (rightFollowAngle k)
     (leftFollowPoint k) (rightFollowPoint k) (leftFollower k) (rightFollower k)
     (followTime k) (leaderKoiFish k).
Definition set_turnMultiplier (v : R) (k : t) : t :=
  mk (id k) (size k) (position k) (direction k) (baseSpeed k) (speed k) (previousSpeed k)
     v (targetPoint k) (lastUpdateTime k) (finAngleOscillator k)
     (tailAngleOscillator k) (desiredFood k) (leftFollowAngle k) (rightFollowAngle k)
     (leftFollowPoint k) (rightFollowPoint k) (leftFollower k) (rightFollower k)
     (followTime k) (leaderKoiFish k).
Definition set_targetPoint (v : PointRef) (k : t) : t :=
  mk (id k) (size k) (position k) (direction k) (baseSpeed k) (speed k) (previousSpeed k)
     (turnMultiplier k) v (lastUpdateTime k) (finAngleOscillator k)
     (tailAngleOscillator k) (desiredFood k) (leftFollowAngle k) (rightFollowAngle k)
     (leftFollowPoint k) (rightFollowPoint k) (leftFollower k) (rightFollower k)
     (followTime k) (leaderKoiFish k).
Definition set_lastUpdateTime (v : R) (k : t) : t :=
  mk (id k) (size k) (position k) (direction k) (baseSpeed k) (speed k) (previousSpeed k)
     (turnMultiplier k) (targetPoint k) v (finAngleOscillator k)
     (tailAngleOscillator k) (desiredFood k) (leftFollowAngle k) (rightFollowAngle k)
     (leftFollowPoint k) (rightFollowPoint k) (leftFollower k) (rightFollower k)
     (followTime k) (leaderKoiFish k).
Definition set_finAngleOscillator (v : Oscillator.t) (k : t) : t :=
  mk (id k) (size k) (position k) (direction k) (baseSpeed k) (speed k) (previousSpeed k)
     (turnMultiplier k) (targetPoint k) (lastUpdateTime k) v
     (tailAngleOscillator k) (desiredFood k) (leftFollowAngle k) (rightFollowAngle k)
     (leftFollowPoint k) (rightFollowPoint k) (leftFollower k) (rightFollower k)
     (followTime k) (leaderKoiFish k).
Definition set_tailAngleOscillator (v : Oscillator.t) (k : t) : t :=
  mk (id k) (size k) (position k) (direction k) (baseSpeed k) (speed k) (previousSpeed k)
     (turnMultiplier k) (targetPoint k) (lastUpdateTime k) (finAngleOscillator k)
     v (desiredFood k) (leftFollowAngle k) (rightFollowAngle k)
     (leftFollowPoint k) (rightFollowPoint k) (leftFollower k) (rightFollower k)
     (followTime k) (leaderKoiFish k).
Definition set_desiredFood (v : option ObjectId) (k : t) : t :=
  mk (id k) (size k) (position k) (direction k) (baseSpeed k) (speed k) (previousSpeed k)
     (turnMultiplier k) (targetPoint k) (lastUpdateTime k) (finAngleOscillator k)
     (tailAngleOscillator k) v (leftFollowAngle k) (rightFollowAngle k)
     (leftFollowPoint k) (rightFollowPoint k) (leftFollower k) (rightFollower k)
     (followTime k) (leaderKoiFish k).
Definition set_leftFollowPoint (v : Point.t) (k : t) : t :=
  mk (id k) (size k) (position k) (direction k) (baseSpeed k) (speed k) (previousSpeed k)
     (turnMultiplier k) (targetPoint k) (lastUpdateTime k) (finAngleOscillator k)
     (tailAngleOscillator k) (desiredFood k) (leftFollowAngle k) (rightFollowAngle k)
     v (rightFollowPoint k) (leftFollower k) (rightFollower k)
     (followTime k) (leaderKoiFish k).
Definition set_rightFollowPoint (v : Point.t) (k : t) : t :=
  mk (id k) (size k) (position k) (direction k) (baseSpeed k) (speed k) (previousSpeed k)
     (turnMultiplier k) (targetPoint k) (lastUpdateTime k) (finAngleOscillator k)
     (tailAngleOscillator k) (desiredFood k) (leftFollowAngle k) (rightFollowAngle k)
     (leftFollowPoint k) v (leftFollower k) (rightFollower k)
     (followTime k) (leaderKoiFish k).
Definition set_leftFollower (v : option ObjectId) (k : t) : t :=
  mk (id k) (size k) (position k) (direction k) (baseSpeed k) (speed k) (previousSpeed k)
     (turnMultiplier k) (targetPoint k) (lastUpdateTime k) (finAngleOscillator k)
     (tailAngleOscillator k) (desiredFood k) (leftFollowAngle k) (rightFollowAngle k)
     (leftFollowPoint k) (rightFollowPoint k) v (rightFollower k)
     (followTime k) (leaderKoiFish k).
Definition set_rightFollower (v : option ObjectId) (k : t) : t :=
  mk (id k) (size k) (position k) (direction k) (baseSpeed k) (speed k) (previousSpeed k)
     (turnMultiplier k) (targetPoint k) (lastUpdateTime k) (finAngleOscillator k)
     (tailAngleOscillator k) (desiredFood k) (leftFollowAngle k) (rightFollowAngle k)
     (leftFollowPoint k) (rightFollowPoint k) (leftFollower k) v
     (followTime k) (leaderKoiFish k).
Definition set_followTime (v : R) (k : t) : t :=
  mk (id k) (size k) (position k) (direction k) (baseSpeed k) (speed k) (previousSpeed k)
     (turnMultiplier k) (targetPoint k) (lastUpdateTime k) (finAngleOscillator k)
     (tailAngleOscillator k) (desiredFood k) (leftFollowAngle k) (rightFollowAngle k)
     (leftFollowPoint k) (rightFollowPoint k) (leftFollower k) (rightFollower k)
     v (leaderKoiFish k).
Definition set_leaderKoiFish (v : option ObjectId) (k : t) : t :=
  mk (id k) (size k) (position k) (direction k) (baseSpeed k) (speed k) (previousSpeed k)
     (turnMultiplier k) (targetPoint k) (lastUpdateTime k) (finAngleOscillator k)
     (tailAngleOscillator k) (desiredFood k) (leftFollowAngle k) (rightFollowAngle k)
     (leftFollowPoint k) (rightFollowPoint k) (leftFollower k) (rightFollower k)
     (followTime k) v.
End KoiFish.

(** What the location map holds: a reference to an object, with its class
    (what [instanceof] tests). *)
Inductive ObjectClass : Type := KoiFishClass | FoodClass | LanternClass.

#[global] Instance ObjectClass_eq_dec : EqDecision ObjectClass.
Proof. solve_decision. Defined.

Record ObjectRef : Type := mkRef { classOf : ObjectClass; idOf : ObjectId }.

(** [interface EnvironmentObject { position: Point; id: string }], as read
    by the callee *)
Module EnvironmentObject.
Record t : Type := mk { position : Point.t; id : ObjectId }.
End EnvironmentObject.

(* ================================================================= *)
(** ** The world: module state, the object graph and the object manager *)

Record World : Type := mkWorld {
  runtime : Runtime;
  config : Config;
  (* util/canvasUtil.ts *)
  canvas : Canvas;
  canvasDiagonalLength : R;
  numCellsX : Z;
  numCellsY : Z;
  adjacentIndicesCache : gmap (list Z) (list Z);
  (* the objects, by reference *)
  koiFish : ObjectId → KoiFish.t;
  food : ObjectId → Food.t;
  wave : ObjectId → Wave.t;
  (* objectManager.ts: the keys of the id-keyed maps, and the location map *)
  foodMap : gset ObjectId;
  waveMap : gset ObjectId;
  locationMap : gmap Z (list ObjectRef);
  (* the intervals started by [setInterval] in [Food.onEaten] *)
  intervals : list ObjectId;
}.

Definition set_runtime (v : Runtime) (w : World) : World :=
  mkWorld v (config w) (canvas w) (canvasDiagonalLength w) (numCellsX w) (numCellsY w)
          (adjacentIndicesCache w) (koiFish w) (food w) (wave w) (foodMap w) (waveMap w)
          (locationMap w) (intervals w).
Definition set_grid (c : Canvas) (d : R) (nx ny : Z) (w : World) : World :=
  mkWorld (runtime w) (config w) c d nx ny
          (adjacentIndicesCache w) (koiFish w) (food w) (wave w) (foodMap w) (waveMap w)
          (locationMap w) (intervals w).
Definition set_adjacentIndicesCache (v : gmap (list Z) (list Z)) (w : World) : World :=
  mkWorld (runtime w) (config w) (canvas w) (canvasDiagonalLength w) (numCellsX w) (numCellsY w)
          v (koiFish w) (food w) (wave w) (foodMap w) (waveMap w)
          (locationMap w) (intervals w).
Definition set_koiFish (v : ObjectId → KoiFish.t) (w : World) : World :=
  mkWorld (runtime w) (config w) (canvas w) (canvasDiagonalLength w) (numCellsX w) (numCellsY w)
          (adjacentIndicesCache w) v (food w) (wave w) (foodMap w) (waveMap w)
          (locationMap w) (intervals w).
Definition set_food (v : ObjectId → Food.t) (w : World) : World :=
  mkWorld (runtime w) (config w) (canvas w) (canvasDiagonalLength w) (numCellsX w) (numCellsY w)
          (adjacentIndicesCache w) (koiFish w) v (wave w) (foodMap w) (waveMap w)
          (locationMap w) (intervals w).
Definition set_wave (v : ObjectId → Wave.t) (w : World) : World :=
  mkWorld (runtime w) (config w) (canvas w) (canvasDiagonalLength w) (numCellsX w) (numCellsY w)
          (adjacentIndicesCache w) (koiFish w) (food w) v (foodMap w) (waveMap w)
          (locationMap w) (intervals w).
Definition set_foodMap (v : gset ObjectId) (w : World) : World :=
  mkWorld (runtime w) (config w) (canvas w) (canvasDiagonalLength w) (numCellsX w) (numCellsY w)
          (adjacentIndicesCache w) (koiFish w) (food w) (wave w) v (waveMap w)
          (locationMap w) (intervals w).
Definition set_intervals (v : list ObjectId) (w : World) : World :=
  mkWorld (runtime w) (config w) (canvas w) (canvasDiagonalLength w) (numCellsX w) (numCellsY w)
          (adjacentIndicesCache w) (koiFish w) (food w) (wave w) (foodMap w) (waveMap w)
          (locationMap w) v.

(** run a computation on the runtime inside the world *)
Definition liftRuntime {A : Type} (m : Eff Runtime A) : Eff World A :=
  λ w, let (o, rt) := m (runtime w) in (o, set_runtime rt w).

(** field access and update of the objects in the world *)
Definition updateKoiFish (self : ObjectId) (f : KoiFish.t → KoiFish.t) : Eff World unit :=
  modify (λ w, set_koiFish (<[self := f (koiFish w self)]> (koiFish w)) w).
Definition updateFood (self : ObjectId) (f : Food.t → Food.t) : Eff World unit :=
  modify (λ w, set_food (<[self := f (food w self)]> (food w)) w).
Definition updateWave (self : ObjectId) (f : Wave.t → Wave.t) : Eff World unit :=
  modify (λ w, set_wave (<[self := f (wave w self)]> (wave w)) w).

(** the point a reference stands for, in the current world *)
Definition deref (w : World) (r : PointRef) : Point.t :=
  match r with
  | OwnPoint p => p
  | PositionOfFood f => Food.position (food w f)
  | LeftFollowPointOf l => KoiFish.leftFollowPoint (koiFish w l)
  | RightFollowPointOf l => KoiFish.rightFollowPoint (koiFish w l)
  end.

(* ================================================================= *)
(** ** util/canvasUtil.ts *)

Module canvasUtil.
Local Open Scope R_scope.
Local Open Scope eff_scope.

Definition cellSize : R := 50.

(** [setupCanvas], for a window of the given inner size *)
Definition setupCanvas (innerWidth innerHeight : R) : Eff World unit :=
  modify (λ w,
    let canvas := mkCanvas innerWidth innerHeight in
    let canvasDiagonalLength := sqrt (width canvas ^ 2 + height canvas ^ 2) in
    let numCellsX := Zceil (width canvas / cellSize) in
    let numCellsY := Zceil (height canvas / cellSize) in
    set_grid canvas canvasDiagonalLength numCellsX numCellsY w).

Definition isPointOutOfBounds (canvas : Canvas) (point : Point.t) (tolerance : R) : bool :=
  let minX := - tolerance in
  let maxX := width canvas + tolerance in
  let minY := - tolerance in
  let maxY := height canvas + tolerance in
  Js.ltb (Point.x point) minX || Js.gtb (Point.x point) maxX
  || Js.ltb (Point.y point) minY || Js.gtb (Point.y point) maxY.

Definition getDistanceToCanvasBorder (canvas : Canvas) (point : Point.t) : R :=
  let x := Point.x point in
  let y := Point.y point in
  let distanceToLeft := x in
  let distanceToRight := width canvas - x in
  let distanceToTop := y in
  let distanceToBottom := height canvas - y in
  let minDistanceToBorder :=
    Rabs (Rmin (Rmin (Rmin distanceToLeft distanceToRight) distanceToTop) distanceToBottom) in
  let isOutsideCanvas :=
    Js.ltb x 0 || Js.gtb x (width canvas) || Js.ltb y 0 || Js.gtb y (height canvas) in
  if isOutsideCanvas then - minDistanceToBorder else minDistanceToBorder.

Definition getTopEdgePoint (outsideDistance : R) : Eff World Point.t :=
  let* c := gets canvas in
  let* r := liftRuntime Math_random in
  ret (Point.mk (r * width c) (height c + outsideDistance)).

Definition getBottomEdgePoint (outsideDistance : R) : Eff World Point.t :=
  let* c := gets canvas in
  let* r := liftRuntime Math_random in
  ret (Point.mk (r * width c) (0 - outsideDistance)).

Definition getLeftEdgePoint (outsideDistance : R) : Eff World Point.t :=
  let* c := gets canvas in
  let* r := liftRuntime Math_random in
  ret (Point.mk (0 - outsideDistance) (r * height c)).

Definition getRightEdgePoint (outsideDistance : R) : Eff World Point.t :=
  let* c := gets canvas in
  let* r := liftRuntime Math_random in
  ret (Point.mk (width c + outsideDistance) (r * height c)).

Definition getRandomEdgePoint (outsideDistance : R) : Eff World Point.t :=
  let* edgePointCallback :=
    liftRuntime (randomUtil.getRandomItem
      [getTopEdgePoint; getBottomEdgePoint; getLeftEdgePoint; getRightEdgePoint]) in
  match edgePointCallback with
  | Some callback => callback outsideDistance
  | None => throw "TypeError: edgePointCallback is not a function"
  end.

Definition getTopLeftCornerPoint (outsideDistance : R) : Eff World Point.t :=
  let* c := gets canvas in
  let* top := liftRuntime (randomUtil.getRandomItem [true; false]) in
  if default false top then
    (* top *)
    let* x := liftRuntime (randomUtil.getRandomNumber 0 (width c / 2)) in
    let y := height c + outsideDistance in
    ret (Point.mk x y)
  else
    (* left *)
    let x := 0 - outsideDistance in
    let* y := liftRuntime (randomUtil.getRandomNumber (height c / 2) (height c)) in
    ret (Point.mk x y).

Definition getCellIndex (w : World) (point : Point.t) : Z :=
  let cellX := Zfloor (Point.x point / cellSize) in
  let cellY := Zfloor (Point.y point / cellSize) in
  (cellY * numCellsX w + cellX)%Z.

(** the values of a loop variable running from [-range] to [range] *)
Definition offsets (range : Z) : list Z :=
  map (λ i, (- range + Z.of_nat i)%Z) (seq 0 (Z.to_nat (2 * range + 1))).

(** the body of the function under [memoize]: [cellIndex % numCellsX] is
    the remainder with the sign of [cellIndex], [Math.floor(cellIndex /
    numCellsX)] the floor of the quotient *)
Definition adjacentCells (numCellsX numCellsY cellIndex range : Z) : list Z :=
  let cellX := Z.rem cellIndex numCellsX in
  let cellY := (cellIndex / numCellsX)%Z in
  flat_map (λ dx,
    flat_map (λ dy,
      let adjCellX := (cellX + dx)%Z in
      let adjCellY := (cellY + dy)%Z in
      if (0 <=? adjCellX)%Z && (adjCellX <? numCellsX)%Z
         && (0 <=? adjCellY)%Z && (adjCellY <? numCellsY)%Z
      then [(adjCellY * numCellsX + adjCellX)%Z]
      else [])
    (offsets range))
  (offsets range).

(** the function under [memoize], on its argument array; it reads the grid
    dimensions when it runs, and [range] defaults to 1 *)
Definition adjacentIndices (args : list Z) (w : World) : list Z :=
  match args with
  | [] => []
  | cellIndex :: rest =>
      let range := match rest with [] => 1%Z | range :: _ => range end in
      adjacentCells (numCellsX w) (numCellsY w) cellIndex range
  end.

Definition getAdjacentIndices (args : list Z) : Eff World (list Z) :=
  λ w, let (result, cache) := util.memoize adjacentIndices (adjacentIndicesCache w) args w in
       (Returned result, set_adjacentIndicesCache cache w).

(** A session of the grid: the window is resized ([setupCanvas] runs, as on
    every resize or theme change) and neighbour lists are queried, in any
    order. *)
Inductive gridCall : Type :=
| Resize (innerWidth innerHeight : R)
| Query (args : list Z).

Definition gridStep (c : gridCall) : Eff World unit :=
  match c with
  | Resize innerWidth innerHeight => setupCanvas innerWidth innerHeight
  | Query args => getAdjacentIndices args >> ret tt
  end.

Definition afterCalls (calls : list gridCall) (w : World) : World :=
  foldl (λ w c, snd (gridStep c w)) w calls.
End canvasUtil.

(* ================================================================= *)
(** ** objectManager.ts *)

Module ObjectManager.
Local Open Scope eff_scope.

Definition getNearbyObjects (sourceObject : EnvironmentObject.t) (targetClass : ObjectClass)
    (range : Z) : Eff World (list ObjectId) :=
  let* cellIndex :=
    gets (λ w, canvasUtil.getCellIndex w (EnvironmentObject.position sourceObject)) in
  let* adjacentIndices := canvasUtil.getAdjacentIndices [cellIndex; range] in
  let* locationMap := gets locationMap in
  ret (flat_map (λ adjacentIndex,
         let objectsAtCell := default [] (locationMap !! adjacentIndex) in
         map idOf
           (filter (λ obj, classOf obj = targetClass
                           ∧ idOf obj ≠ EnvironmentObject.id sourceObject)
                   objectsAtCell))
       adjacentIndices).

Definition removeFood (food : ObjectId) : Eff World unit :=
  modify (λ w, set_foodMap (foodMap w ∖ {[food]}) w).
End ObjectManager.

(* ================================================================= *)
(** ** objects/food.ts *)

Module food.
Local Open Scope eff_scope.

(** [onEaten] marks the food and starts the interval that removes its
    particles *)
Definition onEaten (self : ObjectId) : Eff World unit :=
  updateFood self (Food.set_isEaten true) >>
  modify (λ w, set_intervals (intervals w ++ [self]) w).

(** one firing of that interval *)
Definition onInterval (self : ObjectId) : Eff World unit :=
  let* this := gets (λ w, food w self) in
  if decide (0 < length (Food.foodParticles this))%nat then
    updateFood self (λ f, Food.set_foodParticles (removelast (Food.foodParticles f)) f)
  else
    modify (λ w, set_intervals (filter (λ i, i ≠ self) (intervals w)) w) >>
    ObjectManager.removeFood self.
End food.

(* ================================================================= *)
(** ** objects/wave.ts *)

Module wave.
Local Open Scope R_scope.
Local Open Scope eff_scope.

Definition prepareReentry (self : ObjectId) : Eff World unit :=
  let* cfg := gets config in
  let* new :=
    (if wave_riverMode cfg then
       let* newPosition := canvasUtil.getTopLeftCornerPoint 300 in
       let* newDirection := liftRuntime Vector.getDownRightDirection in
       ret (newPosition, newDirection)
     else
       let* newPosition := canvasUtil.getRandomEdgePoint 300 in
       let* c := gets canvas in
       let* randomPoint := liftRuntime (Point.getRandomPoint c 1) in
       let* newDirection := liftResult (Point.getDirectionTo newPosition randomPoint) in
       ret (newPosition, newDirection)) in
  updateWave self (Wave.set_position (fst new)) >>
  updateWave self (Wave.set_direction (snd new)).

Definition update (self : ObjectId) : Eff World unit :=
  let* this := gets (λ w, wave w self) in
  let* elapsed := liftRuntime (timeUtil.getElapsedSeconds (Wave.lastUpdateTime this)) in
  updateWave self (λ this,
    Wave.set_position
      (snd (Point.applyVector (Wave.position this)
              (fst (Vector.scale (Wave.direction this) (Wave.speed this * elapsed) false))
              true))
      this) >>
  let* this := gets (λ w, wave w self) in
  let* c := gets canvas in
  (if canvasUtil.isPointOutOfBounds c (Wave.position this) 500
   then prepareReentry self else ret tt) >>
  let* now := liftRuntime Date_now in
  updateWave self (Wave.set_lastUpdateTime now).
End wave.

(* ================================================================= *)
(** ** objects/koifish.ts *)

Module koifish.
Import KoiFish.
Local Open Scope R_scope.
Local Open Scope eff_scope.

Definition maxRotationAnglePerSecond : R := 18.
Definition maxSpeedChangePerSecond : R := 15 / 10.
Definition canvasExitDistance : R := -20.
Definition LEFT_SIDE : string := "left".
Definition RIGHT_SIDE : string := "right".

Definition getThis (self : ObjectId) : Eff World KoiFish.t := gets (λ w, koiFish w self).

(** the fish as an [EnvironmentObject] *)
Definition asObject (this : KoiFish.t) : EnvironmentObject.t :=
  EnvironmentObject.mk (KoiFish.position this) (KoiFish.id this).

Definition handleOutOfBounds (self : ObjectId) : Eff World unit :=
  let* newPosition := canvasUtil.getRandomEdgePoint (8 / 10 * Rabs canvasExitDistance) in
  updateKoiFish self (set_position newPosition) >>
  let* c := gets canvas in
  let* newTarget := liftRuntime (Point.getRandomPoint c (8 / 10)) in
  updateKoiFish self (set_targetPoint (OwnPoint newTarget)) >>
  let* newDirection := liftResult (Point.getDirectionTo newPosition newTarget) in
  updateKoiFish self (set_direction newDirection).

(** the [while] loop of [setNewRandomTargetPoint]; it has no bound in the
    source, [fuel] bounds the number of iterations here *)
Fixpoint whileTooClose (fuel : nat) (c : Canvas) (position newTargetPoint : Point.t)
    (distanceToNewTargetPoint : R) : Eff Runtime Point.t :=
  if Rlt_dec distanceToNewTargetPoint 300 then
    match fuel with
    | O => λ rt, (OutOfFuel, rt)
    | S fuel =>
        let* newTargetPoint := Point.getRandomPoint c (9 / 10) in
        let distanceToNewTargetPoint := Point.getDistanceTo position newTargetPoint in
        whileTooClose fuel c position newTargetPoint distanceToNewTargetPoint
    end
  else ret newTargetPoint.

Definition setNewRandomTargetPoint (fuel : nat) (self : ObjectId) : Eff World unit :=
  let* this := getThis self in
  let* c := gets canvas in
  let* newTargetPoint :=
    liftRuntime (whileTooClose fuel c (position this) (position this) 0) in
  updateKoiFish self (set_targetPoint (OwnPoint newTargetPoint)).

(** the angle to the target point, as [smoothenDirectionChange] computes it *)
Definition desiredAngleChange (w : World) (this : KoiFish.t) : R :=
  let targetVector := Point.getVectorTo (position this) (deref w (targetPoint this)) in
  Vector.signedAngleBetween (direction this) targetVector.

Definition finalAngleChange (maxRotationAngle desiredAngleChange turnMultiplier : R) : R :=
  Rmin maxRotationAngle (Rabs desiredAngleChange) * Js.sign desiredAngleChange * turnMultiplier.

Definition smoothenDirectionChange (self : ObjectId) : Eff World unit :=
  let* this := getThis self in
  let* secondsSinceLastUpdate :=
    liftRuntime (timeUtil.getElapsedSeconds (lastUpdateTime this)) in
  let maxRotationAngle := maxRotationAnglePerSecond * secondsSinceLastUpdate in
  let* desiredAngleChange := gets (λ w, desiredAngleChange w this) in
  let finalAngleChange :=
    finalAngleChange maxRotationAngle desiredAngleChange (turnMultiplier this) in
  (* Prevent small micro-adjustments *)
  if Rgt_dec (Rabs desiredAngleChange) 2 then
    updateKoiFish self (λ k,
      set_direction (snd (Vector.rotateVector (direction k) finalAngleChange true)) k)
  else ret tt.

Definition smoothenSpeedChange (self : ObjectId) : Eff World unit :=
  let* this := getThis self in
  let* secondsSinceLastUpdate :=
    liftRuntime (timeUtil.getElapsedSeconds (lastUpdateTime this)) in
  let maxSpeedChange := maxSpeedChangePerSecond * secondsSinceLastUpdate in
  let speedDifference := speed this - previousSpeed this in
  if Rgt_dec (Rabs speedDifference) maxSpeedChange then
    updateKoiFish self (λ k,
      set_speed (previousSpeed k + Js.sign speedDifference * maxSpeedChange) k)
  else ret tt.

Definition newFollowPoint (this : KoiFish.t) (followAngle followDistance : R) : Point.t :=
  fst (Point.rotateAround
         (fst (Point.applyVector (position this)
                 (fst (Vector.scale (fst (Vector.rotateVector Vector.UP followAngle false))
                                    followDistance false))
                 false))
         (position this) (Vector.getAngle (direction this)) false).

Definition updateFollowPoints (self : ObjectId) : Eff World unit :=
  let* followDistance := gets (λ w, fish_followDistance (config w)) in
  let* this := getThis self in
  let newLeftFollowPoint := newFollowPoint this (leftFollowAngle this) followDistance in
  let newRightFollowPoint := newFollowPoint this (rightFollowAngle this) followDistance in
  (* mutations: other fish may hold references to these points *)
  updateKoiFish self (λ k,
    set_leftFollowPoint (Point.mutate (leftFollowPoint k) newLeftFollowPoint) k) >>
  updateKoiFish self (λ k,
    set_rightFollowPoint (Point.mutate (rightFollowPoint k) newRightFollowPoint) k).

(** Pair a leader together with a follower.  [side] is [undefined] when
    [getRandomItem] read outside its array. *)
Definition setLeaderFollower (leader follower : ObjectId) (side : option string)
    : Eff World unit :=
  updateKoiFish follower (set_leaderKoiFish (Some leader)) >>
  if decide (side = Some LEFT_SIDE) then
    updateKoiFish leader (set_leftFollower (Some follower)) >>
    updateKoiFish follower (set_targetPoint (LeftFollowPointOf leader))
  else
    updateKoiFish leader (set_rightFollower (Some follower)) >>
    updateKoiFish follower (set_targetPoint (RightFollowPointOf leader)).

(** Unpair a leader and follower *)
Definition unsetLeaderFollower (leader follower : ObjectId) : Eff World unit :=
  let* l := getThis leader in
  (if decide (leftFollower l = Some follower) then
     updateKoiFish leader (set_leftFollower None)
   else
     updateKoiFish leader (set_rightFollower None)) >>
  updateKoiFish follower (set_leaderKoiFish None).

Definition getAvailableFollowPositions (this : KoiFish.t) : list string :=
  let output := [] in
  let output := if leftFollower this is None then output ++ [LEFT_SIDE] else output in
  let output := if rightFollower this is None then output ++ [RIGHT_SIDE] else output in
  output.

(** the scan of [checkAndSetFoodBehavior] over the nearby food; the
    accumulator is [(closestFood, closestDistance)], [None] standing for
    [(undefined, Infinity)] *)
Definition closerFood (w : World) (this : KoiFish.t)
    (closest : option (ObjectId * R)) (nearbyFood : ObjectId) : option (ObjectId * R) :=
  if Food.isEaten (food w nearbyFood) then closest
  else
    let distanceToFood :=
      Point.getDistanceTo (position this) (Food.position (food w nearbyFood)) in
    match closest with
    | None => Some (nearbyFood, distanceToFood)
    | Some (_, closestDistance) =>
        if Rlt_dec distanceToFood closestDistance
        then Some (nearbyFood, distanceToFood) else closest
    end.

(** [checkAndSetFoodBehavior], first part: the desired food is eaten when
    it is reached or gone *)
Definition eatDesiredFood (self : ObjectId) : Eff World unit :=
  let* this := getThis self in
  match desiredFood this with
  | Some desired =>
      (* check to see if food still exists *)
      let* foodStillExists := gets (λ w, bool_decide (desired ∈ foodMap w)) in
      let* distanceToFood :=
        gets (λ w, Point.getDistanceTo (position this) (Food.position (food w desired))) in
      (* eat the food *)
      if Js.ltb distanceToFood 20 || negb foodStillExists then
        food.onEaten desired >>
        updateKoiFish self (set_desiredFood None)
      else ret tt
  | None => ret tt
  end.

(** second part: the scan for the closest food nearby that is not eaten *)
Definition findClosestFood (self : ObjectId) : Eff World (option (ObjectId * R)) :=
  let* this := getThis self in
  let* nearbyFoodList := ObjectManager.getNearbyObjects (asObject this) FoodClass 5 in
  gets (λ w, foldl (closerFood w this) None nearbyFoodList).

(** third part, when there is such a food: start chasing it *)
Definition chaseFood (self closestFood : ObjectId) : Eff World unit :=
  let* this := getThis self in
  (* Start chasing food, ignore leader *)
  (match leaderKoiFish this with
   | Some leader => unsetLeaderFollower leader self
   | None => ret tt
   end) >>
  updateKoiFish self (set_desiredFood (Some closestFood)) >>
  updateKoiFish self (set_targetPoint (PositionOfFood closestFood)) >>
  let* this := getThis self in
  let* target := gets (λ w, deref w (targetPoint this)) in
  let targetVector := Point.getVectorTo (position this) target in
  let* targetDirection := liftResult (Vector.normalize targetVector false) in
  let targetDistance := Vector.getMagnitude targetVector in
  let desiredAngleChange :=
    Vector.signedAngleBetween (direction this) (fst targetDirection) in
  (if Js.ltb targetDistance 50 && Js.gtb (Rabs desiredAngleChange) 30 then
     (* close by, need to slow down and hard turn *)
     updateKoiFish self (λ k, set_speed (baseSpeed k * (5 / 10)) k) >>
     updateKoiFish self (set_turnMultiplier 4)
   else if Js.ltb (Rabs desiredAngleChange) 30 then
     updateKoiFish self (λ k, set_speed (baseSpeed k * 5) k) >>
     updateKoiFish self (set_turnMultiplier 1)
   else
     updateKoiFish self (λ k, set_speed (baseSpeed k * 4) k) >>
     updateKoiFish self (set_turnMultiplier 2)) >>
  updateKoiFish self (λ k,
    set_tailAngleOscillator (Oscillator.setSpeedFactor (tailAngleOscillator k) 2) k) >>
  updateKoiFish self (λ k,
    set_finAngleOscillator (Oscillator.setSpeedFactor (finAngleOscillator k) 2) k).

Definition checkAndSetFoodBehavior (self : ObjectId) : Eff World unit :=
  eatDesiredFood self >>
  let* closest := findClosestFood self in
  match closest with
  | Some (closestFood, _) => chaseFood self closestFood
  | None =>
      updateKoiFish self (λ k,
        set_tailAngleOscillator (Oscillator.setSpeedFactor (tailAngleOscillator k) 1) k) >>
      updateKoiFish self (λ k,
        set_finAngleOscillator (Oscillator.setSpeedFactor (finAngleOscillator k) 1) k)
  end.

(** the four filters on the nearby fish *)
Definition isPotentialLeader (w : World) (this : KoiFish.t) (candidate : ObjectId) : bool :=
  let potentialLeader := koiFish w candidate in
  (* leader must be at least 10% bigger *)
  Js.gtb (size potentialLeader) (size this * (11 / 10))
  (* must have at least one available follow position *)
  && negb (bool_decide (length (getAvailableFollowPositions potentialLeader) = 0%nat))
  (* going in the same general direction *)
  && Js.ltb (Rabs (Vector.signedAngleBetween (direction this) (direction potentialLeader))) 60
  (* somewhat in front of the fish *)
  && Js.ltb (Rabs (Vector.signedAngleBetween (direction this)
                     (Point.getVectorTo (position this) (position potentialLeader)))) 60.

(** only to be run if the fish is not chasing food *)
Definition checkAndSetFollowBehavior (fuel : nat) (self : ObjectId) : Eff World unit :=
  let* this := getThis self in
  match desiredFood this, leaderKoiFish this with
  | Some _, Some leader => unsetLeaderFollower leader self
  | _, None =>
      (* No current leader: check to see if there is a nearby leader to follow *)
      let* nearbyKoiFishList :=
        ObjectManager.getNearbyObjects (asObject this) KoiFishClass 1 in
      let* potentialLeaders :=
        gets (λ w, filter (λ c, isPotentialLeader w this c = true) nearbyKoiFishList) in
      if decide (length potentialLeaders = 0%nat) then ret tt
      else
        let* newLeader := liftRuntime (randomUtil.getRandomItem potentialLeaders) in
        match newLeader with
        | None => throw "TypeError: newLeader is undefined"
        | Some newLeader =>
            let* availableFollowPositions :=
              gets (λ w, getAvailableFollowPositions (koiFish w newLeader)) in
            let* followSide :=
              liftRuntime (randomUtil.getRandomItem availableFollowPositions) in
            setLeaderFollower newLeader self followSide >>
            let* now := liftRuntime Date_now in
            updateKoiFish self (set_followTime now)
        end
  | None, Some leader =>
      (* Is following a leader *)
      let* followedFor := liftRuntime (timeUtil.getElapsedSeconds (followTime this)) in
      (* Break follow after some time *)
      if Rgt_dec followedFor 180 then
        unsetLeaderFollower leader self >>
        setNewRandomTargetPoint fuel self
      else
        (* Is tracking a leader's followpoint *)
        let* target := gets (λ w, deref w (targetPoint this)) in
        let distanceToLeader := Point.getDistanceTo (position this) target in
        if Rgt_dec distanceToLeader 100 then
          (* unfollow current leader *)
          updateKoiFish self (λ k, set_speed (baseSpeed k) k) >>
          unsetLeaderFollower leader self >>
          setNewRandomTargetPoint fuel self
        else
          let* leaderSpeed := gets (λ w, speed (koiFish w leader)) in
          let* leaderDirection := gets (λ w, direction (koiFish w leader)) in
          let vectorToTargetPoint := Point.getVectorTo (position this) target in
          let angleToTargetPoint :=
            Vector.signedAngleBetween (direction this) vectorToTargetPoint in
          let distanceToTargetPoint := Vector.getMagnitude vectorToTargetPoint in
          if Js.ltb (Rabs angleToTargetPoint) 30 && Js.gtb distanceToTargetPoint 20 then
            updateKoiFish self (set_speed (12 / 10 * leaderSpeed))
          else if Js.gtb (Rabs angleToTargetPoint) 90 && Js.ltb distanceToTargetPoint 50 then
            updateKoiFish self (set_speed (4 / 10 * leaderSpeed))
          else if Js.ltb (Rabs (Vector.signedAngleBetween (direction this) leaderDirection)) 30
                  && Js.ltb distanceToTargetPoint 20 then
            (* Following nicely, match the speed of the leader *)
            updateKoiFish self (set_speed leaderSpeed) >>
            (* prevent sudden movements *)
            updateKoiFish self (set_turnMultiplier (5 / 10))
          else ret tt
  end.

Definition standardBehavior (fuel : nat) (self : ObjectId) : Eff World unit :=
  let* this := getThis self in
  let* target := gets (λ w, deref w (targetPoint this)) in
  let targetVector := Point.getVectorTo (position this) target in
  (if Rlt_dec (Vector.getMagnitude targetVector) 50
   then setNewRandomTargetPoint fuel self else ret tt) >>
  let* targetDirection := liftResult (Vector.normalize targetVector false) in
  let targetDistance := Vector.getMagnitude targetVector in
  let desiredAngleChange :=
    Vector.signedAngleBetween (direction this) (fst targetDirection) in
  (* distance to the target, relative to the size of the canvas *)
  let* diagonal := gets canvasDiagonalLength in
  let distanceProportion := targetDistance / diagonal in
  (* closer allow sharper turn, farther allow more lazy turn *)
  updateKoiFish self (λ k,
    set_turnMultiplier (turnMultiplier k * Rmax (1 - distanceProportion) (5 / 10)) k) >>
  if Js.gtb distanceProportion (1 / 10) && Js.ltb (Rabs desiredAngleChange) 45 then
    updateKoiFish self (λ k, set_turnMultiplier (turnMultiplier k * (3 / 10)) k)
  else ret tt.

(** the behaviour selection of [update], up to the smoothing *)
Definition selectBehavior (fuel : nat) (self : ObjectId) : Eff World unit :=
  checkAndSetFoodBehavior self >>
  (* Only evaluate leader/follower logic if there is no target food. *)
  (let* this := getThis self in
   if desiredFood this is None then checkAndSetFollowBehavior fuel self else ret tt) >>
  (let* this := getThis self in
   match desiredFood this, leaderKoiFish this with
   | None, None => standardBehavior fuel self
   | _, _ => ret tt
   end).

(** the integration step of [update], after the smoothing *)
Definition move (self : ObjectId) : Eff World unit :=
  let* this := getThis self in
  let* elapsed := liftRuntime (timeUtil.getElapsedSeconds (lastUpdateTime this)) in
  updateKoiFish self (λ k,
    set_position
      (snd (Point.applyVector (position k)
              (fst (Vector.scale (direction k) (speed k * elapsed) false)) true)) k) >>
  (* Update the fish's follow points *)
  updateFollowPoints self >>
  (* Update the last update time after moving *)
  let* now := liftRuntime Date_now in
  updateKoiFish self (set_lastUpdateTime now).

(** the first statements of [update] *)
Definition startUpdate (self : ObjectId) : Eff World unit :=
  (* Keep track of the previous speed, to prevent sudden speed changes *)
  updateKoiFish self (λ k, set_previousSpeed (speed k) k) >>
  (* Start with base values, allow behaviors to modify them *)
  updateKoiFish self (λ k, set_speed (baseSpeed k) k) >>
  updateKoiFish self (set_turnMultiplier 1).

(** [update].  The test [!this.targetPoint] of the source never holds:
    the field always refers to a [Point]. *)
Definition update (fuel : nat) (self : ObjectId) : Eff World unit :=
  startUpdate self >>
  let* this := getThis self in
  let* c := gets canvas in
  if Rlt_dec (canvasUtil.getDistanceToCanvasBorder c (position this)) canvasExitDistance
  then handleOutOfBounds self
  else
    selectBehavior fuel self >>
    (* smoothen behavior-induced speed/direction changes *)
    smoothenDirectionChange self >>
    smoothenSpeedChange self >>
    move self.
End koifish.

(* ================================================================= *)
(** ** The neighbourhood of a cell, in the words of the specification *)

(** "all cell indices within a [range]-cell Chebyshev radius that lie
    within grid bounds (no wraparound)", around the cell ([cellX], [cellY])
    of a grid of [numCellsX] columns and [numCellsY] rows whose cell (x, y)
    has index [y * numCellsX + x] *)
Definition withinRangeOfCell (numCellsX numCellsY cellX cellY range : Z) (k : Z) : Prop :=
  ∃ x y : Z,
    (0 ≤ x < numCellsX)%Z ∧ (0 ≤ y < numCellsY)%Z
    ∧ k = (y * numCellsX + x)%Z
    ∧ (Z.abs (x - cellX) ≤ range)%Z
    ∧ (Z.abs (y - cellY) ≤ range)%Z.

(** the same around the cell of a given index *)
Definition neighborsOf (numCellsX numCellsY cellIndex range : Z) (k : Z) : Prop :=
  withinRangeOfCell numCellsX numCellsY
    (cellIndex `mod` numCellsX) (cellIndex `div` numCellsX) range k.

(* ================================================================= *)
(** ** A scene to run the code on *)

Module scene.
Local Open Scope R_scope.

Definition oscillator : Oscillator.t := Oscillator.mk 10 3 0 0 (-10) 10 0 0 1.

(** a fish of the given id, at rest at a position, heading up *)
Definition fish (id : ObjectId) (position : Point.t) : KoiFish.t :=
  KoiFish.mk id (8 / 10) position Vector.UP 18 18 18 1 (OwnPoint (Point.mk 500 250)) 0
             oscillator oscillator None 210 150 position position None None 0 None.

Definition pellet (id : ObjectId) (position : Point.t) : Food.t :=
  Food.mk id position (Vector.mk 1 0) 15 [] 0 1 false.

Definition swell (id : ObjectId) (position : Point.t) : Wave.t :=
  Wave.mk id position (Vector.mk 1 0) 0 10 60 "rgba(29, 88, 140, 0.3)".

(** the first clock reading is 8 ms and the clock advances by 8 ms per
    reading; every random draw is 1/2 *)
Definition runtime : Runtime := mkRuntime (λ n, 8 * (INR n + 1)) 0 (λ _, 1 / 2) 0.

(** no objects yet, no canvas yet *)
Definition blank : World :=
  mkWorld runtime (mkConfig 50 true (2 / 10)) (mkCanvas 0 0) 0 0 0 ∅
          (λ id, fish id (Point.mk 0 0)) (λ id, pellet id (Point.mk 0 0))
          (λ id, swell id (Point.mk 0 0)) ∅ ∅ ∅ [].

(** the page loaded in a window of 1000 x 500 *)
Definition loaded : World := snd (canvasUtil.setupCanvas 1000 500 blank).

(** A pond of 1000 x 500 (20 x 10 cells): the fish "koi" at (100, 100),
    heading up, and in its cell (column 2, row 2, index 42) the pellets "f",
    10 units ahead, and "g", 40 units ahead.  [desired] is the food the fish
    is after when the frame starts. *)
Definition pond (desired : option ObjectId) : World :=
  mkWorld runtime (mkConfig 50 true (2 / 10)) (mkCanvas 1000 500)
          (sqrt (1000 ^ 2 + 500 ^ 2)) 20 10 ∅
          (λ id, KoiFish.set_desiredFood desired (fish id (Point.mk 100 100)))
          (λ id, if decide (id = "f") then pellet id (Point.mk 100 110)
                 else pellet id (Point.mk 100 140))
          (λ id, swell id (Point.mk 0 0))
          {[ "f"; "g" ]} ∅
          {[ 42%Z := [mkRef KoiFishClass "koi"; mkRef FoodClass "f"; mkRef FoodClass "g"] ]}
          [].

(** A shoal in the same pond: the fish "koi" follows the bigger fish "big"
    in its left slot, and has drifted 30 units beyond the left border. *)
Definition follower : KoiFish.t :=
  KoiFish.set_leaderKoiFish (Some "big")
    (KoiFish.set_targetPoint (LeftFollowPointOf "big") (fish "koi" (Point.mk (-30) 250))).

Definition leader : KoiFish.t :=
  KoiFish.set_leftFollower (Some "koi")
    (KoiFish.mk "big" 1 (Point.mk 20 250) Vector.UP 15 15 15 1 (OwnPoint (Point.mk 500 250)) 0
                oscillator oscillator None 210 150 (Point.mk (-5) 207) (Point.mk 45 207)
                None None 0 None).

Definition shoal : World :=
  mkWorld runtime (mkConfig 50 true (2 / 10)) (mkCanvas 1000 500)
          (sqrt (1000 ^ 2 + 500 ^ 2)) 20 10 ∅
          (λ id, if decide (id = "koi") then follower
                 else if decide (id = "big") then leader
                 else fish id (Point.mk 500 250))
          (λ id, pellet id (Point.mk 0 0))
          (λ id, swell id (Point.mk 0 0))
          ∅ ∅ ∅ [].

(** A river: the wave "w1" drifts to the right along y = -600, beyond the
    500-unit margin under the canvas.  The third random draw of the frame
    is [third], the others are 1/2. *)
Definition river (third : R) : World :=
  mkWorld (mkRuntime (λ n, 8 * (INR n + 1)) 0
                     (λ n, if decide (n = 2%nat) then third else 1 / 2) 0)
          (mkConfig 50 true (2 / 10)) (mkCanvas 1000 500)
          (sqrt (1000 ^ 2 + 500 ^ 2)) 20 10 ∅
          (λ id, fish id (Point.mk 500 250))
          (λ id, pellet id (Point.mk 0 0))
          (λ id, swell id (Point.mk 100 (-600)))
          ∅ {[ "w1" ]} ∅ [].



(** A reef of 1000 x 530 (20 x 11 cells).  The fish "koi" has drifted 30
    units out of the canvas, at (500, -30); its [lastUpdateTime] is 0 ms.
    The pellet "f" lies at (540, 506).  The clock reads
    1000 ms now and advances by 16 ms per reading; the first random draw is
    0, the others are 1/2. *)
Definition reef : World :=
  mkWorld (mkRuntime (λ n, 1000 + 16 * INR n) 0
                     (λ n, if decide (n = 0%nat) then 0 else 1 / 2) 0)
          (mkConfig 50 true (2 / 10)) (mkCanvas 1000 530)
          (sqrt (1000 ^ 2 + 530 ^ 2)) 20 11 ∅
          (λ id, fish id (Point.mk 500 (-30)))
          (λ id, pellet id (Point.mk 540 506))
          (λ id, swell id (Point.mk 0 0))
          {[ "f" ]} ∅
          (<[ 210%Z := [mkRef FoodClass "f"] ]> {[ (-10)%Z := [mkRef KoiFishClass "koi"] ]})
          [].
End scene.

(* ================================================================= *)
(* ================================================================= *)
(** * Properties *)

(** ** Reasoning about effectful code *)

Section eff_facts.
Context {S : Type}.

Lemma bind_returned {A B} (m : Eff S A) (k : A → Eff S B) s a s' :
  m s = (Returned a, s') → bind m k s = k a s'.
Proof. intros H. unfold bind. by rewrite H. Qed.

Lemma bind_threw {A B} (m : Eff S A) (k : A → Eff S B) s msg s' :
  m s = (Threw msg, s') → bind m k s = (Threw msg, s').
Proof. intros H. unfold bind. by rewrite H. Qed.

Lemma bind_ret_l {A B} (a : A) (k : A → Eff S B) s : bind (ret a) k s = k a s.
Proof. reflexivity. Qed.

Lemma bind_gets {A B} (f : S → A) (k : A → Eff S B) s : bind (gets f) k s = k (f s) s.
Proof. reflexivity. Qed.

Lemma bind_modify {B} (f : S → S) (k : unit → Eff S B) s :
  bind (modify f) k s = k tt (f s).
Proof. reflexivity. Qed.
End eff_facts.

(* ================================================================= *)
(** ** The draw manager (C1) *)

Section draw_manager_facts.
Import DrawManager.
Context {Callback : Type}.
Implicit Types (calls : list (DrawLayer * Callback)) (m : DrawManager.t Callback).

Lemma layerDrawOrder_eq : layerDrawOrder = executedOrder.
Proof. reflexivity. Qed.

Lemma scheduleDraw_lookup layer cb m l :
  default [] (scheduledDraws (scheduleDraw layer cb m) !! l)
  = default [] (scheduledDraws m !! l) ++ (if decide (layer = l) then [cb] else []).
Proof.
  unfold scheduleDraw; simpl. destruct (decide (layer = l)) as [->|Hne].
  - by rewrite lookup_insert_eq.
  - rewrite lookup_insert_ne by done. by rewrite app_nil_r.
Qed.

Lemma scheduleAll_lookup calls m l :
  default [] (scheduledDraws (scheduleAll calls m) !! l)
  = default [] (scheduledDraws m !! l) ++ scheduledAt calls l.
Proof.
  revert m. induction calls as [|[layer cb] calls IH]; intros m.
  - by rewrite app_nil_r.
  - unfold scheduleAll in *. simpl. rewrite IH, scheduleDraw_lookup.
    rewrite <- app_assoc. f_equal. unfold scheduledAt.
    rewrite filter_cons. simpl. by destruct (decide (layer = l)).
Qed.

Lemma executed_in_order calls :
  fst (frame calls) = flat_map (scheduledAt calls) layerDrawOrder.
Proof.
  unfold frame, executeScheduledDraws. cbn [fst].
  generalize layerDrawOrder as layers. intros layers.
  induction layers as [|l ls IH]; [done|]. simpl. rewrite IH.
  f_equal. by rewrite scheduleAll_lookup.
Qed.
End draw_manager_facts.

(** C1, as amended.  For every sequence of [scheduleDraw] calls followed by
    one flush, the scheduled operations are executed layer by layer in the
    order fish, lantern-shadow, ripple, water-surface, wave, petal, food,
    lantern and last the debug layer (the enum, declared "top to bottom",
    reversed); within a layer in scheduling order; and the schedule is empty
    after the flush. *)
Theorem C1_flush_runs_layers_in_reverse_enum_order :
  ∀ (Callback : Type) (calls : list (DrawManager.DrawLayer * Callback)),
    DrawManager.frame calls
    = (flat_map (DrawManager.scheduledAt calls)
         [DrawManager.FISH; DrawManager.LANTERN_SHADOW; DrawManager.RIPPLE;
          DrawManager.WATER_SURFACE; DrawManager.WAVE; DrawManager.PETAL;
          DrawManager.FOOD; DrawManager.LANTERN; DrawManager.DEV],
       DrawManager.new)
    ∧ DrawManager.scheduledDraws (snd (DrawManager.frame calls)) = ∅.
Proof.
  intros Callback calls. split; [|reflexivity].
  rewrite (surjective_pairing (DrawManager.frame calls)).
  rewrite executed_in_order, layerDrawOrder_eq. reflexivity.
Qed.

(** C1, as stated, fails: with one operation on the debug layer, one on
    the lantern layer and one on the fish layer, the flush runs the fish
    operation first and the debug operation last, where the claim has the
    debug operation first and the fish operation last. *)
Lemma C1_counterexample :
  let calls := [(DrawManager.DEV, 0%nat); (DrawManager.LANTERN, 1%nat); (DrawManager.FISH, 2%nat)] in
  fst (DrawManager.frame calls) = [2%nat; 1%nat; 0%nat]
  ∧ flat_map (DrawManager.scheduledAt calls) DrawManager.specifiedOrder = [0%nat; 1%nat; 2%nat]
  ∧ fst (DrawManager.frame calls)
    ≠ flat_map (DrawManager.scheduledAt calls) DrawManager.specifiedOrder.
Proof.
  intros calls.
  assert (H1 : fst (DrawManager.frame calls) = [2%nat; 1%nat; 0%nat]).
  { rewrite executed_in_order, layerDrawOrder_eq. reflexivity. }
  assert (H2 : flat_map (DrawManager.scheduledAt calls) DrawManager.specifiedOrder
               = [0%nat; 1%nat; 2%nat]) by reflexivity.
  split; [exact H1|]. split; [exact H2|]. rewrite H1, H2. discriminate.
Qed.

(* ================================================================= *)
(** ** The ripple's opacity (C6) *)

Section ripple_facts.
Local Open Scope R_scope.
Import Ripple.

Lemma getOpacity_run cfg this rt :
  fst (getOpacity cfg this rt)
  = Returned (opacityAt cfg (timeUtil.elapsedSeconds (clock rt (ticks rt)) (generationTime this))).
Proof. reflexivity. Qed.

Lemma opacityAt_rising cfg t :
  t < 15 / 10 → opacityAt cfg t = ripple_maxOpacity cfg * (t / (15 / 10)).
Proof.
  intros Ht. unfold opacityAt, peakOpacityTime, numberUtil.scaleToRange.
  destruct (Rlt_dec t (15 / 10)); [lra | contradiction].
Qed.

Lemma opacityAt_falling cfg t :
  15 / 10 <= t → opacityAt cfg t = ripple_maxOpacity cfg * ((5 - t) / (35 / 10)).
Proof.
  intros Ht. unfold opacityAt, peakOpacityTime, lifeTime, numberUtil.scaleToRange.
  destruct (Rlt_dec t (15 / 10)); [lra | field].
Qed.

Lemma opacityAt_mono_rising cfg s t :
  0 <= ripple_maxOpacity cfg → s <= t → t <= 15 / 10 → opacityAt cfg s <= opacityAt cfg t.
Proof.
  intros Hm Hst Ht.
  destruct (Rlt_dec t (15 / 10)) as [Hlt|Hge].
  - rewrite !opacityAt_rising by lra. nra.
  - assert (t = 15 / 10) as -> by lra.
    rewrite (opacityAt_falling cfg (15 / 10)) by lra.
    destruct (Rlt_dec s (15 / 10)).
    + rewrite opacityAt_rising by lra. nra.
    + rewrite opacityAt_falling by lra. nra.
Qed.

Lemma opacityAt_mono_falling cfg s t :
  0 <= ripple_maxOpacity cfg → 15 / 10 <= s → s <= t → opacityAt cfg t <= opacityAt cfg s.
Proof. intros Hm Hs Hst. rewrite !opacityAt_falling by lra. nra. Qed.
End ripple_facts.

(** C6.  For a ripple with [maxOpacity >= 0], [getOpacity] is a function of
    the elapsed life [t] of the ripple, the seconds between its generation
    time and the clock reading of the call, [(now - generationTime) / 1000]:
    it is 0 at [t = 0], rises linearly and monotonically to [maxOpacity] at
    [t = 1.5], and falls linearly and monotonically back to 0 at [t = 5];
    the rise and the fall are strict when [maxOpacity > 0]. *)
Theorem C6_ripple_opacity_profile :
  ∀ (cfg : Config) (this : Ripple.t) (rt1 rt2 : Runtime),
    (0 <= ripple_maxOpacity cfg)%R →
    let t1 := ((clock rt1 (ticks rt1) - Ripple.generationTime this) / 1000)%R in
    let t2 := ((clock rt2 (ticks rt2) - Ripple.generationTime this) / 1000)%R in
    ∃ v1 v2 : R,
      fst (Ripple.getOpacity cfg this rt1) = Returned v1
      ∧ fst (Ripple.getOpacity cfg this rt2) = Returned v2
      ∧ (t1 = 0 → v1 = 0)%R
      ∧ (t1 = 15 / 10 → v1 = ripple_maxOpacity cfg)%R
      ∧ (t1 = 5 → v1 = 0)%R
      ∧ (0 <= t1 → t1 < 15 / 10 → v1 = ripple_maxOpacity cfg * (t1 / (15 / 10)))%R
      ∧ (15 / 10 <= t1 → t1 <= 5 → v1 = ripple_maxOpacity cfg * ((5 - t1) / (35 / 10)))%R
      ∧ (0 <= t1 → t1 <= t2 → t2 <= 15 / 10 → v1 <= v2)%R
      ∧ (15 / 10 <= t1 → t1 <= t2 → t2 <= 5 → v2 <= v1)%R
      ∧ (0 < ripple_maxOpacity cfg → 0 <= t1 → t1 < t2 → t2 <= 15 / 10 → v1 < v2)%R
      ∧ (0 < ripple_maxOpacity cfg → 15 / 10 <= t1 → t1 < t2 → t2 <= 5 → v2 < v1)%R.
Proof.
  intros cfg this rt1 rt2 Hm t1 t2.
  exists (Ripple.opacityAt cfg t1), (Ripple.opacityAt cfg t2).
  split; [apply getOpacity_run|]. split; [apply getOpacity_run|].
  split; [intros ->; rewrite opacityAt_rising by lra; lra|].
  split; [intros ->; rewrite opacityAt_falling by lra; field|].
  split; [intros ->; rewrite opacityAt_falling by lra; lra|].
  split; [intros _ H; by apply opacityAt_rising|].
  split; [intros H _; by apply opacityAt_falling|].
  split; [intros _ H1 H2; by apply opacityAt_mono_rising|].
  split; [intros H1 H2 _; by apply opacityAt_mono_falling|].
  split.
  - intros Hpos H0 Hlt Hle.
    rewrite (opacityAt_rising cfg t1) by lra.
    destruct (Rlt_dec t2 (15 / 10)) as [H2|H2].
    + rewrite (opacityAt_rising cfg t2) by lra. nra.
    + rewrite (opacityAt_falling cfg t2) by lra. nra.
  - intros Hpos H1 Hlt Hle. rewrite !opacityAt_falling by lra. nra.
Qed.

(** a ripple generated at clock reading 0 with the configured opacity 0.2:
    read after 1 s its opacity is 2/15, read after 1.2 s it is 4/25 *)
Lemma C6_witness :
  let cfg := mkConfig 50 true (2 / 10) in
  let this := Ripple.mk "r" (Point.mk 0 0) (Vector.mk 0 1) 0 10 0 40 0 in
  let rt1 := mkRuntime (λ _, 1000%R) 0 (λ _, 0%R) 0 in
  let rt2 := mkRuntime (λ _, 1200%R) 0 (λ _, 0%R) 0 in
  (0 <= ripple_maxOpacity cfg)%R
  ∧ ∃ v1 v2 : R,
      fst (Ripple.getOpacity cfg this rt1) = Returned v1
      ∧ fst (Ripple.getOpacity cfg this rt2) = Returned v2
      ∧ v1 = (2 / 15)%R ∧ v2 = (4 / 25)%R ∧ (v1 < v2)%R.
Proof.
  intros cfg this rt1 rt2.
  assert (Hm : (0 <= ripple_maxOpacity cfg)%R) by (simpl; lra).
  split; [exact Hm|].
  destruct (C6_ripple_opacity_profile cfg this rt1 rt2 Hm)
    as (v1 & v2 & H1 & H2 & _ & _ & _ & Hrise & _ & _ & _ & Hup & _).
  destruct (C6_ripple_opacity_profile cfg this rt2 rt1 Hm)
    as (v2' & _ & H2' & _ & _ & _ & _ & Hrise2 & _).
  assert (Hv : v2' = v2) by congruence. subst v2'.
  exists v1, v2. split; [exact H1|]. split; [exact H2|].
  assert (Hv1 : v1 = (2 / 15)%R) by (rewrite Hrise; simpl; lra).
  assert (Hv2 : v2 = (4 / 25)%R) by (rewrite Hrise2; simpl; lra).
  split; [exact Hv1|]. split; [exact Hv2|]. lra.
Defined.

(* ================================================================= *)
(** ** The oscillator (C5) *)

Section oscillator_facts.
Local Open Scope R_scope.
Import Oscillator.

(** what the constructor establishes and every method keeps *)
Definition centred (o : Oscillator.t) : Prop :=
  amplitude o = (max o - min o) / 2 ∧ min o <= max o.

Lemma new_run lo hi p rt :
  ∃ o rt', new lo hi p rt = (Returned o, rt') ∧ min o = lo ∧ max o = hi
           ∧ amplitude o = (hi - lo) / 2.
Proof. eexists _, _. split; [reflexivity|]. by simpl. Qed.

Lemma setSpeedFactor_centred o f : centred o → centred (setSpeedFactor o f).
Proof. by intros [? ?]. Qed.

Lemma getValue_run o rt :
  ∃ v o' rt', getValue o rt = (Returned (v, o'), rt')
    ∧ min o' = min o ∧ max o' = max o ∧ amplitude o' = amplitude o
    ∧ ∃ φ, v = min o + amplitude o + amplitude o * sin φ.
Proof.
  eexists _, _, _. split; [reflexivity|]. simpl.
  repeat split. eexists. reflexivity.
Qed.

Lemma in_range_of_sin lo hi φ :
  lo <= hi → lo <= lo + (hi - lo) / 2 + (hi - lo) / 2 * sin φ <= hi.
Proof. intros H. pose proof (SIN_bound φ) as [? ?]. split; nra. Qed.

Lemma run_in_range calls : ∀ o rt,
  centred o →
  ∃ vs rt', run o calls rt = (Returned vs, rt')
            ∧ Forall (λ v, min o <= v <= max o) vs.
Proof.
  induction calls as [|c calls IH]; intros o rt Ho.
  - eexists _, _. split; [reflexivity|]. constructor.
  - destruct c as [|f].
    + destruct (getValue_run o rt) as (v & o' & rt' & Hg & Hmin & Hmax & Ham & φ & Hv).
      assert (Ho' : centred o') by (destruct Ho; split; congruence).
      destruct (IH o' rt' Ho') as (vs & rt'' & Hr & Hvs).
      exists (v :: vs), rt''. split.
      * simpl. erewrite bind_returned by exact Hg. simpl.
        erewrite bind_returned by exact Hr. reflexivity.
      * constructor.
        -- destruct Ho as [Ha Hle]. rewrite Hv, Ha. by apply in_range_of_sin.
        -- rewrite <- Hmin, <- Hmax. exact Hvs.
    + destruct (IH (setSpeedFactor o f) rt (setSpeedFactor_centred o f Ho))
        as (vs & rt' & Hr & Hvs).
      exists vs, rt'. split; [exact Hr | exact Hvs].
Qed.
End oscillator_facts.

(** C5.  For an oscillator constructed with [min <= max], and every
    interleaving of [getValue()] and [setSpeedFactor(f)] calls with [f > 0],
    whatever the clock reads at each call (any elapsed times), every value
    returned by [getValue()] lies in [[min, max]]. *)
Theorem C5_oscillator_value_in_range :
  ∀ (min max period : R) (calls : list Oscillator.call) (rt : Runtime),
    (min <= max)%R →
    Forall Oscillator.positiveFactor calls →
    ∃ (o : Oscillator.t) (rt' rt'' : Runtime) (values : list R),
      Oscillator.new min max period rt = (Returned o, rt')
      ∧ Oscillator.run o calls rt' = (Returned values, rt'')
      ∧ Forall (λ v, min <= v <= max)%R values.
Proof.
  intros lo hi p calls rt Hle _.
  destruct (new_run lo hi p rt) as (o & rt' & Hnew & Hmin & Hmax & Ham).
  assert (Ho : centred o) by (split; congruence).
  destruct (run_in_range calls o rt' Ho) as (vs & rt'' & Hr & Hvs).
  exists o, rt', rt'', vs. split; [exact Hnew|]. split; [exact Hr|].
  by rewrite <- Hmin, <- Hmax.
Qed.

(** the tail oscillator of a fish (-10..10, period 3): a read, a speed-up,
    two more reads *)
Lemma C5_witness :
  let calls := [Oscillator.GetValue; Oscillator.SetSpeedFactor 2;
                Oscillator.GetValue; Oscillator.GetValue] in
  let rt := mkRuntime (λ n, INR n * 400)%R 0 (λ _, 0%R) 0 in
  (-10 <= 10)%R
  ∧ Forall Oscillator.positiveFactor calls
  ∧ ∃ (o : Oscillator.t) (rt' rt'' : Runtime) (values : list R),
      Oscillator.new (-10) 10 3 rt = (Returned o, rt')
      ∧ Oscillator.run o calls rt' = (Returned values, rt'')
      ∧ Forall (λ v, -10 <= v <= 10)%R values.
Proof.
  intros calls rt.
  assert (H1 : (-10 <= 10)%R) by lra.
  assert (H2 : Forall Oscillator.positiveFactor calls).
  { repeat constructor. simpl. lra. }
  split; [exact H1|]. split; [exact H2|].
  exact (C5_oscillator_value_in_range (-10) 10 3 calls rt H1 H2).
Defined.

(* ================================================================= *)
(** ** Vector.normalize (C7) *)

Section vector_facts.
Local Open Scope R_scope.
Import Vector.

Lemma sum_sqr_nonneg (a b : R) : 0 <= a * a + b * b.
Proof. nra. Qed.

Lemma magnitude_zero_iff v : getMagnitude v = 0 ↔ dx v = 0 ∧ dy v = 0.
Proof.
  unfold getMagnitude. split.
  - intros H. apply sqrt_eq_0 in H; [|apply sum_sqr_nonneg]. split; nra.
  - intros [-> ->]. replace (0 * 0 + 0 * 0) with 0 by ring. apply sqrt_0.
Qed.

Lemma normalize_err v mutate msg :
  normalize v mutate = Err msg → getMagnitude v = 0.
Proof.
  unfold normalize, getMagnitude.
  destruct (Req_dec_T _ 0) as [H|H]; [done | discriminate].
Qed.

Lemma normalize_ok v mutate :
  getMagnitude v ≠ 0 →
  normalize v mutate
  = Ok (withMutate mutate v (mk (dx v / getMagnitude v) (dy v / getMagnitude v))).
Proof.
  intros H. unfold normalize, getMagnitude in *.
  destruct (Req_dec_T _ 0) as [H0|H0]; [contradiction | reflexivity].
Qed.

Lemma magnitude_of_normalized v :
  getMagnitude v ≠ 0 →
  getMagnitude (mk (dx v / getMagnitude v) (dy v / getMagnitude v)) = 1.
Proof.
  intros H. unfold getMagnitude in *. simpl.
  set (q := dx v * dx v + dy v * dy v) in *.
  assert (Hq : 0 <= q) by apply sum_sqr_nonneg.
  assert (Hs : sqrt q * sqrt q = q) by (by apply sqrt_sqrt).
  replace (dx v / sqrt q * (dx v / sqrt q) + dy v / sqrt q * (dy v / sqrt q))
    with (q / (sqrt q * sqrt q)) by (unfold q; field; exact H).
  rewrite Hs. replace (q / q) with 1; [apply sqrt_1|].
  field. intros ->. rewrite sqrt_0 in H. by apply H.
Qed.
End vector_facts.

(** C7.  [Vector.normalize] raises an error if and only if the vector has
    zero length ([dx = dy = 0]); for every non-zero vector it returns a
    vector of magnitude 1, and with [mutate = false] the receiver is left
    unchanged. *)
Theorem C7_normalize_total_on_nonzero :
  ∀ (v : Vector.t) (mutate : bool),
    ((∃ msg, Vector.normalize v mutate = Err msg)
       ↔ (Vector.dx v = 0 ∧ Vector.dy v = 0)%R)
    ∧ ((∃ msg, Vector.normalize v mutate = Err msg) ↔ Vector.getMagnitude v = 0%R)
    ∧ (¬ (Vector.dx v = 0 ∧ Vector.dy v = 0)%R →
       ∃ returned receiver : Vector.t,
         Vector.normalize v mutate = Ok (returned, receiver)
         ∧ Vector.getMagnitude returned = 1%R
         ∧ (mutate = false → receiver = v)
         ∧ (mutate = true → receiver = returned)).
Proof.
  intros v mutate.
  assert (Herr : (∃ msg, Vector.normalize v mutate = Err msg) ↔ Vector.getMagnitude v = 0%R).
  { split.
    - intros [msg H]. by eapply normalize_err.
    - intros H. unfold Vector.normalize, Vector.getMagnitude in *.
      destruct (Req_dec_T _ 0%R); [by eexists | contradiction]. }
  split; [by rewrite Herr, magnitude_zero_iff|]. split; [exact Herr|].
  intros Hnz. rewrite <- magnitude_zero_iff in Hnz.
  eexists _, _. split; [by apply normalize_ok|].
  split; [by apply magnitude_of_normalized|].
  split; intros ->; reflexivity.
Qed.

(* ================================================================= *)
(** ** The spatial grid (C8, C10) *)

Section grid_facts.
Import canvasUtil.
Local Open Scope Z_scope.

Lemma getCellIndex_of_cell (w : World) (p : Point.t) (i j : Z) :
  (50 * IZR i <= Point.x p < 50 * (IZR i + 1))%R →
  (50 * IZR j <= Point.y p < 50 * (IZR j + 1))%R →
  getCellIndex w p = j * numCellsX w + i.
Proof.
  intros Hx Hy. unfold getCellIndex, cellSize.
  rewrite (Zfloor_eq i (Point.x p / 50)), (Zfloor_eq j (Point.y p / 50));
    [done | split; lra | split; lra].
Qed.

Lemma in_offsets (range d : Z) : In d (offsets range) ↔ - range ≤ d ≤ range.
Proof.
  unfold offsets. rewrite in_map_iff. split.
  - intros (i & <- & Hi). apply in_seq in Hi. lia.
  - intros Hd. exists (Z.to_nat (d + range)). split; [lia|]. apply in_seq. lia.
Qed.

Lemma in_adjacentCells (nx ny idx range k : Z) :
  In k (adjacentCells nx ny idx range) ↔
  ∃ dx dy, - range ≤ dx ≤ range ∧ - range ≤ dy ≤ range
           ∧ 0 ≤ Z.rem idx nx + dx < nx ∧ 0 ≤ idx / nx + dy < ny
           ∧ k = (idx / nx + dy) * nx + (Z.rem idx nx + dx).
Proof.
  unfold adjacentCells. rewrite in_flat_map. split.
  - intros (dx & Hdx & Hin). apply in_flat_map in Hin as (dy & Hdy & Hin).
    apply in_offsets in Hdx, Hdy.
    destruct (_ && _) eqn:Hb in Hin; [|by destruct Hin].
    destruct Hin as [<-|[]]. exists dx, dy.
    repeat (apply andb_prop in Hb as [Hb ?]). repeat split; lia.
  - intros (dx & dy & Hdx & Hdy & Hx & Hy & ->).
    exists dx. split; [by apply in_offsets|]. apply in_flat_map.
    exists dy. split; [by apply in_offsets|].
    replace (_ && _) with true; [by left|].
    symmetry. repeat (apply andb_true_intro; split); lia.
Qed.

(** the computation under the cache is right on the grid it reads *)
Lemma adjacentCells_neighborsOf (nx ny idx range k : Z) :
  0 < nx → 0 ≤ idx < nx * ny →
  In k (adjacentCells nx ny idx range) ↔ neighborsOf nx ny idx range k.
Proof.
  intros Hnx Hidx.
  rewrite in_adjacentCells. rewrite Z.rem_mod_nonneg by lia.
  unfold neighborsOf, withinRangeOfCell. split.
  - intros (dx & dy & Hdx & Hdy & Hx & Hy & ->).
    exists (idx `mod` nx + dx), (idx / nx + dy). repeat split; lia.
  - intros (x & y & Hx & Hy & -> & Hax & Hay).
    exists (x - idx `mod` nx), (y - idx / nx). repeat split; lia.
Qed.

Lemma adjacentCells_self (nx ny idx range : Z) :
  0 < nx → 0 ≤ idx < nx * ny → 0 ≤ range → In idx (adjacentCells nx ny idx range).
Proof.
  intros Hnx Hidx Hr.
  apply adjacentCells_neighborsOf; [done..|].
  exists (idx `mod` nx), (idx / nx).
  pose proof (Z.mod_pos_bound idx nx Hnx).
  pose proof (Z.div_mod idx nx ltac:(lia)).
  assert (0 ≤ idx / nx) by (apply Z.div_pos; lia).
  assert (idx / nx < ny) by (apply Z.div_lt_upper_bound; lia).
  repeat split; try lia.
Qed.

(** a query that misses the cache computes on the current grid *)
Lemma getAdjacentIndices_miss (args : list Z) (w : World) :
  adjacentIndicesCache w !! args = None →
  getAdjacentIndices args w
  = (Returned (adjacentIndices args w),
     set_adjacentIndicesCache (<[args := adjacentIndices args w]> (adjacentIndicesCache w)) w).
Proof. intros H. unfold getAdjacentIndices, util.memoize. by rewrite H. Qed.

(** a query that hits the cache returns the cached list and reads nothing
    else *)
Lemma getAdjacentIndices_hit (args l : list Z) (w : World) :
  adjacentIndicesCache w !! args = Some l →
  getAdjacentIndices args w = (Returned l, set_adjacentIndicesCache (adjacentIndicesCache w) w).
Proof. intros H. unfold getAdjacentIndices, util.memoize. by rewrite H. Qed.

Lemma set_adjacentIndicesCache_id (w : World) :
  set_adjacentIndicesCache (adjacentIndicesCache w) w = w.
Proof. by destruct w. Qed.

(** no call of a session removes or changes a cache entry *)
Lemma gridStep_keeps_entry (c : gridCall) (w : World) (args l : list Z) :
  adjacentIndicesCache w !! args = Some l →
  adjacentIndicesCache (snd (gridStep c w)) !! args = Some l.
Proof.
  intros H. destruct c as [iw ih|args']; [exact H|].
  unfold gridStep, bind.
  destruct (adjacentIndicesCache w !! args') as [l'|] eqn:Hc.
  - rewrite (getAdjacentIndices_hit _ _ _ Hc). exact H.
  - rewrite (getAdjacentIndices_miss _ _ Hc). simpl.
    rewrite lookup_insert_ne; [exact H | congruence].
Qed.

Lemma afterCalls_keeps_entry (calls : list gridCall) (w : World) (args l : list Z) :
  adjacentIndicesCache w !! args = Some l →
  adjacentIndicesCache (afterCalls calls w) !! args = Some l.
Proof.
  revert w. induction calls as [|c calls IH]; intros w H; [exact H|].
  apply IH. by apply gridStep_keeps_entry.
Qed.

End grid_facts.

Section grid_scene.
Import canvasUtil.
Local Open Scope Z_scope.

Lemma setupCanvas_grid (iw ih : R) (nx ny : Z) (w : World) :
  (IZR nx - 1 < iw / 50 <= IZR nx)%R → (IZR ny - 1 < ih / 50 <= IZR ny)%R →
  numCellsX (snd (setupCanvas iw ih w)) = nx ∧ numCellsY (snd (setupCanvas iw ih w)) = ny
  ∧ adjacentIndicesCache (snd (setupCanvas iw ih w)) = adjacentIndicesCache w.
Proof.
  intros Hx Hy. simpl. unfold cellSize.
  rewrite (Zceil_eq nx), (Zceil_eq ny); done.
Qed.

Lemma loaded_grid :
  numCellsX scene.loaded = 20 ∧ numCellsY scene.loaded = 10
  ∧ adjacentIndicesCache scene.loaded = ∅.
Proof. apply (setupCanvas_grid 1000 500 20 10 scene.blank); split; lra. Qed.

(** the scenario of a resize: the page is loaded at 1000 x 500, the
    neighbours of cell 19 are queried, and the window shrinks to 500 x 500 *)
Definition resized : World :=
  snd (setupCanvas 500 500 (snd (getAdjacentIndices [19; 1] scene.loaded))).

Lemma resized_grid :
  numCellsX resized = 10 ∧ numCellsY resized = 10
  ∧ adjacentIndicesCache resized !! [19; 1] = Some [18; 38; 19; 39].
Proof.
  destruct loaded_grid as (Hx & Hy & Hc).
  unfold resized.
  destruct (setupCanvas_grid 500 500 10 10 (snd (getAdjacentIndices [19; 1] scene.loaded)))
    as (Hx' & Hy' & Hc'); [split; lra | split; lra |].
  split; [exact Hx'|]. split; [exact Hy'|]. rewrite Hc'.
  rewrite getAdjacentIndices_miss by (by rewrite Hc).
  cbn [snd adjacentIndicesCache set_adjacentIndicesCache].
  rewrite lookup_insert_eq. unfold adjacentIndices. rewrite Hx, Hy. reflexivity.
Qed.
End grid_scene.

(** C8 (the claim holds of the function under the cache, the code misses
    it through the cache).  Points of one cell have one cell index, given
    by the formula; and on a cache miss [getAdjacentIndices] returns
    exactly the in-bounds cells within the Chebyshev radius, the queried
    cell among them.  But the cache outlives a resize: after the window of
    the loaded page shrinks from 1000 x 500 to 500 x 500, the query for the
    in-bounds cell 19 with range 1 returns the list computed for the old
    grid, which contains cell 38 (two rows away) and lacks cell 9 (an
    adjacent cell). *)
Theorem C8_neighbours_stale_after_resize :
  (∀ (w : World) (p1 p2 : Point.t) (i j : Z),
      (50 * IZR i <= Point.x p1 < 50 * (IZR i + 1))%R →
      (50 * IZR j <= Point.y p1 < 50 * (IZR j + 1))%R →
      (50 * IZR i <= Point.x p2 < 50 * (IZR i + 1))%R →
      (50 * IZR j <= Point.y p2 < 50 * (IZR j + 1))%R →
      canvasUtil.getCellIndex w p1 = canvasUtil.getCellIndex w p2
      ∧ canvasUtil.getCellIndex w p1 = (j * numCellsX w + i)%Z)
  ∧ (∀ (w : World) (cellIndex range : Z),
        (0 < numCellsX w)%Z → (0 ≤ cellIndex < numCellsX w * numCellsY w)%Z → (1 ≤ range)%Z →
        adjacentIndicesCache w !! [cellIndex; range] = None →
        ∃ result, fst (canvasUtil.getAdjacentIndices [cellIndex; range] w) = Returned result
          ∧ (∀ k, In k result ↔ neighborsOf (numCellsX w) (numCellsY w) cellIndex range k)
          ∧ In cellIndex result)
  ∧ (numCellsX resized = 10%Z ∧ numCellsY resized = 10%Z
     ∧ (0 ≤ 19 < numCellsX resized * numCellsY resized)%Z
     ∧ fst (canvasUtil.getAdjacentIndices [19%Z; 1%Z] resized) = Returned [18; 38; 19; 39]%Z
     ∧ ¬ neighborsOf 10 10 19 1 38
     ∧ neighborsOf 10 10 19 1 9
     ∧ ¬ In 9%Z [18; 38; 19; 39]%Z).
Proof.
  split; [|split].
  - intros w p1 p2 i j Hx1 Hy1 Hx2 Hy2.
    rewrite (getCellIndex_of_cell w p1 i j), (getCellIndex_of_cell w p2 i j); done.
  - intros w cellIndex range Hnx Hidx Hr Hmiss.
    rewrite (getAdjacentIndices_miss _ _ Hmiss). eexists. split; [reflexivity|].
    simpl. split.
    + intros k. by apply adjacentCells_neighborsOf.
    + apply adjacentCells_self; [done..|lia].
  - destruct resized_grid as (Hx & Hy & Hc).
    split; [exact Hx|]. split; [exact Hy|]. split; [rewrite Hx, Hy; lia|].
    split; [by rewrite (getAdjacentIndices_hit _ _ _ Hc)|].
    split; [|split].
    + intros (x & y & ? & ? & ? & Hax & Hay).
      change (19 `mod` 10)%Z with 9%Z in Hax. change (19 `div` 10)%Z with 1%Z in Hay. lia.
    + exists 9%Z, 0%Z.
      change (19 `mod` 10)%Z with 9%Z. change (19 `div` 10)%Z with 1%Z.
      split; [lia|]. split; [lia|]. split; [reflexivity|]. lia.
    + simpl. intros [|[|[|[|[]]]]]; lia.
Qed.

(** C10.  The cache is keyed by the argument array alone and no call
    removes or replaces an entry: once [getAdjacentIndices(cellIndex, range)]
    has been queried, then after any sequence of resizes ([setupCanvas]) and
    queries the same call returns the list computed at the first query, from
    the grid dimensions of that time, and not the recomputed one. *)
Theorem C10_cached_neighbours_survive_resize :
  ∀ (w : World) (args : list Z) (calls : list canvasUtil.gridCall),
    adjacentIndicesCache w !! args = None →
    let w1 := snd (canvasUtil.getAdjacentIndices args w) in
    let w2 := canvasUtil.afterCalls calls w1 in
    fst (canvasUtil.getAdjacentIndices args w) = Returned (canvasUtil.adjacentIndices args w)
    ∧ adjacentIndicesCache w2 !! args = Some (canvasUtil.adjacentIndices args w)
    ∧ canvasUtil.getAdjacentIndices args w2 = (Returned (canvasUtil.adjacentIndices args w), w2).
Proof.
  intros w args calls Hmiss w1 w2.
  assert (H1 : adjacentIndicesCache w1 !! args = Some (canvasUtil.adjacentIndices args w)).
  { unfold w1. rewrite (getAdjacentIndices_miss _ _ Hmiss). simpl. apply lookup_insert_eq. }
  assert (H2 : adjacentIndicesCache w2 !! args = Some (canvasUtil.adjacentIndices args w)).
  { by apply afterCalls_keeps_entry. }
  split; [by rewrite (getAdjacentIndices_miss _ _ Hmiss)|]. split; [exact H2|].
  rewrite (getAdjacentIndices_hit _ _ _ H2). by rewrite set_adjacentIndicesCache_id.
Qed.

(** the resize scenario: the list for cell 19 computed on the 20 x 10 grid
    is what the 10 x 10 grid gets, where a fresh computation differs *)
Lemma C10_witness :
  let args := [19; 1]%Z in
  let calls := [canvasUtil.Resize 500 500] in
  let w2 := canvasUtil.afterCalls calls (snd (canvasUtil.getAdjacentIndices args scene.loaded)) in
  adjacentIndicesCache scene.loaded !! args = None
  ∧ fst (canvasUtil.getAdjacentIndices args w2) = Returned [18; 38; 19; 39]%Z
  ∧ canvasUtil.adjacentIndices args w2 = [8; 18; 28; 9; 19; 29]%Z.
Proof.
  intros args calls w2.
  assert (Hmiss : adjacentIndicesCache scene.loaded !! args = None).
  { destruct loaded_grid as (_ & _ & ->). reflexivity. }
  split; [exact Hmiss|].
  destruct (C10_cached_neighbours_survive_resize scene.loaded args calls Hmiss)
    as (_ & _ & Hhit).
  destruct loaded_grid as (Hx & Hy & _).
  destruct resized_grid as (Hx' & Hy' & _).
  split.
  - fold w2 in Hhit. rewrite Hhit. cbn [fst]. unfold canvasUtil.adjacentIndices, args.
    rewrite Hx, Hy. reflexivity.
  - change w2 with resized. unfold canvasUtil.adjacentIndices, args.
    rewrite Hx', Hy'. reflexivity.
Defined.

(* ================================================================= *)
(** ** Properties kept by the steps of a computation *)

Section preservation.
Context (P : World → Prop).

(** [m] keeps [P], whatever its outcome *)
Definition preserves {A : Type} (m : Eff World A) : Prop :=
  ∀ w, P w → P (snd (m w)).

Lemma preserves_ret {A} (a : A) : preserves (ret a).
Proof. by intros w. Qed.

Lemma preserves_throw {A} msg : preserves (@throw World A msg).
Proof. by intros w. Qed.

Lemma preserves_gets {A} (f : World → A) : preserves (gets f).
Proof. by intros w. Qed.

Lemma preserves_bind {A B} (m : Eff World A) (k : A → Eff World B) :
  preserves m → (∀ a, preserves (k a)) → preserves (bind m k).
Proof.
  intros Hm Hk w Hw. specialize (Hm w Hw). unfold bind.
  destruct (m w) as [[a|msg|] w']; simpl in *; [by apply Hk | done | done].
Qed.

Lemma preserves_modify (f : World → World) :
  (∀ w, P w → P (f w)) → preserves (modify f).
Proof. intros H w Hw. by apply H. Qed.

Lemma preserves_liftRuntime {A} (m : Eff Runtime A) :
  (∀ w rt, P w → P (set_runtime rt w)) → preserves (liftRuntime m).
Proof.
  intros H w Hw. unfold liftRuntime. destruct (m (runtime w)) as [o rt]. by apply H.
Qed.

Lemma preserves_liftResult {A} (r : Result A) : preserves (liftResult r).
Proof. destruct r; [apply preserves_ret | apply preserves_throw]. Qed.

Lemma preserves_apply {A} (m : Eff World A) w : preserves m → P w → P (snd (m w)).
Proof. intros H. apply H. Qed.
End preservation.

Lemma bind_updateKoiFish {B} x (f : KoiFish.t → KoiFish.t) (k : unit → Eff World B) w :
  bind (updateKoiFish x f) k w
  = k tt (set_koiFish (<[x := f (koiFish w x)]> (koiFish w)) w).
Proof. reflexivity. Qed.

(** a property of the fish alone is kept by whatever leaves the fish alone *)
Section fish_properties.
Context (Q : (ObjectId → KoiFish.t) → Prop).
Let P : World → Prop := λ w, Q (koiFish w).

Lemma fishes_liftRuntime {A} (m : Eff Runtime A) : preserves P (liftRuntime m).
Proof. by apply preserves_liftRuntime. Qed.

Lemma fishes_getAdjacentIndices args : preserves P (canvasUtil.getAdjacentIndices args).
Proof.
  intros w Hw. unfold canvasUtil.getAdjacentIndices.
  by destruct (util.memoize _ _ _ _).
Qed.

Lemma fishes_getNearbyObjects o c r : preserves P (ObjectManager.getNearbyObjects o c r).
Proof.
  unfold ObjectManager.getNearbyObjects.
  apply preserves_bind; [apply preserves_gets|intros ?].
  apply preserves_bind; [apply fishes_getAdjacentIndices|intros ?].
  apply preserves_bind; [apply preserves_gets|intros ?]. apply preserves_ret.
Qed.

Lemma fishes_onEaten f : preserves P (food.onEaten f).
Proof.
  unfold food.onEaten. apply preserves_bind; [|intros ?]; by apply preserves_modify.
Qed.

Lemma fishes_edgePoint (f : R → Eff World Point.t) d :
  f ∈ [canvasUtil.getTopEdgePoint; canvasUtil.getBottomEdgePoint;
       canvasUtil.getLeftEdgePoint; canvasUtil.getRightEdgePoint] →
  preserves P (f d).
Proof.
  intros Hf. repeat (apply elem_of_cons in Hf as [->|Hf]);
    [| | | |by apply elem_of_nil in Hf];
    (apply preserves_bind; [apply preserves_gets|intros ?];
     apply preserves_bind; [apply fishes_liftRuntime|intros ?]; apply preserves_ret).
Qed.

Lemma getRandomItem_elem {A} (items : list A) rt (x : A) rt' :
  randomUtil.getRandomItem items rt = (Returned (Some x), rt') → x ∈ items.
Proof.
  unfold randomUtil.getRandomItem. destruct (decide _); [discriminate|].
  unfold bind, Math_random, ret. intros [= H _].
  destruct (decide _); [|discriminate]. by eapply list_elem_of_lookup_2.
Qed.

Lemma fishes_getRandomEdgePoint d : preserves P (canvasUtil.getRandomEdgePoint d).
Proof.
  intros w Hw. unfold canvasUtil.getRandomEdgePoint, bind, liftRuntime.
  destruct (randomUtil.getRandomItem _ (runtime w)) as [[[f|]|msg|] rt] eqn:E; try done.
  apply getRandomItem_elem in E.
  by apply (fishes_edgePoint f d E (set_runtime rt w)).
Qed.

(** updating a fish keeps [P] when the new field value does *)
Lemma fishes_updateKoiFish x (f : KoiFish.t → KoiFish.t) :
  (∀ h, Q h → Q (<[x := f (h x)]> h)) → preserves P (updateKoiFish x f).
Proof. intros H w Hw. by apply H. Qed.
End fish_properties.

(** walking through a computation, given a tactic for the updates of a fish *)
Ltac walk step :=
  repeat first
    [ apply preserves_ret | apply preserves_throw | apply preserves_gets
    | apply preserves_liftResult
    | apply fishes_liftRuntime | apply fishes_getNearbyObjects
    | apply fishes_onEaten | apply fishes_getRandomEdgePoint
    | apply fishes_updateKoiFish; step
    | apply preserves_bind; [|intros ?]
    | match goal with
      | |- preserves _ (if ?c then _ else _) => destruct c
      | |- preserves _ (match ?x with _ => _ end) => destruct x
      end ].

(** the value of an updated heap at a given id *)
Ltac at_fish x y :=
  first
    [ rewrite !(fn_lookup_insert _ x)
    | let E := fresh "E" in
      destruct (decide (x = y)) as [E|E];
      [ first [subst y | subst x]; rewrite !fn_lookup_insert
      | rewrite !fn_lookup_insert_ne by exact E ] ].

(* ================================================================= *)
(** ** The rotation limit of the fish (C2) *)

Section rotation_facts.
Local Open Scope R_scope.
Import KoiFish koifish.

(** the turn multiplier of a fish is positive *)
Definition turnsForward (self : ObjectId) (h : ObjectId → KoiFish.t) : Prop :=
  0 < turnMultiplier (h self).

Ltac turn_step :=
  let h := fresh "h" in let Hh := fresh "Hh" in
  intros h Hh; unfold turnsForward in *;
  match goal with
  | |- context [<[?x := _]> _ ?self] =>
      destruct (decide (x = self)) as [->|];
      [ rewrite fn_lookup_insert; simpl;
        first [ exact Hh | lra
              | match goal with
                | |- 0 < _ * Rmax ?a ?b => pose proof (Rmax_r a b); nra
                end
              | nra ]
      | rewrite fn_lookup_insert_ne by done; exact Hh ]
  end.

Lemma whileTooClose_total fuel c p q d rt :
  ∃ o rt', whileTooClose fuel c p q d rt = (o, rt').
Proof. by destruct (whileTooClose fuel c p q d rt); eauto. Qed.

Lemma turnsForward_setNewRandomTargetPoint self fuel x :
  preserves (λ w, turnsForward self (koiFish w)) (setNewRandomTargetPoint fuel x).
Proof. unfold setNewRandomTargetPoint. walk turn_step. Qed.

Lemma turnsForward_unsetLeaderFollower self l x :
  preserves (λ w, turnsForward self (koiFish w)) (unsetLeaderFollower l x).
Proof. unfold unsetLeaderFollower. walk turn_step. Qed.

Lemma turnsForward_setLeaderFollower self l x side :
  preserves (λ w, turnsForward self (koiFish w)) (setLeaderFollower l x side).
Proof. unfold setLeaderFollower. walk turn_step. Qed.

Lemma turnsForward_checkAndSetFoodBehavior self x :
  preserves (λ w, turnsForward self (koiFish w)) (checkAndSetFoodBehavior x).
Proof.
  unfold checkAndSetFoodBehavior, eatDesiredFood, findClosestFood, chaseFood.
  walk turn_step.
Qed.

Lemma turnsForward_checkAndSetFollowBehavior self fuel x :
  preserves (λ w, turnsForward self (koiFish w)) (checkAndSetFollowBehavior fuel x).
Proof. unfold checkAndSetFollowBehavior. walk turn_step. Qed.

Lemma turnsForward_standardBehavior self fuel x :
  preserves (λ w, turnsForward self (koiFish w)) (standardBehavior fuel x).
Proof. unfold standardBehavior. walk turn_step. Qed.

Lemma turnsForward_selectBehavior self fuel x :
  preserves (λ w, turnsForward self (koiFish w)) (selectBehavior fuel x).
Proof.
  unfold selectBehavior.
  apply preserves_bind; [apply turnsForward_checkAndSetFoodBehavior|intros ?].
  apply preserves_bind; [|intros ?].
  - apply preserves_bind; [apply preserves_gets|intros this].
    destruct (desiredFood this);
      [apply preserves_ret | apply turnsForward_checkAndSetFollowBehavior].
  - apply preserves_bind; [apply preserves_gets|intros this].
    destruct (desiredFood this), (leaderKoiFish this);
      first [apply preserves_ret | apply turnsForward_standardBehavior].
Qed.

Lemma startUpdate_run self w :
  ∃ w', startUpdate self w = (Returned tt, w')
        ∧ turnMultiplier (koiFish w' self) = 1
        ∧ runtime w' = runtime w ∧ canvas w' = canvas w
        ∧ position (koiFish w' self) = position (koiFish w self)
        ∧ lastUpdateTime (koiFish w' self) = lastUpdateTime (koiFish w self).
Proof.
  eexists. split; [reflexivity|]. simpl. rewrite !fn_lookup_insert. by simpl.
Qed.

(** rotating by 0 degrees changes nothing *)
Lemma rotateVector_0 (v : Vector.t) : fst (Vector.rotateVector v 0 false) = v.
Proof.
  unfold Vector.rotateVector, withMutate. simpl.
  replace (- 0 * PI / 180) with 0 by field. rewrite cos_0, sin_0.
  destruct v as [a b]. simpl. f_equal; ring.
Qed.

Lemma finalAngleChange_bound (maxRotationAngle desired multiplier : R) :
  0 <= maxRotationAngle → 0 <= multiplier →
  Rabs (finalAngleChange maxRotationAngle desired multiplier) <= maxRotationAngle * multiplier.
Proof.
  intros Hm Ht. unfold finalAngleChange, Js.sign.
  assert (Hmin : 0 <= Rmin maxRotationAngle (Rabs desired) <= maxRotationAngle).
  { split; [apply Rmin_glb; [done | apply Rabs_pos] | apply Rmin_l]. }
  rewrite !Rabs_mult. rewrite (Rabs_pos_eq (Rmin _ _)) by apply Hmin.
  rewrite (Rabs_pos_eq multiplier) by done.
  assert (Hs : 0 <= Rabs (if Rlt_dec 0 desired then 1
                          else if Rlt_dec desired 0 then -1 else 0) <= 1).
  { destruct (Rlt_dec 0 desired); [|destruct (Rlt_dec desired 0)];
      unfold Rabs; destruct (Rcase_abs _); lra. }
  apply Rmult_le_compat_r; [done|].
  set (a := Rmin maxRotationAngle (Rabs desired)) in *.
  set (s := Rabs _) in *. nra.
Qed.

(** what [smoothenDirectionChange] does to the world: one clock reading,
    and the direction of the fish rotated outside the deadband *)
Lemma smoothenDirectionChange_run self w :
  let this := koiFish w self in
  let elapsed :=
    timeUtil.elapsedSeconds (clock (runtime w) (ticks (runtime w))) (lastUpdateTime this) in
  let desired := desiredAngleChange w this in
  let final :=
    finalAngleChange (maxRotationAnglePerSecond * elapsed) desired (turnMultiplier this) in
  ∃ w', smoothenDirectionChange self w = (Returned tt, w')
        ∧ direction (koiFish w' self)
          = (if Rgt_dec (Rabs desired) 2
             then fst (Vector.rotateVector (direction this) final false)
             else direction this).
Proof.
  intros this elapsed desired final.
  unfold smoothenDirectionChange, bind, getThis, gets, liftRuntime,
    timeUtil.getElapsedSeconds, Date_now, ret. simpl.
  fold this. fold elapsed.
  assert (Hd : desiredAngleChange
                 (set_runtime (mkRuntime (clock (runtime w)) (S (ticks (runtime w)))
                                 (random (runtime w)) (draws (runtime w))) w) this = desired)
    by reflexivity.
  rewrite Hd. fold final.
  destruct (Rgt_dec (Rabs desired) 2).
  - eexists. split; [reflexivity|]. simpl. by rewrite fn_lookup_insert.
  - eexists. split; [reflexivity|]. reflexivity.
Qed.
End rotation_facts.

(* ================================================================= *)
(** ** Computations that end without the loop bound *)

Section ends.
Context {S : Type}.

(** [m] returns or throws: it does not stop for lack of fuel *)
Definition ends {A : Type} (m : Eff S A) : Prop := ∀ s, fst (m s) ≠ OutOfFuel.

Lemma ends_ret {A} (a : A) : ends (@ret S A a).
Proof. by intros s. Qed.

Lemma ends_throw {A} msg : ends (@throw S A msg).
Proof. by intros s. Qed.

Lemma ends_gets {A} (f : S → A) : ends (gets f).
Proof. by intros s. Qed.

Lemma ends_modify (f : S → S) : ends (modify f).
Proof. by intros s. Qed.

Lemma ends_liftResult {A} (r : Result A) : ends (@liftResult S A r).
Proof. destruct r; [apply ends_ret | apply ends_throw]. Qed.

Lemma ends_bind {A B} (m : Eff S A) (k : A → Eff S B) :
  ends m → (∀ a, ends (k a)) → ends (bind m k).
Proof.
  intros Hm Hk s. specialize (Hm s). unfold bind.
  destruct (m s) as [[a|msg|] s']; simpl in *; [apply Hk | done | done].
Qed.
End ends.

Lemma ends_Date_now : ends Date_now.
Proof. by intros rt. Qed.

Lemma ends_Math_random : ends Math_random.
Proof. by intros rt. Qed.

Lemma ends_getElapsedSeconds t : ends (timeUtil.getElapsedSeconds t).
Proof. by intros rt. Qed.

Lemma ends_liftRuntime {A} (m : Eff Runtime A) : ends m → ends (liftRuntime m).
Proof.
  intros Hm w. specialize (Hm (runtime w)). unfold liftRuntime.
  by destruct (m (runtime w)).
Qed.

Lemma ends_getAdjacentIndices args : ends (canvasUtil.getAdjacentIndices args).
Proof. intros w. unfold canvasUtil.getAdjacentIndices. by destruct (util.memoize _ _ _ _). Qed.

(** [m] always returns *)
Definition succeeds {S A : Type} (m : Eff S A) : Prop :=
  ∀ s, ∃ a s', m s = (Returned a, s').

Lemma succeeds_ret {S A} (a : A) : succeeds (@ret S A a).
Proof. intros s. by eexists _, _. Qed.

Lemma succeeds_gets {S A} (f : S → A) : succeeds (gets f).
Proof. intros s. by eexists _, _. Qed.

Lemma succeeds_modify {S} (f : S → S) : succeeds (modify f).
Proof. intros s. by eexists _, _. Qed.

Lemma succeeds_bind {S A B} (m : Eff S A) (k : A → Eff S B) :
  succeeds m → (∀ a, succeeds (k a)) → succeeds (bind m k).
Proof.
  intros Hm Hk s. destruct (Hm s) as (a & s' & Ha). destruct (Hk a s') as (b & s'' & Hb).
  exists b, s''. by rewrite (bind_returned _ _ _ _ _ Ha).
Qed.

Lemma succeeds_liftRuntime {A} (m : Eff Runtime A) : succeeds m → succeeds (liftRuntime m).
Proof.
  intros Hm w. destruct (Hm (runtime w)) as (a & rt & Ha).
  exists a, (set_runtime rt w). unfold liftRuntime. by rewrite Ha.
Qed.

Lemma succeeds_Date_now : succeeds Date_now.
Proof. intros rt. by eexists _, _. Qed.

Lemma succeeds_getElapsedSeconds t : succeeds (timeUtil.getElapsedSeconds t).
Proof. intros rt. by eexists _, _. Qed.

Ltac succeed :=
  repeat first
    [ apply succeeds_ret | apply succeeds_gets | apply succeeds_modify
    | apply succeeds_liftRuntime;
      first [apply succeeds_Date_now | apply succeeds_getElapsedSeconds]
    | apply succeeds_bind; [|intros ?]
    | match goal with
      | |- succeeds (if ?c then _ else _) => destruct c
      | |- succeeds (match ?x with _ => _ end) => destruct x
      end ].

Ltac finish :=
  repeat first
    [ apply ends_ret | apply ends_throw | apply ends_gets | apply ends_modify
    | apply ends_liftResult | apply ends_getAdjacentIndices
    | apply ends_liftRuntime;
      first [apply ends_Date_now | apply ends_Math_random | apply ends_getElapsedSeconds]
    | apply ends_bind; [|intros ?]
    | match goal with
      | |- ends (if ?c then _ else _) => destruct c
      | |- ends (match ?x with _ => _ end) => destruct x
      end ].

Section fish_ends.
Import koifish.

Lemma ends_checkAndSetFoodBehavior self : ends (checkAndSetFoodBehavior self).
Proof.
  unfold checkAndSetFoodBehavior, eatDesiredFood, findClosestFood, chaseFood.
  finish.
Qed.

Lemma ends_smoothenDirectionChange self : ends (smoothenDirectionChange self).
Proof. unfold smoothenDirectionChange. finish. Qed.

Lemma ends_smoothenSpeedChange self : ends (smoothenSpeedChange self).
Proof. unfold smoothenSpeedChange. finish. Qed.

Lemma ends_move self : ends (move self).
Proof. unfold move. finish. Qed.
End fish_ends.

(* ================================================================= *)
(** ** Food seeking (C4) *)

Section food_facts.
Import KoiFish koifish.
Local Open Scope R_scope.

(** the distance from a fish to a food *)
Definition distanceToFood (w : World) (this : KoiFish.t) (g : ObjectId) : R :=
  Point.getDistanceTo (position this) (Food.position (food w g)).

(** the scan keeps the food that is strictly the closest *)
Lemma closest_is_found (w : World) (this : KoiFish.t) (F : ObjectId) (l : list ObjectId) :
  Food.isEaten (food w F) = false →
  (∀ G, G ∈ l → G ≠ F → Food.isEaten (food w G) = false →
        distanceToFood w this F < distanceToFood w this G) →
  ∀ acc,
    (F ∈ l ∧ (acc = None
              ∨ ∃ G, acc = Some (G, distanceToFood w this G)
                     ∧ distanceToFood w this F < distanceToFood w this G))
    ∨ acc = Some (F, distanceToFood w this F) →
    foldl (closerFood w this) acc l = Some (F, distanceToFood w this F).
Proof.
  intros HF. induction l as [|x l IH]; intros Hnear acc Hacc.
  - destruct Hacc as [[HFl _]| ->]; [by apply elem_of_nil in HFl | done].
  - simpl. apply IH.
    { intros G HG. apply Hnear. by right. }
    unfold closerFood. fold (distanceToFood w this x).
    destruct Hacc as [[HFl Hacc]| ->].
    + destruct (decide (x = F)) as [->|Hx].
      * right. rewrite HF.
        destruct Hacc as [->|(G & -> & HG)]; [done|].
        destruct (Rlt_dec _ _); [done | lra].
      * apply elem_of_cons in HFl as [->|HFl]; [done|]. left. split; [done|].
        destruct (Food.isEaten (food w x)) eqn:Hex; [done|].
        assert (Hlt : distanceToFood w this F < distanceToFood w this x).
        { apply Hnear; [by left | done | done]. }
        destruct Hacc as [->|(G & -> & HG)]; [right; eauto|].
        destruct (Rlt_dec _ _); right; eauto.
    + right. destruct (decide (x = F)) as [->|Hx].
      * rewrite HF. destruct (Rlt_dec _ _); [lra | done].
      * destruct (Food.isEaten (food w x)) eqn:Hex; [done|].
        assert (Hlt : distanceToFood w this F < distanceToFood w this x).
        { apply Hnear; [by left | done | done]. }
        destruct (Rlt_dec _ _); [lra | done].
Qed.

(** the cached list for a key, if any, is the one of the current grid *)
Definition cacheFresh (w : World) (args : list Z) : Prop :=
  ∀ l, adjacentIndicesCache w !! args = Some l → l = canvasUtil.adjacentIndices args w.

Lemma getAdjacentIndices_fresh (w : World) (args : list Z) :
  cacheFresh w args →
  ∃ cache, canvasUtil.getAdjacentIndices args w
           = (Returned (canvasUtil.adjacentIndices args w), set_adjacentIndicesCache cache w).
Proof.
  intros Hfresh. destruct (adjacentIndicesCache w !! args) as [l|] eqn:Hc.
  - rewrite (getAdjacentIndices_hit _ _ _ Hc). rewrite (Hfresh l Hc). eauto.
  - rewrite (getAdjacentIndices_miss _ _ Hc). eauto.
Qed.

(** the objects of a class, other than the source, registered in the cells
    of a list *)
Definition registeredIn (w : World) (indices : list Z) (class : ObjectClass)
    (source : ObjectId) : list ObjectId :=
  flat_map (λ k,
    map idOf (filter (λ obj, classOf obj = class ∧ idOf obj ≠ source)
                     (default [] (locationMap w !! k))))
  indices.

Lemma elem_of_registeredIn (w : World) indices class source G :
  G ∈ registeredIn w indices class source ↔
  G ≠ source ∧ ∃ k, In k indices ∧ mkRef class G ∈ default [] (locationMap w !! k).
Proof.
  unfold registeredIn. rewrite list_elem_of_In, in_flat_map. split.
  - intros (k & Hk & HG). apply (proj2 (list_elem_of_In _ _)) in HG.
    apply list_elem_of_fmap in HG as ([c g] & -> & Hobj).
    apply list_elem_of_filter in Hobj as [[Hc Hg] Hobj]. simpl in *. subst c.
    split; [done|]. by exists k.
  - intros (Hne & k & Hk & Hobj). exists k. split; [done|].
    apply (proj1 (list_elem_of_In _ _)), list_elem_of_fmap.
    exists (mkRef class G). split; [done|].
    apply list_elem_of_filter. by split.
Qed.

Lemma getNearbyObjects_fresh (w : World) (o : EnvironmentObject.t) class range :
  cacheFresh w [canvasUtil.getCellIndex w (EnvironmentObject.position o); range] →
  ∃ cache,
    ObjectManager.getNearbyObjects o class range w
    = (Returned (registeredIn w
                   (canvasUtil.adjacentCells (numCellsX w) (numCellsY w)
                      (canvasUtil.getCellIndex w (EnvironmentObject.position o)) range)
                   class (EnvironmentObject.id o)),
       set_adjacentIndicesCache cache w).
Proof.
  intros Hfresh. destruct (getAdjacentIndices_fresh w _ Hfresh) as (cache & Hrun).
  exists cache. unfold ObjectManager.getNearbyObjects.
  rewrite bind_gets. erewrite bind_returned by exact Hrun. reflexivity.
Qed.

(** what the first statements of [update] and the eating step leave as it
    was: the grid, the location map, and of every fish its position, its id
    and its links *)
Record sameScene (w w' : World) : Prop := mkSameScene {
  scene_canvas : canvas w' = canvas w;
  scene_numCellsX : numCellsX w' = numCellsX w;
  scene_numCellsY : numCellsY w' = numCellsY w;
  scene_cache : adjacentIndicesCache w' = adjacentIndicesCache w;
  scene_locationMap : locationMap w' = locationMap w;
  scene_runtime : runtime w' = runtime w;
  scene_position : ∀ x, position (koiFish w' x) = position (koiFish w x);
  scene_id : ∀ x, id (koiFish w' x) = id (koiFish w x);
  scene_lastUpdateTime : ∀ x, lastUpdateTime (koiFish w' x) = lastUpdateTime (koiFish w x);
  scene_leader : ∀ x, leaderKoiFish (koiFish w' x) = leaderKoiFish (koiFish w x);
  scene_left : ∀ x, leftFollower (koiFish w' x) = leftFollower (koiFish w x);
  scene_right : ∀ x, rightFollower (koiFish w' x) = rightFollower (koiFish w x);
  scene_foodPosition : ∀ g, Food.position (food w' g) = Food.position (food w g);
}.

Ltac lookup_fish x self :=
  destruct (decide (self = x)) as [->|?];
  [ rewrite ?fn_lookup_insert | rewrite ?fn_lookup_insert_ne by done ]; simpl.

Lemma startUpdate_scene self w :
  ∃ w', startUpdate self w = (Returned tt, w') ∧ sameScene w w'
        ∧ food w' = food w ∧ foodMap w' = foodMap w
        ∧ desiredFood (koiFish w' self) = desiredFood (koiFish w self)
        ∧ turnMultiplier (koiFish w' self) = 1.
Proof.
  eexists. split; [reflexivity|]. simpl.
  split; [|by rewrite !fn_lookup_insert].
  split; try done; intros x; simpl.
  all: destruct (decide (self = x)) as [->|?];
    [ rewrite !fn_lookup_insert | rewrite !fn_lookup_insert_ne by done ]; done.
Qed.

(** the desired food is eaten by this call *)
Definition eatsNow (w : World) (self g : ObjectId) : Prop :=
  desiredFood (koiFish w self) = Some g
  ∧ (distanceToFood w (koiFish w self) g < 20 ∨ g ∉ foodMap w).

Lemma eatDesiredFood_scene self w :
  ∃ w', eatDesiredFood self w = (Returned tt, w') ∧ sameScene w w'
        ∧ (∀ g, Food.isEaten (food w' g) = false → Food.isEaten (food w g) = false)
        ∧ (∀ g, Food.isEaten (food w g) = false → ¬ eatsNow w self g →
                Food.isEaten (food w' g) = false).
Proof.
  unfold eatDesiredFood, getThis. rewrite bind_gets.
  destruct (desiredFood (koiFish w self)) as [d|] eqn:Hd.
  - rewrite !bind_gets.
    destruct (Js.ltb _ 20 || negb _) eqn:Hcond.
    + eexists. split; [reflexivity|]. simpl. split; [|split].
      * split; try done; intros x; simpl.
        1-6: destruct (decide (self = x)) as [->|?];
          [ rewrite !fn_lookup_insert | rewrite !fn_lookup_insert_ne by done ]; done.
        destruct (decide (d = x)) as [->|?];
          [ rewrite !fn_lookup_insert | rewrite !fn_lookup_insert_ne by done ]; done.
      * intros g. destruct (decide (d = g)) as [->|?];
          [ rewrite !fn_lookup_insert | rewrite !fn_lookup_insert_ne by done ]; done.
      * intros g Hg Hnot. destruct (decide (d = g)) as [->|?];
          [ | by rewrite !fn_lookup_insert_ne by done ].
        exfalso. apply Hnot. split; [done|].
        apply orb_prop in Hcond as [Hc|Hc].
        -- left. unfold Js.ltb in Hc. by destruct (Rlt_dec _ _) in Hc.
        -- right. apply negb_true_iff, bool_decide_eq_false in Hc. done.
    + eexists. split; [reflexivity|]. by split.
  - eexists. split; [reflexivity|]. by split.
Qed.


Lemma findClosestFood_fresh self w :
  id (koiFish w self) = self →
  cacheFresh w [canvasUtil.getCellIndex w (position (koiFish w self)); 5%Z] →
  ∃ cache,
    findClosestFood self w
    = (Returned (foldl (closerFood w (koiFish w self)) None
                   (registeredIn w
                      (canvasUtil.adjacentCells (numCellsX w) (numCellsY w)
                         (canvasUtil.getCellIndex w (position (koiFish w self))) 5)
                      FoodClass self)),
       set_adjacentIndicesCache cache w).
Proof.
  intros Hid Hfresh.
  destruct (getNearbyObjects_fresh w (asObject (koiFish w self)) FoodClass 5 Hfresh)
    as (cache & Hrun).
  exists cache. unfold findClosestFood, getThis. rewrite bind_gets.
  erewrite bind_returned by exact Hrun. simpl. by rewrite Hid.
Qed.

(** the fish is set on a food, and its former leader has let it go *)
Definition chasing (self F : ObjectId) (h : ObjectId → KoiFish.t) : Prop :=
  targetPoint (h self) = PositionOfFood F
  ∧ desiredFood (h self) = Some F
  ∧ leaderKoiFish (h self) = None.

Definition letGo (self : ObjectId) (before h : ObjectId → KoiFish.t) : Prop :=
  ∀ L, leaderKoiFish (before self) = Some L →
       if decide (leftFollower (before L) = Some self)
       then leftFollower (h L) = None
       else rightFollower (h L) = None.

Definition pursuit (self F : ObjectId) (before h : ObjectId → KoiFish.t) : Prop :=
  chasing self F h ∧ letGo self before h.

Ltac pursuit_step :=
  let h := fresh "h" in let Hc := fresh "Hc" in let Hl := fresh "Hl" in
  let L := fresh "L" in let HL := fresh "HL" in
  intros h [Hc Hl]; split;
  [ unfold chasing in *;
    match goal with
    | |- context [<[?x := _]> _ ?y] => at_fish x y; exact Hc
    end
  | intros L HL; specialize (Hl L HL);
    match goal with
    | |- context [<[?x := _]> _ L] => at_fish x L; exact Hl
    end ].

Lemma chaseFood_pursuit self F w :
  pursuit self F (koiFish w) (koiFish (snd (chaseFood self F w))).
Proof.
  unfold chaseFood, getThis. rewrite bind_gets.
  set (rest := bind (updateKoiFish self (set_desiredFood (Some F))) _).
  assert (Hrest : ∀ w1,
    leaderKoiFish (koiFish w1 self) = None →
    letGo self (koiFish w) (koiFish w1) →
    pursuit self F (koiFish w) (koiFish (snd (rest w1)))).
  { intros w1 Hnone Hlet. unfold rest. rewrite !bind_updateKoiFish.
    apply (preserves_apply (λ w0, pursuit self F (koiFish w) (koiFish w0))).
    - walk pursuit_step.
    - simpl. split.
      + unfold chasing. rewrite !fn_lookup_insert. simpl. by rewrite Hnone.
      + intros L HL. specialize (Hlet L HL).
        destruct (decide (self = L)) as [->|];
          [ rewrite !fn_lookup_insert | rewrite !fn_lookup_insert_ne by done ]; exact Hlet. }
  destruct (leaderKoiFish (koiFish w self)) as [L|] eqn:HL.
  - unfold bind at 1. unfold unsetLeaderFollower, getThis. rewrite bind_gets.
    destruct (decide (leftFollower (koiFish w L) = Some self)) as [Hleft|Hleft].
    + simpl. apply Hrest.
      * simpl. by rewrite fn_lookup_insert.
      * intros L' HL'. rewrite HL in HL'. injection HL' as <-. simpl.
        rewrite decide_True by done.
        destruct (decide (self = L)) as [->|];
          [ rewrite !fn_lookup_insert | rewrite fn_lookup_insert_ne, fn_lookup_insert by done ];
          done.
    + simpl. apply Hrest.
      * simpl. by rewrite fn_lookup_insert.
      * intros L' HL'. rewrite HL in HL'. injection HL' as <-. simpl.
        rewrite decide_False by done.
        destruct (decide (self = L)) as [->|];
          [ rewrite !fn_lookup_insert | rewrite fn_lookup_insert_ne, fn_lookup_insert by done ];
          done.
  - rewrite bind_ret_l. apply Hrest; [done|]. intros L' HL'. congruence.
Qed.

(** the cell of a point, as column and row *)
Definition cellX (p : Point.t) : Z := Zfloor (Point.x p / canvasUtil.cellSize).
Definition cellY (p : Point.t) : Z := Zfloor (Point.y p / canvasUtil.cellSize).

(** a food registered in a cell within range 5 of the cell of the fish *)
Definition registeredNear (w : World) (self G : ObjectId) : Prop :=
  ∃ k, withinRangeOfCell (numCellsX w) (numCellsY w)
         (cellX (position (koiFish w self))) (cellY (position (koiFish w self))) 5 k
       ∧ mkRef FoodClass G ∈ default [] (locationMap w !! k).

(** The fish [self], in a cell of the grid, has the food [F] in sight: [F]
    is registered within range, is not eaten, and is strictly closer than
    every other such food.  The cached neighbour list of the cell of the
    fish, if there is one, is that of the current grid. *)
Record inSight (w : World) (self F : ObjectId) : Prop := mkInSight {
  sight_id : id (koiFish w self) = self;
  sight_other : F ≠ self;
  sight_column : (0 ≤ cellX (position (koiFish w self)) < numCellsX w)%Z;
  sight_row : (0 ≤ cellY (position (koiFish w self)) < numCellsY w)%Z;
  sight_cache :
    cacheFresh w [canvasUtil.getCellIndex w (position (koiFish w self)); 5%Z];
  sight_registered : registeredNear w self F;
  sight_uneaten : Food.isEaten (food w F) = false;
  sight_nearest :
    ∀ G, registeredNear w self G → G ≠ F → Food.isEaten (food w G) = false →
         distanceToFood w (koiFish w self) F < distanceToFood w (koiFish w self) G;
}.

Lemma inSight_scene w w' self F :
  sameScene w w' →
  (∀ g, Food.isEaten (food w' g) = false → Food.isEaten (food w g) = false) →
  Food.isEaten (food w' F) = false →
  inSight w self F → inSight w' self F.
Proof.
  intros Hs Hmono HF [].
  assert (Hpos : position (koiFish w' self) = position (koiFish w self))
    by apply (scene_position _ _ Hs).
  assert (Hnear : ∀ G, registeredNear w' self G → registeredNear w self G).
  { intros G (k & Hk & Hin). exists k.
    rewrite Hpos, (scene_numCellsX _ _ Hs), (scene_numCellsY _ _ Hs) in Hk.
    by rewrite (scene_locationMap _ _ Hs) in Hin. }
  assert (Hdist : ∀ G, distanceToFood w' (koiFish w' self) G
                       = distanceToFood w (koiFish w self) G).
  { intros G. unfold distanceToFood. by rewrite Hpos, (scene_foodPosition _ _ Hs). }
  split.
  - by rewrite (scene_id _ _ Hs).
  - done.
  - by rewrite Hpos, (scene_numCellsX _ _ Hs).
  - by rewrite Hpos, (scene_numCellsY _ _ Hs).
  - intros l Hl. rewrite (scene_cache _ _ Hs) in Hl.
    unfold canvasUtil.getCellIndex in *.
    rewrite Hpos, (scene_numCellsX _ _ Hs) in Hl |- *.
    rewrite (sight_cache0 l Hl). unfold canvasUtil.adjacentIndices.
    by rewrite (scene_numCellsX _ _ Hs), (scene_numCellsY _ _ Hs).
  - destruct sight_registered0 as (k & Hk & Hin). exists k.
    rewrite Hpos, (scene_numCellsX _ _ Hs), (scene_numCellsY _ _ Hs).
    by rewrite (scene_locationMap _ _ Hs).
  - done.
  - intros G HG HGF Hun. rewrite !Hdist. apply sight_nearest0; auto.
Qed.

(** in the grid, the index of a cell gives back its column and row *)
Lemma cell_of_index (nx cx cy : Z) :
  (0 ≤ cx < nx)%Z → ((cy * nx + cx) `mod` nx = cx ∧ (cy * nx + cx) `div` nx = cy)%Z.
Proof.
  intros H. split.
  - symmetry. apply (Z.mod_unique _ _ cy); [left; lia | lia].
  - symmetry. apply (Z.div_unique _ _ _ cx); [left; lia | lia].
Qed.

Lemma inSight_listed w self F :
  inSight w self F →
  ∀ G, G ≠ self →
    (G ∈ registeredIn w
           (canvasUtil.adjacentCells (numCellsX w) (numCellsY w)
              (canvasUtil.getCellIndex w (position (koiFish w self))) 5)
           FoodClass self
     ↔ registeredNear w self G).
Proof.
  intros [] G HG. rewrite elem_of_registeredIn.
  set (cx := cellX (position (koiFish w self))) in *.
  set (cy := cellY (position (koiFish w self))) in *.
  assert (Hidx : canvasUtil.getCellIndex w (position (koiFish w self))
                 = (cy * numCellsX w + cx)%Z) by reflexivity.
  destruct (cell_of_index (numCellsX w) cx cy sight_column0) as [Hmod Hdiv].
  assert (Hin : ∀ k,
    In k (canvasUtil.adjacentCells (numCellsX w) (numCellsY w)
            (canvasUtil.getCellIndex w (position (koiFish w self))) 5)
    ↔ withinRangeOfCell (numCellsX w) (numCellsY w) cx cy 5 k).
  { intros k. rewrite adjacentCells_neighborsOf; [|lia|rewrite Hidx; nia].
    unfold neighborsOf. by rewrite Hidx, Hmod, Hdiv. }
  unfold registeredNear. split.
  - intros (_ & k & Hk & Hobj). exists k. split; [by apply Hin | done].
  - intros (k & Hk & Hobj). split; [done|]. exists k. split; [by apply Hin | done].
Qed.

Lemma findClosestFood_inSight self F w :
  inSight w self F →
  ∃ cache, findClosestFood self w
           = (Returned (Some (F, distanceToFood w (koiFish w self) F)),
              set_adjacentIndicesCache cache w).
Proof.
  intros Hsight. pose proof (inSight_listed w self F Hsight) as Hlisted.
  destruct Hsight.
  destruct (findClosestFood_fresh self w sight_id0 sight_cache0) as (cache & Hrun).
  exists cache. rewrite Hrun. do 2 f_equal.
  apply closest_is_found; [done| |].
  - intros G HG HGF Hun. apply sight_nearest0; [|done..].
    apply Hlisted; [|done]. apply elem_of_registeredIn in HG. tauto.
  - left. split; [|by left]. apply Hlisted; done.
Qed.

Lemma unsetLeaderFollower_scene L x w :
  ∃ w', unsetLeaderFollower L x w = (Returned tt, w')
        ∧ food w' = food w
        ∧ ∀ y, position (koiFish w' y) = position (koiFish w y).
Proof.
  unfold unsetLeaderFollower, getThis. rewrite bind_gets.
  destruct (decide _); (eexists; split; [reflexivity|]; split; [done|]);
    intros y; simpl;
    (destruct (decide (x = y)) as [->|];
      [ rewrite fn_lookup_insert | rewrite fn_lookup_insert_ne by done ]); simpl;
    (destruct (decide (L = y)) as [->|];
      [ by rewrite fn_lookup_insert | by rewrite fn_lookup_insert_ne by done ]).
Qed.

(** off the food, the chase starts without an exception *)
Lemma chaseFood_returns self F w :
  Vector.getMagnitude
    (Point.getVectorTo (position (koiFish w self)) (Food.position (food w F))) ≠ 0 →
  fst (chaseFood self F w) = Returned tt.
Proof.
  intros Hoff. unfold chaseFood, getThis. rewrite bind_gets.
  assert (Hprefix : ∃ w1,
    (match leaderKoiFish (koiFish w self) with
     | Some leader => unsetLeaderFollower leader self
     | None => ret tt
     end) w = (Returned tt, w1)
    ∧ food w1 = food w ∧ position (koiFish w1 self) = position (koiFish w self)).
  { destruct (leaderKoiFish (koiFish w self)) as [L|].
    - destruct (unsetLeaderFollower_scene L self w) as (w1 & H1 & H2 & H3). eauto.
    - by exists w. }
  destruct Hprefix as (w1 & Hrun & Hfood & Hpos).
  erewrite bind_returned by exact Hrun.
  repeat (rewrite bind_updateKoiFish; cbn beta).
  repeat (rewrite bind_gets; cbn beta).
  set (w3 := set_koiFish _ _).
  assert (Hthis : targetPoint (koiFish w3 self) = PositionOfFood F
                  ∧ position (koiFish w3 self) = position (koiFish w self)).
  { unfold w3. simpl. rewrite !fn_lookup_insert. by simpl. }
  destruct Hthis as [-> ->].
  assert (Hderef : deref w3 (PositionOfFood F) = Food.position (food w F)).
  { unfold w3. simpl. by rewrite Hfood. }
  rewrite Hderef, (normalize_ok _ false Hoff). cbn [liftResult]. rewrite bind_ret_l.
  match goal with
  | |- fst (?m ?w0) = _ =>
      assert (Hs : succeeds m) by (unfold updateKoiFish; succeed);
      destruct (Hs w0) as ([] & w4 & ->)
  end.
  reflexivity.
Qed.


(** the food behaviour, when a food is in sight once the desired food has
    been dealt with *)
Lemma checkAndSetFoodBehavior_after_eating self F w w1 :
  eatDesiredFood self w = (Returned tt, w1) → sameScene w w1 →
  inSight w1 self F →
  fst (checkAndSetFoodBehavior self w) ≠ OutOfFuel
  ∧ pursuit self F (koiFish w) (koiFish (snd (checkAndSetFoodBehavior self w)))
  ∧ (distanceToFood w (koiFish w self) F ≠ 0 →
     fst (checkAndSetFoodBehavior self w) = Returned tt).
Proof.
  intros Heat Hs Hsight1. split; [apply ends_checkAndSetFoodBehavior|].
  unfold checkAndSetFoodBehavior.
  erewrite bind_returned by exact Heat.
  destruct (findClosestFood_inSight self F w1 Hsight1) as (cache & Hfind).
  erewrite bind_returned by exact Hfind.
  split.
  - pose proof (chaseFood_pursuit self F (set_adjacentIndicesCache cache w1)) as [Hc Hl].
    split; [exact Hc|].
    intros L HL. specialize (Hl L). simpl in Hl.
    rewrite (scene_leader _ _ Hs), (scene_left _ _ Hs) in Hl. by apply Hl.
  - intros Hoff. apply chaseFood_returns. simpl.
    rewrite (scene_position _ _ Hs), (scene_foodPosition _ _ Hs). exact Hoff.
Qed.

Lemma checkAndSetFoodBehavior_pursuit self F w :
  inSight w self F → ¬ eatsNow w self F →
  fst (checkAndSetFoodBehavior self w) ≠ OutOfFuel
  ∧ pursuit self F (koiFish w) (koiFish (snd (checkAndSetFoodBehavior self w)))
  ∧ (distanceToFood w (koiFish w self) F ≠ 0 →
     fst (checkAndSetFoodBehavior self w) = Returned tt).
Proof.
  intros Hsight Hnot.
  destruct (eatDesiredFood_scene self w) as (w1 & Heat & Hs & Hmono & Hkeep).
  apply (checkAndSetFoodBehavior_after_eating self F w w1 Heat Hs).
  eapply inSight_scene; eauto. apply Hkeep; [apply Hsight | done].
Qed.

(** the smoothing and the move, which follow the behaviour selection *)
Definition afterBehavior (self : ObjectId) : Eff World unit :=
  bind (smoothenDirectionChange self)
       (λ _, bind (smoothenSpeedChange self) (λ _, move self)).



(** with a food to chase, the behaviour selection stops after the food
    behaviour *)
Lemma selectBehavior_chasing fuel self F w :
  desiredFood (koiFish (snd (checkAndSetFoodBehavior self w)) self) = Some F →
  selectBehavior fuel self w = checkAndSetFoodBehavior self w.
Proof.
  intros HF. unfold selectBehavior, bind at 1.
  destruct (checkAndSetFoodBehavior self w) as [[[]|msg|] w1]; try done.
  simpl in HF. unfold getThis. unfold bind at 1.
  rewrite bind_gets. cbn beta. rewrite HF. unfold ret at 1.
  rewrite bind_gets. cbn beta. rewrite HF. reflexivity.
Qed.




End food_facts.

(* ================================================================= *)
(** ** The pond *)

Section pond_facts.
Import KoiFish koifish.
Local Open Scope R_scope.

Lemma magnitude_of (v : Vector.t) (d : R) :
  0 <= d → Vector.dx v * Vector.dx v + Vector.dy v * Vector.dy v = d * d →
  Vector.getMagnitude v = d.
Proof. intros Hd Hv. unfold Vector.getMagnitude. rewrite Hv. by apply sqrt_square. Qed.

Lemma pond_cell d :
  cellX (position (koiFish (scene.pond d) "koi")) = 2%Z
  ∧ cellY (position (koiFish (scene.pond d) "koi")) = 2%Z.
Proof.
  unfold cellX, cellY, canvasUtil.cellSize. simpl.
  split; apply Zfloor_eq; split; lra.
Qed.


Lemma pond_distance_f d :
  distanceToFood (scene.pond d) (koiFish (scene.pond d) "koi") "f" = 10.
Proof. apply magnitude_of; [lra | simpl; lra]. Qed.

Lemma pond_distance_g d :
  distanceToFood (scene.pond d) (koiFish (scene.pond d) "koi") "g" = 40.
Proof. apply magnitude_of; [lra | simpl; lra]. Qed.

Lemma pond_registered d G :
  registeredNear (scene.pond d) "koi" G ↔ G = "f" ∨ G = "g".
Proof.
  unfold registeredNear. destruct (pond_cell d) as [-> ->]. simpl. split.
  - intros (k & _ & Hin). destruct (decide (k = 42%Z)) as [->|Hk].
    + rewrite lookup_singleton_eq in Hin. simpl in Hin.
      apply elem_of_cons in Hin as [Hin|Hin]; [discriminate|].
      apply elem_of_cons in Hin as [Hin|Hin]; [left; congruence|].
      apply elem_of_cons in Hin as [Hin|Hin]; [right; congruence|].
      by apply elem_of_nil in Hin.
    + rewrite lookup_singleton_ne in Hin by done. by apply elem_of_nil in Hin.
  - intros HG. exists 42%Z. split.
    + exists 2%Z, 2%Z. repeat split; lia.
    + rewrite lookup_singleton_eq. simpl. destruct HG as [-> | ->]; set_solver.
Qed.

Lemma pond_cacheFresh d args : cacheFresh (scene.pond d) args.
Proof. intros l Hl. simpl in Hl. by rewrite lookup_empty in Hl. Qed.

(** the pellet "f" is in sight of the fish *)
Lemma pond_inSight d : inSight (scene.pond d) "koi" "f".
Proof.
  destruct (pond_cell d) as [Hx Hy]. split.
  - reflexivity.
  - discriminate.
  - rewrite Hx. simpl. lia.
  - rewrite Hy. simpl. lia.
  - apply pond_cacheFresh.
  - apply pond_registered. by left.
  - reflexivity.
  - intros G HG HGf _. apply pond_registered in HG as [->| ->]; [done|].
    rewrite pond_distance_f, pond_distance_g. lra.
Qed.
End pond_facts.

(* ================================================================= *)
(** ** A run of [update] that reaches the smoothing *)

Section smoothing_scene.
Import KoiFish koifish.
Local Open Scope R_scope.

(** the food behaviour reads neither the clock nor the random source *)
Lemma checkAndSetFoodBehavior_runtime rt self :
  preserves (λ w, runtime w = rt) (checkAndSetFoodBehavior self).
Proof.
  unfold checkAndSetFoodBehavior, eatDesiredFood, findClosestFood, chaseFood,
    ObjectManager.getNearbyObjects, unsetLeaderFollower, food.onEaten.
  repeat first
    [ apply preserves_ret | apply preserves_throw | apply preserves_gets
    | apply preserves_liftResult
    | apply preserves_modify; intros ? H; exact H
    | intros w0 Hw0; unfold canvasUtil.getAdjacentIndices;
      destruct (util.memoize _ _ _ _); exact Hw0
    | apply preserves_bind; [|intros ?]
    | match goal with
      | |- preserves _ (if ?c then _ else _) => destruct c
      | |- preserves _ (match ?x with _ => _ end) => destruct x
      end ].
Qed.

Definition updatedAt (x : ObjectId) (t : R) (h : ObjectId → KoiFish.t) : Prop :=
  lastUpdateTime (h x) = t.

Lemma checkAndSetFoodBehavior_updatedAt x t self :
  preserves (λ w, updatedAt x t (koiFish w)) (checkAndSetFoodBehavior self).
Proof.
  unfold checkAndSetFoodBehavior, eatDesiredFood, findClosestFood, chaseFood.
  walk ltac:(let h := fresh "h" in let Hh := fresh "Hh" in
             intros h Hh; unfold updatedAt in *;
             match goal with
             | |- context [<[?a := _]> _ ?b] => at_fish a b; exact Hh
             end).
Qed.
End smoothing_scene.

(* ================================================================= *)
(** ** Leader and follower (C3) *)

Section pairing_facts.
Import KoiFish koifish.
Local Open Scope R_scope.

(** a draw in [0, 1) picks an element of a non-empty array *)
Lemma getRandomItem_run {A} (items : list A) rt :
  0 <= random rt (draws rt) < 1 → items ≠ [] →
  ∃ x, x ∈ items
       ∧ randomUtil.getRandomItem items rt
         = (Returned (Some x), mkRuntime (clock rt) (ticks rt) (random rt) (S (draws rt))).
Proof.
  intros [Hr0 Hr1] Hne. unfold randomUtil.getRandomItem.
  destruct (decide (length items = 0%nat)) as [H0|H0].
  { by apply length_zero_iff_nil in H0. }
  set (r := random rt (draws rt)) in *.
  set (z := Zfloor (r * INR (length items))).
  assert (Hlen : 0 < INR (length items)) by (apply lt_0_INR; lia).
  assert (Hz0 : (0 ≤ z)%Z) by (apply Zfloor_lub; simpl; nra).
  assert (Hz1 : (z < Z.of_nat (length items))%Z).
  { apply lt_IZR. rewrite <- INR_IZR_INZ.
    pose proof (Zfloor_bound (r * INR (length items))) as [Hb _]. fold z in Hb. nra. }
  destruct (lookup_lt_is_Some_2 items (Z.to_nat z)) as [x Hx]; [lia|].
  exists x. split; [by eapply list_elem_of_lookup_2|].
  unfold bind, Math_random, ret. fold r. fold z.
  rewrite decide_True by done. by rewrite Hx.
Qed.

Lemma getRandomEdgePoint_run d w :
  0 <= random (runtime w) (draws (runtime w)) < 1 →
  ∃ p w', canvasUtil.getRandomEdgePoint d w = (Returned p, w') ∧ koiFish w' = koiFish w
          ∧ canvas w' = canvas w.
Proof.
  intros Hr.
  destruct (getRandomItem_run
              [canvasUtil.getTopEdgePoint; canvasUtil.getBottomEdgePoint;
               canvasUtil.getLeftEdgePoint; canvasUtil.getRightEdgePoint]
              (runtime w) Hr ltac:(done)) as (f & Hf & Hrun).
  unfold canvasUtil.getRandomEdgePoint, bind at 1, liftRuntime. rewrite Hrun.
  repeat (apply elem_of_cons in Hf as [->|Hf]); [| | | |by apply elem_of_nil in Hf];
    by eexists _, _.
Qed.

(** the links of a fish to its leader *)
Definition linked (self L : ObjectId) (l : option ObjectId) (lf rf : option ObjectId)
    (h : ObjectId → KoiFish.t) : Prop :=
  leaderKoiFish (h self) = l ∧ leftFollower (h L) = lf ∧ rightFollower (h L) = rf.

Ltac linked_step :=
  let h := fresh "h" in let H1 := fresh "H" in let H2 := fresh "H" in let H3 := fresh "H" in
  intros h (H1 & H2 & H3); unfold linked;
  match goal with
  | |- context [<[?a := _]> _ _] =>
      split; [|split];
      match goal with
      | |- context [<[_ := _]> _ ?b] => at_fish a b; assumption
      end
  end.

Lemma handleOutOfBounds_linked self x L l lf rf :
  preserves (λ w, linked x L l lf rf (koiFish w)) (handleOutOfBounds self).
Proof. unfold handleOutOfBounds. walk linked_step. Qed.

Lemma startUpdate_linked self x L l lf rf :
  preserves (λ w, linked x L l lf rf (koiFish w)) (startUpdate self).
Proof. unfold startUpdate. walk linked_step. Qed.

(** the target point of the fish is a point of its own *)
Definition targetsOwnPoint (self : ObjectId) (p : Point.t) (h : ObjectId → KoiFish.t) : Prop :=
  targetPoint (h self) = OwnPoint p.

Lemma handleOutOfBounds_retargets self w :
  0 <= random (runtime w) (draws (runtime w)) < 1 →
  ∃ p, targetPoint (koiFish (snd (handleOutOfBounds self w)) self) = OwnPoint p.
Proof.
  intros Hr. unfold handleOutOfBounds.
  destruct (getRandomEdgePoint_run (8 / 10 * Rabs canvasExitDistance) w Hr)
    as (p & w1 & Hrun & _).
  erewrite bind_returned by exact Hrun.
  rewrite bind_updateKoiFish. cbn beta. rewrite bind_gets. cbn beta.
  set (w2 := set_koiFish _ w1).
  assert (Hpoint : ∃ t w3, liftRuntime (Point.getRandomPoint (canvas w2) (8 / 10)) w2
                           = (Returned t, w3)) by (by eexists _, _).
  destruct Hpoint as (t & w3 & Hpoint).
  erewrite bind_returned by exact Hpoint.
  rewrite bind_updateKoiFish. cbn beta.
  exists t.
  apply (preserves_apply (λ w0, targetsOwnPoint self _ (koiFish w0))).
  - walk ltac:(let h := fresh "h" in let Hh := fresh "Hh" in
               intros h Hh; unfold targetsOwnPoint in *;
               match goal with
               | |- context [<[?a := _]> _ ?b] => at_fish a b; exact Hh
               end).
  - unfold targetsOwnPoint. simpl. by rewrite fn_lookup_insert.
Qed.
End pairing_facts.

(** C3 (the code breaks the pairing invariant).  When a follower is beyond
    the exit distance of the canvas, [update()] takes the early return: the
    fish gets a fresh target point of its own, but keeps its leader, and the
    leader keeps the fish in its slot.  The fish is still paired while its
    target point is no longer the follow point of its leader. *)
Theorem C3_out_of_bounds_reset_keeps_the_pairing :
  ∀ (fuel : nat) (self L : ObjectId) (w : World),
    (canvasUtil.getDistanceToCanvasBorder (canvas w) (KoiFish.position (koiFish w self))
     < koifish.canvasExitDistance)%R →
    KoiFish.leaderKoiFish (koiFish w self) = Some L →
    KoiFish.leftFollower (koiFish w L) = Some self →
    KoiFish.targetPoint (koiFish w self) = LeftFollowPointOf L →
    (0 <= random (runtime w) (draws (runtime w)) < 1)%R →
    let w' := snd (koifish.update fuel self w) in
    KoiFish.leaderKoiFish (koiFish w' self) = Some L
    ∧ KoiFish.leftFollower (koiFish w' L) = Some self
    ∧ KoiFish.rightFollower (koiFish w' L) = KoiFish.rightFollower (koiFish w L)
    ∧ (∃ p, KoiFish.targetPoint (koiFish w' self) = OwnPoint p)
    ∧ KoiFish.targetPoint (koiFish w' self) ≠ LeftFollowPointOf L.
Proof.
  intros fuel self L w Hout Hleader Hleft Htarget Hr w'.
  destruct (startUpdate_scene self w) as (w1 & Hstart & Hs & _).
  assert (Hupdate : koifish.update fuel self w = koifish.handleOutOfBounds self w1).
  { unfold koifish.update. erewrite bind_returned by exact Hstart.
    unfold koifish.getThis. rewrite !bind_gets.
    rewrite (scene_position _ _ Hs), (scene_canvas _ _ Hs).
    destruct (Rlt_dec _ _); [reflexivity | contradiction]. }
  unfold w'. rewrite Hupdate.
  assert (Hlinked : linked self L (Some L) (Some self)
                      (KoiFish.rightFollower (koiFish w L)) (koiFish w1)).
  { unfold linked.
    by rewrite (scene_leader _ _ Hs), (scene_left _ _ Hs), (scene_right _ _ Hs). }
  apply (handleOutOfBounds_linked self) in Hlinked as (H1 & H2 & H3).
  destruct (handleOutOfBounds_retargets self w1) as (p & Hp).
  { by rewrite (scene_runtime _ _ Hs). }
  split; [exact H1|]. split; [exact H2|]. split; [exact H3|].
  split; [by exists p|]. rewrite Hp. discriminate.
Qed.

(** the shoal: "koi", 30 units beyond the left border, follows "big" *)
Lemma C3_witness :
  let w := scene.shoal in
  let w' := snd (koifish.update 0 "koi" w) in
  (canvasUtil.getDistanceToCanvasBorder (canvas w) (KoiFish.position (koiFish w "koi"))
   < koifish.canvasExitDistance)%R
  ∧ KoiFish.leaderKoiFish (koiFish w "koi") = Some "big"
  ∧ KoiFish.leftFollower (koiFish w "big") = Some "koi"
  ∧ KoiFish.targetPoint (koiFish w "koi") = LeftFollowPointOf "big"
  ∧ KoiFish.leaderKoiFish (koiFish w' "koi") = Some "big"
  ∧ KoiFish.leftFollower (koiFish w' "big") = Some "koi"
  ∧ KoiFish.targetPoint (koiFish w' "koi") ≠ LeftFollowPointOf "big".
Proof.
  intros w w'.
  assert (Hout : (canvasUtil.getDistanceToCanvasBorder (canvas w)
                    (KoiFish.position (koiFish w "koi")) < koifish.canvasExitDistance)%R).
  { unfold canvasUtil.getDistanceToCanvasBorder, koifish.canvasExitDistance. simpl.
    unfold Js.gtb, Js.ltb, Rmin, Rabs.
    repeat first [destruct (Rlt_dec _ _) | destruct (Rle_dec _ _) | destruct (Rcase_abs _)];
      simpl; lra. }
  assert (Hr : (0 <= random (runtime w) (draws (runtime w)) < 1)%R) by (simpl; lra).
  destruct (C3_out_of_bounds_reset_keeps_the_pairing 0 "koi" "big" w Hout
              eq_refl eq_refl eq_refl Hr) as (H1 & H2 & _ & _ & H5).
  repeat split; done.
Defined.

Section pairing_calls.
Import KoiFish koifish.

(** pairing sets both sides and the target point *)
Lemma setLeaderFollower_pairs (leader follower : ObjectId) (side : option string) (w : World) :
  leader ≠ follower →
  let w' := snd (setLeaderFollower leader follower side w) in
  fst (setLeaderFollower leader follower side w) = Returned tt
  ∧ leaderKoiFish (koiFish w' follower) = Some leader
  ∧ (if decide (side = Some LEFT_SIDE)
     then leftFollower (koiFish w' leader) = Some follower
          ∧ targetPoint (koiFish w' follower) = LeftFollowPointOf leader
     else rightFollower (koiFish w' leader) = Some follower
          ∧ targetPoint (koiFish w' follower) = RightFollowPointOf leader).
Proof.
  intros Hne w'. unfold w', setLeaderFollower.
  destruct (decide (side = Some LEFT_SIDE)); simpl;
    rewrite ?fn_lookup_insert, ?(fn_lookup_insert_ne _ follower leader),
      ?fn_lookup_insert by done; simpl;
    rewrite ?fn_lookup_insert, ?(fn_lookup_insert_ne _ leader follower),
      ?fn_lookup_insert by done; done.
Qed.

(** unpairing clears both sides in the one call, when the follower sits in
    one slot of its leader *)
Lemma unsetLeaderFollower_clears (leader follower : ObjectId) (w : World) :
  leader ≠ follower →
  (leftFollower (koiFish w leader) = Some follower
   ∧ rightFollower (koiFish w leader) ≠ Some follower)
  ∨ (leftFollower (koiFish w leader) ≠ Some follower
     ∧ rightFollower (koiFish w leader) = Some follower) →
  let w' := snd (unsetLeaderFollower leader follower w) in
  fst (unsetLeaderFollower leader follower w) = Returned tt
  ∧ leaderKoiFish (koiFish w' follower) = None
  ∧ leftFollower (koiFish w' leader) ≠ Some follower
  ∧ rightFollower (koiFish w' leader) ≠ Some follower.
Proof.
  intros Hne Hslot w'. unfold w', unsetLeaderFollower, getThis. rewrite bind_gets.
  destruct (decide (leftFollower (koiFish w leader) = Some follower)) as [Hl|Hl]; simpl;
    rewrite ?fn_lookup_insert, ?(fn_lookup_insert_ne _ follower leader),
      ?fn_lookup_insert by done; simpl;
    destruct Hslot as [[? ?]|[? ?]]; done.
Qed.
End pairing_calls.

(* ================================================================= *)
(** ** The re-entry of a wave (C9) *)

Section wave_facts.
Local Open Scope R_scope.

(** the runtime after [n] more random draws *)
Definition drawn (n : nat) (rt : Runtime) : Runtime :=
  mkRuntime (clock rt) (ticks rt) (random rt) (n + draws rt).




End wave_facts.

Section wave_update.
Local Open Scope R_scope.

(** where [update] moves the wave before it looks at the bounds *)
Definition translated (w : World) (self : ObjectId) : Point.t :=
  let this := wave w self in
  let rt := runtime w in
  let elapsed := timeUtil.elapsedSeconds (clock rt (ticks rt)) (Wave.lastUpdateTime this) in
  snd (Point.applyVector (Wave.position this)
         (fst (Vector.scale (Wave.direction this) (Wave.speed this * elapsed) false))
         true).

(** the [i]-th random draw from now on *)
Definition draw (w : World) (i : nat) : R :=
  random (runtime w) (i + draws (runtime w)).


End wave_update.

Section wave_reentry.
Local Open Scope R_scope.


End wave_reentry.

Section river_scene.
Local Open Scope R_scope.


End river_scene.



(* ================================================================= *)
(* ================================================================= *)
(** * Further properties of the code *)

(** ** geometry/Vector.ts: rotation, scaling, angles *)

Section vector_geometry.
Local Open Scope R_scope.
Import Vector.

Lemma sin2_cos2_mult (t : R) : sin t * sin t + cos t * cos t = 1.
Proof. pose proof (sin2_cos2 t) as H. unfold Rsqr in H. exact H. Qed.

Lemma rotated_sum_sqr (a b t : R) :
  (a * cos t - b * sin t) * (a * cos t - b * sin t)
  + (a * sin t + b * cos t) * (a * sin t + b * cos t)
  = a * a + b * b.
Proof.
  pose proof (sin2_cos2_mult t) as H.
  replace ((a * cos t - b * sin t) * (a * cos t - b * sin t)
           + (a * sin t + b * cos t) * (a * sin t + b * cos t))
    with ((a * a + b * b) * (sin t * sin t + cos t * cos t)) by ring.
  rewrite H. ring.
Qed.

Lemma rotateVector_magnitude v angle mutate :
  getMagnitude (fst (rotateVector v angle mutate)) = getMagnitude v.
Proof.
  unfold rotateVector, withMutate, getMagnitude. cbn [fst dx dy].
  by rewrite rotated_sum_sqr.
Qed.

Lemma rotateVector_add v a b :
  fst (rotateVector (fst (rotateVector v a false)) b false)
  = fst (rotateVector v (a + b) false).
Proof.
  unfold rotateVector, withMutate. cbn [fst dx dy].
  replace (- (a + b) * PI / 180) with (- a * PI / 180 + - b * PI / 180) by field.
  rewrite cos_plus, sin_plus. f_equal; ring.
Qed.

Lemma sqrt_sqr_abs (k : R) : sqrt (k * k) = Rabs k.
Proof. apply (sqrt_Rsqr_abs k). Qed.

Lemma scale_magnitude v k mutate :
  getMagnitude (fst (scale v k mutate)) = Rabs k * getMagnitude v.
Proof.
  unfold scale, withMutate, getMagnitude. cbn [fst dx dy].
  replace (dx v * k * (dx v * k) + dy v * k * (dy v * k))
    with (k * k * (dx v * dx v + dy v * dy v)) by ring.
  rewrite sqrt_mult; [|nra|nra]. by rewrite sqrt_sqr_abs.
Qed.
End vector_geometry.

(** X1.  [rotateVector] keeps the length of the vector, whatever the angle
    and the [mutate] flag; two rotations in a row are the rotation by the
    sum of the angles, so that rotating back by the opposite angle restores
    the vector; and with [mutate] the receiver is the returned vector,
    without it the receiver is untouched. *)
Theorem X1_rotation_keeps_length_and_composes :
  ∀ (v : Vector.t) (a b : R) (mutate : bool),
    Vector.getMagnitude (fst (Vector.rotateVector v a mutate)) = Vector.getMagnitude v
    ∧ fst (Vector.rotateVector (fst (Vector.rotateVector v a false)) b false)
      = fst (Vector.rotateVector v (a + b) false)
    ∧ fst (Vector.rotateVector (fst (Vector.rotateVector v a false)) (- a) false) = v
    ∧ snd (Vector.rotateVector v a mutate)
      = (if mutate then fst (Vector.rotateVector v a mutate) else v).
Proof.
  intros v a b mutate.
  split; [apply rotateVector_magnitude|].
  split; [apply rotateVector_add|].
  split; [|by destruct mutate].
  rewrite rotateVector_add.
  replace (a + - a)%R with 0%R by ring. apply rotateVector_0.
Qed.

(** X2.  [scale] multiplies the length by the absolute value of the factor;
    and a vector is recovered from its normalisation: scaling the unit
    vector returned by [normalize] by the length of the original gives the
    original vector back (when [normalize] throws, the vector is the zero
    vector). *)
Theorem X2_scale_and_normalize_round_trip :
  ∀ (v : Vector.t) (k : R) (mutate : bool),
    Vector.getMagnitude (fst (Vector.scale v k mutate))
    = (Rabs k * Vector.getMagnitude v)%R
    ∧ match Vector.normalize v false with
      | Ok (unit, _) => fst (Vector.scale unit (Vector.getMagnitude v) false) = v
      | Err _ => v = Vector.mk 0 0
      end.
Proof.
  intros v k mutate. split; [apply scale_magnitude|].
  destruct (Req_dec (Vector.getMagnitude v) 0) as [Hz|Hnz].
  - pose proof (proj1 (magnitude_zero_iff v) Hz) as [Hx Hy].
    unfold Vector.normalize, Vector.getMagnitude in *.
    destruct (Req_dec_T _ 0); [|contradiction].
    destruct v as [a b]. simpl in *. by subst.
  - rewrite (normalize_ok v false Hnz). unfold withMutate.
    unfold Vector.scale, withMutate. cbn [fst Vector.dx Vector.dy].
    destruct v as [a b]. cbn [Vector.dx Vector.dy] in *. f_equal; field; exact Hnz.
Qed.

Section angle_facts.
Local Open Scope R_scope.
Import Vector.

Lemma atan_nonneg (u : R) : 0 <= u → 0 <= atan u.
Proof.
  intros [H| <-]; [|rewrite atan_0; lra].
  left. rewrite <- atan_0. by apply atan_increasing.
Qed.

Lemma atan_nonpos (u : R) : u <= 0 → atan u <= 0.
Proof.
  intros [H| ->]; [|rewrite atan_0; lra].
  left. rewrite <- atan_0. by apply atan_increasing.
Qed.

Lemma atan_pos (u : R) : 0 < u → 0 < atan u.
Proof. intros H. rewrite <- atan_0. by apply atan_increasing. Qed.

(** [Math.atan2] ranges over (-PI, PI] *)
Lemma atan2_bound (b a : R) : - PI < Js.atan2 b a <= PI.
Proof.
  pose proof PI_RGT_0 as Hpi. unfold Js.atan2.
  destruct (Rlt_dec 0 a) as [Ha|Ha].
  - pose proof (atan_bound (b / a)). lra.
  - destruct (Rlt_dec a 0) as [Ha'|Ha'].
    + pose proof (atan_bound (b / a)) as Hb.
      destruct (Rle_dec 0 b) as [Hb0|Hb0].
      * assert (b / a <= 0).
        { unfold Rdiv. assert (/ a < 0) by (by apply Rinv_lt_0_compat). nra. }
        pose proof (atan_nonpos _ H). lra.
      * assert (0 < b / a).
        { unfold Rdiv. assert (/ a < 0) by (by apply Rinv_lt_0_compat). nra. }
        pose proof (atan_pos _ H). lra.
    + destruct (Rlt_dec 0 b); [lra|]. destruct (Rlt_dec b 0); lra.
Qed.

Lemma degrees_bound (t : R) : - PI < t <= PI → -180 < t * (180 / PI) <= 180.
Proof.
  intros [H1 H2]. pose proof PI_RGT_0 as Hpi.
  assert (Hk : 0 < 180 / PI) by (apply Rdiv_lt_0_compat; lra).
  assert (Hone : PI * (180 / PI) = 180) by (field; lra).
  split; nra.
Qed.

Lemma getAngle_bound v : 0 <= getAngle v < 360.
Proof.
  unfold getAngle.
  pose proof (degrees_bound _ (atan2_bound (dx v) (dy v))) as H.
  destruct (Rlt_dec _ 0); lra.
Qed.

Lemma signedAngleBetween_bound a b : -180 <= signedAngleBetween a b <= 180.
Proof.
  unfold signedAngleBetween.
  pose proof (degrees_bound _ (atan2_bound (dy a) (dx a))) as Ha.
  pose proof (degrees_bound _ (atan2_bound (dy b) (dx b))) as Hb.
  rewrite Rmult_minus_distr_r.
  set (A := Js.atan2 (dy a) (dx a) * (180 / PI)) in *.
  set (B := Js.atan2 (dy b) (dx b) * (180 / PI)) in *.
  destruct (Rgt_dec (A - B) 180); destruct (Rlt_dec _ (-180)); lra.
Qed.

Lemma signedAngleBetween_antisym a b :
  signedAngleBetween a b = - signedAngleBetween b a.
Proof.
  unfold signedAngleBetween.
  pose proof (degrees_bound _ (atan2_bound (dy a) (dx a))) as Ha.
  pose proof (degrees_bound _ (atan2_bound (dy b) (dx b))) as Hb.
  rewrite !Rmult_minus_distr_r.
  set (A := Js.atan2 (dy a) (dx a) * (180 / PI)) in *.
  set (B := Js.atan2 (dy b) (dx b) * (180 / PI)) in *.
  destruct (Rgt_dec (A - B) 180); destruct (Rgt_dec (B - A) 180);
    repeat destruct (Rlt_dec _ (-180)); lra.
Qed.
End angle_facts.

(** X3.  [getAngle] is the heading in degrees from vertical, clockwise, in
    the range [0, 360): 0 for up, 90 for right, 180 for down and 270 for
    left. *)
Theorem X3_getAngle_is_a_compass_heading :
  (∀ v : Vector.t, (0 <= Vector.getAngle v < 360)%R)
  ∧ Vector.getAngle Vector.UP = 0%R
  ∧ Vector.getAngle Vector.RIGHT = 90%R
  ∧ Vector.getAngle Vector.DOWN = 180%R
  ∧ Vector.getAngle Vector.LEFT = 270%R.
Proof.
  pose proof PI_RGT_0 as Hpi.
  split; [apply getAngle_bound|].
  unfold Vector.getAngle, Js.atan2, Vector.UP, Vector.RIGHT, Vector.DOWN, Vector.LEFT.
  cbn [Vector.dx Vector.dy].
  repeat split.
  - destruct (Rlt_dec 0 1); [|lra].
    replace (0 / 1)%R with 0%R by field. rewrite atan_0.
    destruct (Rlt_dec _ 0); lra.
  - destruct (Rlt_dec 0 0); [lra|]. destruct (Rlt_dec 0 1); [|lra].
    replace (PI / 2 * (180 / PI))%R with 90%R by (field; lra).
    destruct (Rlt_dec 90 0); lra.
  - destruct (Rlt_dec 0 (-1)); [lra|]. destruct (Rlt_dec (-1) 0); [|lra].
    destruct (Rle_dec 0 0); [|lra].
    replace (0 / -1)%R with 0%R by field. rewrite atan_0.
    replace ((0 + PI) * (180 / PI))%R with 180%R by (field; lra).
    destruct (Rlt_dec 180 0); lra.
  - destruct (Rlt_dec 0 0); [lra|]. destruct (Rlt_dec 0 (-1)); [lra|].
    destruct (Rlt_dec (-1) 0); [|lra].
    replace (- (PI / 2) * (180 / PI))%R with (-90)%R by (field; lra).
    destruct (Rlt_dec (-90) 0); lra.
Qed.

(** X4.  [signedAngleBetween] is normalised to the range [-180, 180], is
    antisymmetric in its arguments, and is 0 between a vector and itself. *)
Theorem X4_signedAngleBetween_is_normalised :
  ∀ a b : Vector.t,
    (-180 <= Vector.signedAngleBetween a b <= 180)%R
    ∧ Vector.signedAngleBetween a b = (- Vector.signedAngleBetween b a)%R
    ∧ Vector.signedAngleBetween a a = 0%R.
Proof.
  intros a b. split; [apply signedAngleBetween_bound|].
  split; [apply signedAngleBetween_antisym|].
  pose proof (signedAngleBetween_antisym a a). lra.
Qed.

Section steering_facts.
Local Open Scope R_scope.
Import Vector.

Lemma sqrt_one_plus_sqr_quotient (a b : R) :
  a ≠ 0 → sqrt (1 + (b / a)²) = sqrt (a * a + b * b) / Rabs a.
Proof.
  intros Ha.
  assert (Habs : 0 < Rabs a) by (by apply Rabs_pos_lt).
  assert (Hsq : Rabs a * Rabs a = a * a).
  { unfold Rabs. destruct (Rcase_abs a); ring. }
  replace (1 + (b / a)²) with ((a * a + b * b) / (Rabs a * Rabs a)).
  - rewrite sqrt_div_alt by nra. by rewrite sqrt_square by lra.
  - rewrite Hsq. unfold Rsqr. field. exact Ha.
Qed.

(** a vector in polar form: the angle is [Math.atan2(dy, dx)] *)
Lemma atan2_polar (a b : R) :
  let r := sqrt (a * a + b * b) in
  a = r * cos (Js.atan2 b a) ∧ b = r * sin (Js.atan2 b a).
Proof.
  intros r. unfold Js.atan2.
  assert (Hr0 : 0 <= r) by apply sqrt_pos.
  destruct (Rlt_dec 0 a) as [Ha|Ha]; [|destruct (Rlt_dec a 0) as [Ha'|Ha']].
  - assert (Hne : a ≠ 0) by lra.
    pose proof (sqrt_one_plus_sqr_quotient a b Hne) as Hs. fold r in Hs.
    rewrite (Rabs_pos_eq a) in Hs by lra.
    assert (Hr : 0 < r).
    { apply sqrt_lt_R0. nra. }
    rewrite cos_atan, sin_atan, Hs. split; field; lra.
  - assert (Hne : a ≠ 0) by lra.
    pose proof (sqrt_one_plus_sqr_quotient a b Hne) as Hs. fold r in Hs.
    rewrite (Rabs_left a) in Hs by lra.
    assert (Hr : 0 < r).
    { apply sqrt_lt_R0. nra. }
    destruct (Rle_dec 0 b).
    + rewrite neg_cos, neg_sin, cos_atan, sin_atan, Hs. split; field; lra.
    + unfold Rminus. rewrite <- (cos_neg (_ + - PI)), <- (Ropp_involutive (sin (_ + - PI))).
      rewrite <- sin_neg.
      replace (- (atan (b / a) + - PI)) with (- atan (b / a) + PI) by ring.
      rewrite neg_cos, neg_sin, cos_neg, sin_neg, cos_atan, sin_atan, Hs.
      split; field; lra.
  - assert (a = 0) as -> by lra.
    assert (Hrb : r = Rabs b).
    { unfold r. replace (0 * 0 + b * b) with (b * b) by ring. apply sqrt_sqr_abs. }
    destruct (Rlt_dec 0 b); [|destruct (Rlt_dec b 0)].
    + rewrite cos_PI2, sin_PI2, Hrb, Rabs_pos_eq by lra. lra.
    + rewrite cos_neg, sin_neg, cos_PI2, sin_PI2, Hrb, Rabs_left by lra. lra.
    + assert (b = 0) as -> by lra. rewrite Hrb, Rabs_R0. lra.
Qed.

(** the rotation angle of [signedAngleBetween], in radians, is the
    difference of the polar angles up to a full turn *)
Lemma signedAngleBetween_radians a b :
  let A := Js.atan2 (dy a) (dx a) in
  let B := Js.atan2 (dy b) (dx b) in
  let t := - signedAngleBetween a b * PI / 180 in
  cos t = cos (B - A) ∧ sin t = sin (B - A).
Proof.
  intros A B t. pose proof PI_RGT_0 as Hpi. unfold t, signedAngleBetween.
  fold A. fold B.
  set (d := (A - B) * (180 / PI)).
  assert (Hd : - d * PI / 180 = B - A) by (unfold d; field; lra).
  destruct (Rgt_dec d 180).
  - destruct (Rlt_dec (d - 360) (-180)).
    + replace (- (d - 360 + 360) * PI / 180) with (B - A) by lra. done.
    + replace (- (d - 360) * PI / 180) with (B - A + 2 * INR 1 * PI)
        by (simpl; rewrite <- Hd; field).
      by rewrite cos_period, sin_period.
  - destruct (Rlt_dec d (-180)).
    + replace (B - A) with (- (d + 360) * PI / 180 + 2 * INR 1 * PI)
        by (simpl; rewrite <- Hd; field).
      by rewrite cos_period, sin_period.
    + by rewrite Hd.
Qed.

Lemma rotate_by_signedAngle a b :
  let rotated := fst (rotateVector a (signedAngleBetween a b) false) in
  dx rotated * getMagnitude b = getMagnitude a * dx b
  ∧ dy rotated * getMagnitude b = getMagnitude a * dy b.
Proof.
  intros rotated. unfold rotated, rotateVector, withMutate. cbn [fst dx dy].
  destruct (signedAngleBetween_radians a b) as [-> ->].
  destruct (atan2_polar (dx a) (dy a)) as [Hax Hay].
  destruct (atan2_polar (dx b) (dy b)) as [Hbx Hby].
  unfold getMagnitude.
  set (ra := sqrt (dx a * dx a + dy a * dy a)) in *.
  set (rb := sqrt (dx b * dx b + dy b * dy b)) in *.
  set (A := Js.atan2 (dy a) (dx a)) in *.
  set (B := Js.atan2 (dy b) (dx b)) in *.
  assert (HcB : cos B = cos A * cos (B - A) - sin A * sin (B - A)).
  { rewrite <- cos_plus. f_equal. ring. }
  assert (HsB : sin B = sin A * cos (B - A) + cos A * sin (B - A)).
  { rewrite <- sin_plus. f_equal. ring. }
  split.
  - rewrite Hbx, HcB. rewrite Hax at 1. rewrite Hay at 1. ring.
  - rewrite Hby, HsB. rewrite Hax at 1. rewrite Hay at 1. ring.
Qed.
End steering_facts.

(** X5.  Turning a vector by its signed angle to another vector aligns it
    with that vector: [a.rotateVector(signedAngleBetween(a, b))] has the
    length of [a] and the direction of [b] (it is [b] scaled by
    [|a| / |b|]).  For unit vectors the result is [b] itself. *)
Theorem X5_rotating_by_the_signed_angle_aligns :
  ∀ a b : Vector.t,
    let rotated := fst (Vector.rotateVector a (Vector.signedAngleBetween a b) false) in
    Vector.getMagnitude rotated = Vector.getMagnitude a
    ∧ (Vector.dx rotated * Vector.getMagnitude b = Vector.getMagnitude a * Vector.dx b)%R
    ∧ (Vector.dy rotated * Vector.getMagnitude b = Vector.getMagnitude a * Vector.dy b)%R
    ∧ (Vector.getMagnitude a = 1%R → Vector.getMagnitude b = 1%R → rotated = b).
Proof.
  intros a b rotated.
  destruct (rotate_by_signedAngle a b) as [Hx Hy]. fold rotated in Hx, Hy.
  split; [apply rotateVector_magnitude|]. split; [exact Hx|]. split; [exact Hy|].
  intros Ha Hb. rewrite Ha, Hb in *.
  destruct rotated as [x y], b as [bx by']. cbn [Vector.dx Vector.dy] in *.
  f_equal; lra.
Qed.

(* ================================================================= *)
(** ** geometry/Point.ts *)

Section point_facts.
Local Open Scope R_scope.
Import Point.

Lemma getDistanceTo_sym p q : getDistanceTo p q = getDistanceTo q p.
Proof.
  unfold getDistanceTo, getVectorTo, Vector.getMagnitude. cbn [Vector.dx Vector.dy].
  f_equal. ring.
Qed.

Lemma getDistanceTo_zero p q : getDistanceTo p q = 0 ↔ p = q.
Proof.
  unfold getDistanceTo. rewrite magnitude_zero_iff. unfold getVectorTo.
  cbn [Vector.dx Vector.dy]. destruct p as [a b], q as [c d]. cbn [x y]. split.
  - intros [H1 H2]. f_equal; lra.
  - intros [= -> ->]. lra.
Qed.

(** the triangle inequality, on coordinates *)
Lemma magnitude_triangle (a b c d : R) :
  sqrt ((a + c) * (a + c) + (b + d) * (b + d))
  <= sqrt (a * a + b * b) + sqrt (c * c + d * d).
Proof.
  set (u := sqrt (a * a + b * b)). set (v := sqrt (c * c + d * d)).
  assert (Hu : 0 <= u) by apply sqrt_pos.
  assert (Hv : 0 <= v) by apply sqrt_pos.
  assert (Hu2 : u * u = a * a + b * b) by (apply sqrt_sqrt; nra).
  assert (Hv2 : v * v = c * c + d * d) by (apply sqrt_sqrt; nra).
  assert (Hcs : a * c + b * d <= u * v).
  { destruct (Rle_dec (a * c + b * d) 0) as [Hneg|Hpos]; [nra|].
    apply Rnot_le_lt in Hpos.
    assert (Hsq : (a * c + b * d) * (a * c + b * d) <= (u * v) * (u * v)).
    { replace (u * v * (u * v)) with ((u * u) * (v * v)) by ring.
      rewrite Hu2, Hv2.
      replace ((a * a + b * b) * (c * c + d * d))
        with ((a * c + b * d) * (a * c + b * d) + (a * d - b * c) * (a * d - b * c))
        by ring.
      pose proof (sum_sqr_nonneg (a * d - b * c) 0). lra. }
    assert (Huv : 0 <= u * v) by (by apply Rmult_le_pos).
    set (s := a * c + b * d) in *. set (t := u * v) in *.
    destruct (Rle_dec s t) as [|Hgt]; [done|]. apply Rnot_le_lt in Hgt.
    assert (t * t < s * s) by nra. lra. }
  rewrite <- (sqrt_square (u + v)) by lra.
  apply sqrt_le_1_alt. nra.
Qed.

Lemma getDistanceTo_triangle p q r :
  getDistanceTo p r <= getDistanceTo p q + getDistanceTo q r.
Proof.
  unfold getDistanceTo, getVectorTo, Vector.getMagnitude. cbn [Vector.dx Vector.dy].
  pose proof (magnitude_triangle (x q - x p) (y q - y p) (x r - x q) (y r - y q)) as H.
  replace (x q - x p + (x r - x q)) with (x r - x p) in H by ring.
  replace (y q - y p + (y r - y q)) with (y r - y p) in H by ring.
  exact H.
Qed.

(** [rotateAround] is [Vector.rotateVector] applied to the offset from the
    pivot *)
Lemma rotateAround_as_vector p c angle :
  fst (rotateAround p c angle false)
  = fst (applyVector c (fst (Vector.rotateVector (getVectorTo c p) angle false)) false).
Proof.
  unfold rotateAround, applyVector, Vector.rotateVector, getVectorTo, withMutate.
  cbn [fst x y Vector.dx Vector.dy].
  replace (- angle * PI / 180) with (- (angle * PI / 180)) by field.
  rewrite cos_neg, sin_neg. f_equal; ring.
Qed.

Lemma rotateAround_isometry p q c angle :
  getDistanceTo (fst (rotateAround p c angle false)) (fst (rotateAround q c angle false))
  = getDistanceTo p q.
Proof.
  unfold getDistanceTo, getVectorTo, rotateAround, withMutate, Vector.getMagnitude.
  cbn [fst x y Vector.dx Vector.dy].
  set (t := angle * PI / 180).
  pose proof (sin2_cos2_mult t) as H. f_equal.
  set (a := x q - x p). set (b := y q - y p).
  replace ((x q - x c) * cos t + (y q - y c) * sin t + x c
           - ((x p - x c) * cos t + (y p - y c) * sin t + x c))
    with (a * cos t + b * sin t) by (unfold a, b; ring).
  replace (- (x q - x c) * sin t + (y q - y c) * cos t + y c
           - (- (x p - x c) * sin t + (y p - y c) * cos t + y c))
    with (- a * sin t + b * cos t) by (unfold a, b; ring).
  replace ((a * cos t + b * sin t) * (a * cos t + b * sin t)
           + (- a * sin t + b * cos t) * (- a * sin t + b * cos t))
    with ((a * a + b * b) * (sin t * sin t + cos t * cos t)) by ring.
  rewrite H. ring.
Qed.

Lemma rotateAround_pivot c angle : fst (rotateAround c c angle false) = c.
Proof.
  unfold rotateAround, withMutate. cbn [fst]. destruct c as [a b]. cbn [x y].
  f_equal; ring.
Qed.
End point_facts.

(** X6.  Points and vectors agree: applying to [p] the vector from [p] to
    [q] lands on [q] (and changes [p] itself only under [mutate]); the
    distance is symmetric, is zero exactly between equal points, and obeys
    the triangle inequality. *)
Theorem X6_vector_between_points_round_trip :
  ∀ (p q r : Point.t) (mutate : bool),
    Point.applyVector p (Point.getVectorTo p q) mutate = (q, if mutate then q else p)
    ∧ Point.getDistanceTo p q = Point.getDistanceTo q p
    ∧ (Point.getDistanceTo p q = 0%R ↔ p = q)
    ∧ (Point.getDistanceTo p r <= Point.getDistanceTo p q + Point.getDistanceTo q r)%R.
Proof.
  intros p q r mutate.
  split; [|split; [apply getDistanceTo_sym|split;
                   [apply getDistanceTo_zero | apply getDistanceTo_triangle]]].
  unfold Point.applyVector, Point.getVectorTo, withMutate.
  cbn [Vector.dx Vector.dy]. destruct p as [a b], q as [c d]. cbn [Point.x Point.y].
  replace (a + (c - a))%R with c by ring. replace (b + (d - b))%R with d by ring.
  reflexivity.
Qed.

(** X7.  [rotateAround] is a rigid rotation about the pivot: it keeps the
    distance between any two points (so the distance to the pivot too),
    leaves the pivot where it is, and turns the offset from the pivot the
    way [Vector.rotateVector] does (clockwise for positive angles). *)
Theorem X7_rotateAround_is_a_rigid_rotation :
  ∀ (p q c : Point.t) (angle : R),
    Point.getDistanceTo (fst (Point.rotateAround p c angle false))
                        (fst (Point.rotateAround q c angle false))
    = Point.getDistanceTo p q
    ∧ Point.getDistanceTo (fst (Point.rotateAround p c angle false)) c
      = Point.getDistanceTo p c
    ∧ fst (Point.rotateAround c c angle false) = c
    ∧ fst (Point.rotateAround p c angle false)
      = fst (Point.applyVector c
               (fst (Vector.rotateVector (Point.getVectorTo c p) angle false)) false).
Proof.
  intros p q c angle.
  split; [apply rotateAround_isometry|].
  split; [|split; [apply rotateAround_pivot | apply rotateAround_as_vector]].
  pose proof (rotateAround_isometry p c c angle) as H.
  by rewrite rotateAround_pivot in H.
Qed.

(* ================================================================= *)
(** ** util/randomUtil.ts and the random vectors and points *)

Section random_facts.
Local Open Scope R_scope.


Lemma getRandomItem_empty {A} rt :
  randomUtil.getRandomItem (@nil A) rt
  = (Threw "Array is empty and cannot provide a random item.", rt).
Proof. reflexivity. Qed.

(** the draw [r] selects the item at index [floor (r * length)] *)
Lemma getRandomItem_at {A} (items : list A) (i : nat) (x : A) rt :
  items !! i = Some x →
  INR i <= random rt (draws rt) * INR (length items) < INR i + 1 →
  randomUtil.getRandomItem items rt = (Returned (Some x), drawn 1 rt).
Proof.
  intros Hx Hr. unfold randomUtil.getRandomItem.
  destruct (decide (length items = 0%nat)) as [H0|H0].
  { apply length_zero_iff_nil in H0. by subst. }
  unfold bind, Math_random, ret.
  rewrite (Zfloor_eq (Z.of_nat i)) by (rewrite <- INR_IZR_INZ; exact Hr).
  rewrite decide_True by lia. by rewrite Nat2Z.id, Hx.
Qed.

(** one of two: the first when the draw is below 1/2 *)
Lemma getRandomItem_pair {A} (a b : A) rt :
  0 <= random rt (draws rt) < 1 →
  randomUtil.getRandomItem [a; b] rt
  = (Returned (Some (if Rlt_dec (random rt (draws rt)) (1 / 2) then a else b)), drawn 1 rt).
Proof.
  intros Hr. destruct (Rlt_dec _ _).
  - apply (getRandomItem_at [a; b] 0); [done|]. simpl. lra.
  - apply (getRandomItem_at [a; b] 1); [done|]. simpl. lra.
Qed.
End random_facts.



(** X9.  [getRandomItem] throws on the empty array, without consuming a
    draw; on a non-empty array, with a draw [r] in [0, 1), it returns the
    item at index [floor (r * length)], which is an item of the array (never
    [undefined]), and consumes one draw. *)
Theorem X9_getRandomItem_returns_a_member :
  ∀ (A : Type) (items : list A) (rt : Runtime),
    (0 <= random rt (draws rt) < 1)%R →
    match items with
    | [] => randomUtil.getRandomItem items rt
            = (Threw "Array is empty and cannot provide a random item.", rt)
    | _ :: _ =>
        ∃ x : A,
          items !! Z.to_nat (Zfloor (random rt (draws rt) * INR (length items))) = Some x
          ∧ x ∈ items
          ∧ randomUtil.getRandomItem items rt = (Returned (Some x), drawn 1 rt)
    end.
Proof.
  intros A items rt Hr. destruct items as [|a items]; [apply getRandomItem_empty|].
  assert (Hne : a :: items ≠ []) by done.
  generalize dependent (a :: items). intros l Hne.
  set (r := random rt (draws rt)) in *. destruct Hr as [Hr0 Hr1].
  assert (Hlen : (0 < INR (length l))%R).
  { apply lt_0_INR. destruct l; [done | simpl; lia]. }
  set (z := Zfloor (r * INR (length l))).
  assert (Hz0 : (0 ≤ z)%Z).
  { apply Zfloor_lub. change (IZR 0) with 0%R. by apply Rmult_le_pos; lra. }
  pose proof (Zfloor_bound (r * INR (length l))) as Hb. fold z in Hb.
  assert (Hz1 : (z < Z.of_nat (length l))%Z).
  { apply lt_IZR. rewrite <- INR_IZR_INZ. nra. }
  destruct (lookup_lt_is_Some_2 l (Z.to_nat z)) as [x Hx]; [lia|].
  exists x. split; [exact Hx|]. split; [by eapply list_elem_of_lookup_2|].
  apply (getRandomItem_at l (Z.to_nat z)); [exact Hx|].
  rewrite INR_IZR_INZ, Z2Nat.id by done. exact Hb.
Qed.

(** the follow side of a leader with both slots free, at a draw of 1/2 *)
Lemma X9_witness :
  ∃ x : string,
    x ∈ [koifish.LEFT_SIDE; koifish.RIGHT_SIDE]
    ∧ randomUtil.getRandomItem [koifish.LEFT_SIDE; koifish.RIGHT_SIDE] scene.runtime
      = (Returned (Some x), drawn 1 scene.runtime).
Proof.
  assert (Hr : (0 <= random scene.runtime (draws scene.runtime) < 1)%R) by (simpl; lra).
  destruct (X9_getRandomItem_returns_a_member string
              [koifish.LEFT_SIDE; koifish.RIGHT_SIDE] scene.runtime Hr)
    as (x & _ & Hin & Hrun).
  exists x. split; [exact Hin | exact Hrun].
Defined.

Section random_vectors.
Local Open Scope R_scope.

(** the [i]-th draw of the runtime from now on *)
Definition nextDraw (rt : Runtime) (i : nat) : R := random rt (i + draws rt).

(** the sign picked by [getRandomItem([1, -1])] at a draw *)
Definition pickedSign (r : R) : R := if Rlt_dec r (1 / 2) then 1 else -1.

Lemma getRandomDirection_run rt :
  0 <= nextDraw rt 0 < 1 → 0 <= nextDraw rt 2 < 1 →
  Vector.getRandomDirection rt
  = match Vector.normalize
            (Vector.mk (pickedSign (nextDraw rt 0) * nextDraw rt 1)
                       (pickedSign (nextDraw rt 2) * nextDraw rt 3)) false with
    | Ok v => (Returned (fst v), drawn 4 rt)
    | Err msg => (Threw msg, drawn 4 rt)
    end.
Proof.
  intros H0 H2. unfold Vector.getRandomDirection.
  unfold bind at 1. rewrite (getRandomItem_pair 1 (-1) rt H0).
  unfold bind at 1. unfold Math_random at 1.
  unfold bind at 1. rewrite (getRandomItem_pair 1 (-1)) by exact H2.
  unfold bind at 1. unfold Math_random at 1.
  unfold bind, liftResult, default, pickedSign, nextDraw. cbn [draws drawn random Nat.add].
  destruct (Vector.normalize _ false); reflexivity.
Qed.
End random_vectors.

(** X10.  With draws of [Math.random()] in [0, 1), [getRandomDirection]
    consumes four draws: a sign and a size for each coordinate.  It throws
    'Cannot normalize a zero vector.' exactly when both sizes are 0, and
    otherwise returns a vector of length 1 whose coordinates have the picked
    signs. *)
Theorem X10_getRandomDirection_is_a_unit_vector_or_throws :
  ∀ rt : Runtime,
    (0 <= nextDraw rt 0 < 1)%R → (0 <= nextDraw rt 2 < 1)%R →
    (0 <= nextDraw rt 1)%R → (0 <= nextDraw rt 3)%R →
    let sx := pickedSign (nextDraw rt 0) in
    let sy := pickedSign (nextDraw rt 2) in
    ((nextDraw rt 1 = 0 ∧ nextDraw rt 3 = 0)%R →
     Vector.getRandomDirection rt = (Threw "Cannot normalize a zero vector.", drawn 4 rt))
    ∧ (¬ (nextDraw rt 1 = 0 ∧ nextDraw rt 3 = 0)%R →
       ∃ v : Vector.t,
         Vector.getRandomDirection rt = (Returned v, drawn 4 rt)
         ∧ Vector.getMagnitude v = 1%R
         ∧ (0 <= sx * Vector.dx v)%R ∧ (0 <= sy * Vector.dy v)%R).
Proof.
  intros rt H0 H2 H1 H3 sx sy. rewrite (getRandomDirection_run rt H0 H2).
  fold sx. fold sy.
  set (v := Vector.mk (sx * nextDraw rt 1) (sy * nextDraw rt 3)).
  assert (Hsx : (sx = 1 ∨ sx = -1)%R) by (unfold sx, pickedSign; destruct (Rlt_dec _ _); auto).
  assert (Hsy : (sy = 1 ∨ sy = -1)%R) by (unfold sy, pickedSign; destruct (Rlt_dec _ _); auto).
  split; [intros [Hz1 Hz3] | intros Hnz].
  - assert (Hm : Vector.getMagnitude v = 0%R).
    { apply magnitude_zero_iff. unfold v. cbn [Vector.dx Vector.dy]. rewrite Hz1, Hz3. lra. }
    unfold Vector.normalize, Vector.getMagnitude in *.
    destruct (Req_dec_T _ 0); [reflexivity | contradiction].
  - assert (Hm : Vector.getMagnitude v ≠ 0%R).
    { intros Hm. apply magnitude_zero_iff in Hm. unfold v in Hm.
      cbn [Vector.dx Vector.dy] in Hm. apply Hnz. destruct Hsx, Hsy; subst; split; nra. }
    rewrite (normalize_ok v false Hm). unfold withMutate. cbn [fst].
    eexists. split; [reflexivity|]. split; [by apply magnitude_of_normalized|].
    assert (Hpos : (0 < Vector.getMagnitude v)%R).
    { pose proof (sqrt_pos (Vector.dx v * Vector.dx v + Vector.dy v * Vector.dy v)).
      unfold Vector.getMagnitude in *. lra. }
    assert (Hinv : (0 < / Vector.getMagnitude v)%R) by (by apply Rinv_0_lt_compat).
    cbn [Vector.dx Vector.dy]. unfold v at 1 3. cbn [Vector.dx Vector.dy]. unfold Rdiv.
    set (m := (/ Vector.getMagnitude v)%R) in *.
    split.
    + assert (0 <= sx * sx * nextDraw rt 1)%R by (destruct Hsx as [-> | ->]; lra). nra.
    + assert (0 <= sy * sy * nextDraw rt 3)%R by (destruct Hsy as [-> | ->]; lra). nra.
Qed.

(** every draw is 1/2: both signs are -1, the direction is down-left *)
Lemma X10_witness :
  ∃ v : Vector.t,
    Vector.getRandomDirection scene.runtime = (Returned v, drawn 4 scene.runtime)
    ∧ Vector.getMagnitude v = 1%R
    ∧ (Vector.dx v <= 0)%R ∧ (Vector.dy v <= 0)%R.
Proof.
  assert (H0 : (0 <= nextDraw scene.runtime 0 < 1)%R) by (unfold nextDraw; simpl; lra).
  assert (H2 : (0 <= nextDraw scene.runtime 2 < 1)%R) by (unfold nextDraw; simpl; lra).
  assert (H1 : (0 <= nextDraw scene.runtime 1)%R) by (unfold nextDraw; simpl; lra).
  assert (H3 : (0 <= nextDraw scene.runtime 3)%R) by (unfold nextDraw; simpl; lra).
  destruct (X10_getRandomDirection_is_a_unit_vector_or_throws scene.runtime H0 H2 H1 H3)
    as [_ H].
  destruct H as (v & Hrun & Hm & Hx & Hy).
  { intros [Hz _]. unfold nextDraw in Hz. simpl in Hz. lra. }
  exists v. split; [exact Hrun|]. split; [exact Hm|].
  assert (Hs : pickedSign (1 / 2) = (-1)%R).
  { unfold pickedSign. destruct (Rlt_dec _ _); lra. }
  unfold nextDraw in Hx, Hy. simpl in Hx, Hy. rewrite Hs in Hx, Hy. lra.
Defined.

Section random_points.
Local Open Scope R_scope.

Lemma getRandomPoint_run c ratio rt :
  Point.getRandomPoint c ratio rt
  = (Returned (Point.mk ((1 - ratio) * width c / 2 + nextDraw rt 0 * (width c * ratio))
                        ((1 - ratio) * height c / 2 + nextDraw rt 1 * (height c * ratio))),
     drawn 2 rt).
Proof. reflexivity. Qed.

Lemma margin_bounds (size ratio r : R) :
  0 <= size → 0 <= ratio <= 1 → 0 <= r < 1 →
  let margin := (1 - ratio) * size / 2 in
  let v := margin + r * (size * ratio) in
  0 <= margin ∧ margin <= v <= size - margin.
Proof.
  intros Hs Hratio Hr margin v. unfold v, margin.
  assert (0 <= size * ratio) by (apply Rmult_le_pos; lra).
  assert (0 <= (1 - ratio) * size) by (apply Rmult_le_pos; lra).
  assert (0 <= r * (size * ratio)) by (apply Rmult_le_pos; lra).
  assert (r * (size * ratio) <= 1 * (size * ratio)) by (apply Rmult_le_compat_r; lra).
  lra.
Qed.

Lemma getRandomPoint_inside c ratio rt :
  0 <= width c → 0 <= height c → 0 <= ratio <= 1 →
  0 <= nextDraw rt 0 < 1 → 0 <= nextDraw rt 1 < 1 →
  let marginX := (1 - ratio) * width c / 2 in
  let marginY := (1 - ratio) * height c / 2 in
  ∃ p : Point.t,
    Point.getRandomPoint c ratio rt = (Returned p, drawn 2 rt)
    ∧ marginX <= Point.x p <= width c - marginX
    ∧ marginY <= Point.y p <= height c - marginY
    ∧ canvasUtil.isPointOutOfBounds c p 0 = false.
Proof.
  intros Hw Hh Hratio H0 H1 marginX marginY.
  eexists. split; [apply getRandomPoint_run|]. cbn [Point.x Point.y].
  destruct (margin_bounds (width c) ratio (nextDraw rt 0) Hw Hratio H0) as [Hmx Hx].
  destruct (margin_bounds (height c) ratio (nextDraw rt 1) Hh Hratio H1) as [Hmy Hy].
  split; [exact Hx|]. split; [exact Hy|].
  unfold canvasUtil.isPointOutOfBounds, Js.gtb, Js.ltb. cbn [Point.x Point.y].
  fold marginX in Hmx, Hx. fold marginY in Hmy, Hy. fold marginX. fold marginY.
  repeat (destruct (Rlt_dec _ _); [lra|]). reflexivity.
Qed.

(** X11.  With two draws in [0, 1), [getRandomPoint(ratio)] for a ratio
    between 0 and 1 returns a point of the central part of the canvas: at
    least the margin [(1 - ratio) * size / 2] away from every border, so
    never out of bounds. *)
Theorem X11_getRandomPoint_is_inside_the_margins :
  ∀ (c : Canvas) (ratio : R) (rt : Runtime),
    0 <= width c → 0 <= height c → 0 <= ratio <= 1 →
    0 <= nextDraw rt 0 < 1 → 0 <= nextDraw rt 1 < 1 →
    let marginX := (1 - ratio) * width c / 2 in
    let marginY := (1 - ratio) * height c / 2 in
    ∃ p : Point.t,
      Point.getRandomPoint c ratio rt = (Returned p, drawn 2 rt)
      ∧ marginX <= Point.x p <= width c - marginX
      ∧ marginY <= Point.y p <= height c - marginY
      ∧ canvasUtil.isPointOutOfBounds c p 0 = false.
Proof.
  intros c ratio rt Hw Hh Hratio H0 H1 marginX marginY.
  destruct (getRandomPoint_inside c ratio rt Hw Hh Hratio H0 H1) as (p & Hrun & Hx & Hy & Hin).
  exists p. split; [exact Hrun|]. split; [exact Hx|]. split; [exact Hy | exact Hin].
Qed.

(** a new target point of a fish in the pond: [getRandomPoint(0.9)] *)
Lemma X11_witness :
  ∃ p : Point.t,
    Point.getRandomPoint (mkCanvas 1000 500) (9 / 10) scene.runtime
    = (Returned p, drawn 2 scene.runtime)
    ∧ 50 <= Point.x p <= 950 ∧ 25 <= Point.y p <= 475.
Proof.
  assert (Hw : 0 <= width (mkCanvas 1000 500)) by (simpl; lra).
  assert (Hh : 0 <= height (mkCanvas 1000 500)) by (simpl; lra).
  assert (Hratio : 0 <= 9 / 10 <= 1) by lra.
  assert (H0 : 0 <= nextDraw scene.runtime 0 < 1) by (unfold nextDraw; simpl; lra).
  assert (H1 : 0 <= nextDraw scene.runtime 1 < 1) by (unfold nextDraw; simpl; lra).
  destruct (X11_getRandomPoint_is_inside_the_margins
              (mkCanvas 1000 500) (9 / 10) scene.runtime Hw Hh Hratio H0 H1)
    as (p & Hrun & Hx & Hy & _).
  exists p. split; [exact Hrun|]. simpl in Hx, Hy. lra.
Defined.
End random_points.

Section corner_facts.
Local Open Scope R_scope.
Import Point.

(** the corners found so far bound the points seen so far *)
Definition cornersOf (seen : list t) (c : Corners) : Prop :=
  bottomMost c ∈ seen ∧ topMost c ∈ seen ∧ leftMost c ∈ seen ∧ rightMost c ∈ seen
  ∧ ∀ p, p ∈ seen →
      y (bottomMost c) <= y p <= y (topMost c) ∧ x (leftMost c) <= x p <= x (rightMost c).

Lemma widen_cornersOf seen c p :
  cornersOf seen c → cornersOf (seen ++ [p]) (widen c p).
Proof.
  intros (Hb & Ht & Hl & Hr & Hall). unfold widen.
  assert (Hin : ∀ q, q ∈ seen → q ∈ seen ++ [p]).
  { intros q Hq. apply elem_of_app. by left. }
  assert (Hp : p ∈ seen ++ [p]).
  { apply elem_of_app. right. by apply list_elem_of_singleton. }
  pose proof (Hall _ Hb) as [Hbt _]. pose proof (Hall _ Hl) as [_ Hlr].
  destruct (Rlt_dec (y p) (y (bottomMost c))) as [H1|H1];
    cbn [bottomMost topMost leftMost rightMost];
    destruct (Rgt_dec (y p) (y (topMost c))) as [H2|H2];
    cbn [bottomMost topMost leftMost rightMost];
    destruct (Rlt_dec (x p) (x (leftMost c))) as [H3|H3];
    cbn [bottomMost topMost leftMost rightMost];
    destruct (Rgt_dec (x p) (x (rightMost c))) as [H4|H4];
    cbn [bottomMost topMost leftMost rightMost];
    (split; [auto|split; [auto|split; [auto|split; [auto|]]]]);
    intros q Hq; cbn [bottomMost topMost leftMost rightMost];
    (apply elem_of_app in Hq as [Hq|Hq];
     [ destruct (Hall q Hq) as [? ?] | apply list_elem_of_singleton in Hq; subst q ]);
    split; lra.
Qed.

Lemma foldl_widen_cornersOf rest : ∀ seen c,
  cornersOf seen c → cornersOf (seen ++ rest) (foldl widen c rest).
Proof.
  induction rest as [|p rest IH]; intros seen c Hc.
  - by rewrite app_nil_r.
  - simpl. replace (seen ++ p :: rest) with ((seen ++ [p]) ++ rest)
      by (by rewrite <- app_assoc).
    apply IH. by apply widen_cornersOf.
Qed.
End corner_facts.

(** X12.  [findCorners] throws 'Point map cannot be empty.' on an empty
    map.  On any other map it returns four points of the map that bound it:
    no point of the map is below [bottomMost], above [topMost], left of
    [leftMost] or right of [rightMost]. *)
Theorem X12_findCorners_bounds_the_points :
  ∀ pointMap : Point.PointMap,
    match Point.findCorners pointMap with
    | Err msg => pointMap = [] ∧ msg = "Point map cannot be empty."
    | Ok c =>
        pointMap ≠ []
        ∧ Point.bottomMost c ∈ Point.Object_values pointMap
        ∧ Point.topMost c ∈ Point.Object_values pointMap
        ∧ Point.leftMost c ∈ Point.Object_values pointMap
        ∧ Point.rightMost c ∈ Point.Object_values pointMap
        ∧ ∀ p, p ∈ Point.Object_values pointMap →
            (Point.y (Point.bottomMost c) <= Point.y p <= Point.y (Point.topMost c))%R
            ∧ (Point.x (Point.leftMost c) <= Point.x p <= Point.x (Point.rightMost c))%R
    end.
Proof.
  intros pointMap. unfold Point.findCorners.
  destruct pointMap as [|[k first] rest]; [done|].
  cbn [Point.Object_values map snd].
  set (start := Point.mkCorners first first first first).
  assert (Hstart : cornersOf [first] start).
  { unfold cornersOf, start.
    cbn [Point.bottomMost Point.topMost Point.leftMost Point.rightMost].
    repeat (split; [by apply list_elem_of_singleton|]).
    intros p Hp. apply list_elem_of_singleton in Hp. subst p. lra. }
  assert (Hfirst : Point.widen start first = start).
  { unfold Point.widen, start.
    cbn [Point.bottomMost Point.topMost Point.leftMost Point.rightMost].
    repeat (match goal with
            | |- context [Rlt_dec ?a ?b] => destruct (Rlt_dec a b); [lra|]
            | |- context [Rgt_dec ?a ?b] => destruct (Rgt_dec a b); [lra|]
            end;
            cbn [Point.bottomMost Point.topMost Point.leftMost Point.rightMost]).
    reflexivity. }
  cbn [foldl]. rewrite Hfirst.
  split; [done|]. exact (foldl_widen_cornersOf (map snd rest) [first] start Hstart).
Qed.

Section line_facts.
Local Open Scope R_scope.
Import Point.

Lemma Zceil_INR (n : nat) : Z.to_nat (Zceil (INR n)) = n.
Proof. rewrite INR_IZR_INZ. rewrite (Zceil_eq (Z.of_nat n)) by lra. lia. Qed.

Lemma getEvenlySpacedPoints_length p1 p2 (n : nat) :
  length (getEvenlySpacedPoints p1 p2 (INR n)) = n.
Proof.
  unfold getEvenlySpacedPoints. rewrite length_map, length_seq. apply Zceil_INR.
Qed.

Lemma getEvenlySpacedPoints_lookup p1 p2 (n i : nat) :
  (i < n)%nat →
  getEvenlySpacedPoints p1 p2 (INR n) !! i
  = Some (mk (x p1 + (x p2 - x p1) / (INR n - 1) * INR i)
             (y p1 + (y p2 - y p1) / (INR n - 1) * INR i)).
Proof.
  intros Hi. unfold getEvenlySpacedPoints.
  rewrite Zceil_INR. change (map ?f ?l) with (f <$> l).
  rewrite list_lookup_fmap, lookup_seq_lt by done. reflexivity.
Qed.
End line_facts.

(** X13.  For a whole number of points [n >= 2], [getEvenlySpacedPoints]
    returns exactly [n] points of the line from [point1] to [point2], the
    i-th at the fraction [i / (n - 1)] of the way: the first is [point1]
    and the last is [point2]. *)
Theorem X13_getEvenlySpacedPoints_spans_the_segment :
  ∀ (point1 point2 : Point.t) (n : nat),
    (2 ≤ n)%nat →
    let points := Point.getEvenlySpacedPoints point1 point2 (INR n) in
    length points = n
    ∧ points !! 0%nat = Some point1
    ∧ points !! (n - 1)%nat = Some point2
    ∧ ∀ i : nat, (i < n)%nat →
        points !! i
        = Some (Point.calculatePointOnLine point1 point2 (INR i / (INR n - 1))).
Proof.
  intros p1 p2 n Hn points.
  assert (Hn1 : (INR n - 1 ≠ 0)%R).
  { assert (2 <= INR n)%R by (apply (le_INR 2); lia). lra. }
  assert (Hall : ∀ i : nat, (i < n)%nat →
            points !! i = Some (Point.calculatePointOnLine p1 p2 (INR i / (INR n - 1)))).
  { intros i Hi. unfold points. rewrite getEvenlySpacedPoints_lookup by done.
    unfold Point.calculatePointOnLine. do 2 f_equal; field; exact Hn1. }
  split; [apply getEvenlySpacedPoints_length|].
  split; [|split; [|exact Hall]].
  - rewrite Hall by lia. unfold Point.calculatePointOnLine.
    destruct p1 as [a b]. cbn [Point.x Point.y]. simpl INR. do 2 f_equal; field; exact Hn1.
  - rewrite Hall by lia. unfold Point.calculatePointOnLine.
    rewrite minus_INR by lia. simpl (INR 1).
    destruct p2 as [c d]. cbn [Point.x Point.y]. do 2 f_equal; field; exact Hn1.
Qed.

(** the five wood joins of a lantern's base, from (0, 0) to (40, 20) *)
Lemma X13_witness :
  let points := Point.getEvenlySpacedPoints (Point.mk 0 0) (Point.mk 40 20) (INR 5) in
  length points = 5%nat
  ∧ points !! 0%nat = Some (Point.mk 0 0)
  ∧ points !! 4%nat = Some (Point.mk 40 20).
Proof.
  intros points.
  destruct (X13_getEvenlySpacedPoints_spans_the_segment (Point.mk 0 0) (Point.mk 40 20) 5
              ltac:(lia)) as (H1 & H2 & H3 & _).
  split; [exact H1|]. split; [exact H2 | exact H3].
Defined.

(** X14.  [calculatePointOnLine] runs from [point1] at [t = 0] to [point2]
    at [t = 1]; and [calculatePartialQuadraticCurve] is de Casteljau's
    construction: its end point is the point of the quadratic curve with
    the given start, control and end points at the parameter [t],
    [(1-t)^2 P0 + 2 (1-t) t P1 + t^2 P2], and its control point is the
    point at [t] of the line from the start to the control point. *)
Theorem X14_partial_curve_is_on_the_curve :
  ∀ (P0 P1 P2 : Point.t) (t : R),
    let curve := Point.calculatePartialQuadraticCurve P0 P1 P2 t in
    Point.calculatePointOnLine P0 P1 0 = P0
    ∧ Point.calculatePointOnLine P0 P1 1 = P1
    ∧ fst curve = Point.calculatePointOnLine P0 P1 t
    ∧ Point.x (snd curve)
      = ((1 - t) * (1 - t) * Point.x P0 + 2 * (1 - t) * t * Point.x P1
         + t * t * Point.x P2)%R
    ∧ Point.y (snd curve)
      = ((1 - t) * (1 - t) * Point.y P0 + 2 * (1 - t) * t * Point.y P1
         + t * t * Point.y P2)%R.
Proof.
  intros P0 P1 P2 t curve.
  unfold curve, Point.calculatePartialQuadraticCurve, Point.calculatePointOnLine.
  cbn [fst snd Point.x Point.y].
  destruct P0 as [a b], P1 as [c d]. cbn [Point.x Point.y].
  split; [f_equal; ring|]. split; [f_equal; ring|]. split; [reflexivity|].
  split; ring.
Qed.

Section foot_facts.
Local Open Scope R_scope.
Import Point.

(** X15.  For a line AB that is neither vertical nor horizontal and a line
    CD that is not vertical and not perpendicular to AB,
    [calculatePerpendicularFoot] returns the midpoint M of AB and a point F
    that lies on the line CD and for which MF is perpendicular to AB. *)
Theorem X15_perpendicular_foot_is_on_the_line_and_perpendicular :
  ∀ A B C D : Point.t,
    x A ≠ x B → y A ≠ y B → x C ≠ x D →
    calculateSlope C D ≠ -1 / calculateSlope A B →
    let M := fst (calculatePerpendicularFoot A B C D) in
    let F := snd (calculatePerpendicularFoot A B C D) in
    M = calculateMidpoint A B
    ∧ (y F - y C) * (x D - x C) = (x F - x C) * (y D - y C)
    ∧ (x F - x M) * (x B - x A) + (y F - y M) * (y B - y A) = 0.
Proof.
  intros A B C D HAB HABy HCD Hslopes M F.
  unfold M, F, calculatePerpendicularFoot. cbn [fst snd x y].
  set (Mid := calculateMidpoint A B).
  set (sAB := calculateSlope A B) in *. set (sCD := calculateSlope C D) in *.
  set (sP := -1 / sAB) in *.
  set (iCD := y C - sCD * x C). set (iP := y Mid - sP * x Mid).
  set (xF := (iP - iCD) / (sCD - sP)).
  assert (HxF : xF * (sCD - sP) = iP - iCD) by (unfold xF; field; lra).
  assert (HsCD : sCD * (x D - x C) = y D - y C).
  { unfold sCD, calculateSlope. field. lra. }
  assert (HsAB : sAB ≠ 0).
  { unfold sAB, calculateSlope. intros H0.
    apply Rmult_integral in H0 as [H0|H0]; [lra|].
    assert (Hinv : / (x B - x A) ≠ 0) by (apply Rinv_neq_0_compat; lra). by apply Hinv. }
  assert (HsP : sP * (y B - y A) = - (x B - x A)).
  { unfold sP, sAB, calculateSlope. field. split; lra. }
  split; [reflexivity|]. split.
  - replace (sP * xF + iP - y C) with (sCD * (xF - x C))
      by (unfold iCD in HxF; lra).
    rewrite <- HsCD. ring.
  - replace (sP * xF + iP - y Mid) with (sP * (xF - x Mid)) by (unfold iP; ring).
    replace (sP * (xF - x Mid) * (y B - y A)) with ((xF - x Mid) * (sP * (y B - y A)))
      by ring.
    rewrite HsP. ring.
Qed.

(** the gradient between two parallel edges of a lantern wall: AB from
    (0, 0) to (2, 2), CD from (0, 4) to (4, 8) *)
Lemma X15_witness :
  let A := mk 0 0 in let B := mk 2 2 in let C := mk 0 4 in let D := mk 4 8 in
  let M := fst (calculatePerpendicularFoot A B C D) in
  let F := snd (calculatePerpendicularFoot A B C D) in
  M = mk 1 1
  ∧ (x F - x M) * (x B - x A) + (y F - y M) * (y B - y A) = 0.
Proof.
  intros A B C D M F.
  assert (H1 : x A ≠ x B) by (simpl; lra).
  assert (H2 : y A ≠ y B) by (simpl; lra).
  assert (H3 : x C ≠ x D) by (simpl; lra).
  assert (H4 : calculateSlope C D ≠ -1 / calculateSlope A B).
  { unfold calculateSlope. simpl. lra. }
  destruct (X15_perpendicular_foot_is_on_the_line_and_perpendicular A B C D H1 H2 H3 H4)
    as (HM & _ & Hperp).
  split; [|exact Hperp].
  fold M in HM. rewrite HM. unfold calculateMidpoint. simpl. f_equal; lra.
Defined.
End foot_facts.

Section square_facts.
Local Open Scope R_scope.
Import Point.

Lemma distance_axis (a b c d : R) :
  b = d → getDistanceTo (mk a b) (mk c d) = Rabs (c - a).
Proof.
  intros ->. unfold getDistanceTo, getVectorTo, Vector.getMagnitude.
  cbn [Vector.dx Vector.dy x y].
  replace ((c - a) * (c - a) + (d - d) * (d - d)) with ((c - a) * (c - a)) by ring.
  apply sqrt_sqr_abs.
Qed.

Lemma distance_axis_y (a b c d : R) :
  a = c → getDistanceTo (mk a b) (mk c d) = Rabs (d - b).
Proof.
  intros ->. unfold getDistanceTo, getVectorTo, Vector.getMagnitude.
  cbn [Vector.dx Vector.dy x y].
  replace ((c - c) * (c - c) + (d - b) * (d - b)) with ((d - b) * (d - b)) by ring.
  apply sqrt_sqr_abs.
Qed.

Lemma distance_diagonal (a b h k : R) :
  Rabs h = Rabs k →
  getDistanceTo (mk (a + h) (b + k)) (mk a b) = sqrt 2 * Rabs h.
Proof.
  intros Hk. unfold getDistanceTo, getVectorTo, Vector.getMagnitude.
  cbn [Vector.dx Vector.dy x y].
  assert (Habs : ∀ z, z * z = Rabs z * Rabs z).
  { intros z. unfold Rabs. destruct (Rcase_abs z); ring. }
  assert (Hsq : k * k = h * h) by (by rewrite (Habs k), (Habs h), Hk).
  replace ((a - (a + h)) * (a - (a + h)) + (b - (b + k)) * (b - (b + k)))
    with (h * h + k * k) by ring.
  rewrite Hsq. replace (h * h + h * h) with (2 * (h * h)) by ring.
  rewrite sqrt_mult by nra. by rewrite sqrt_sqr_abs.
Qed.
End square_facts.

(** X16.  [getSquarePoints] returns the four corners of a square, under
    the keys corner1 to corner4 in this order: whatever the rotation angle,
    consecutive corners are one side length apart and every corner is at
    half a diagonal ([sqrt 2 * side / 2]) from the centre. *)
Theorem X16_getSquarePoints_is_a_square :
  ∀ (center : Point.t) (rotationAngle sideLength : R),
    ∃ c1 c2 c3 c4 : Point.t,
      drawUtil.getSquarePoints center rotationAngle sideLength
      = [("corner1", c1); ("corner2", c2); ("corner3", c3); ("corner4", c4)]
      ∧ Point.getDistanceTo c1 c2 = Rabs sideLength
      ∧ Point.getDistanceTo c2 c3 = Rabs sideLength
      ∧ Point.getDistanceTo c3 c4 = Rabs sideLength
      ∧ Point.getDistanceTo c4 c1 = Rabs sideLength
      ∧ Forall (λ c, Point.getDistanceTo c center = (sqrt 2 * (Rabs sideLength / 2))%R)
               [c1; c2; c3; c4].
Proof.
  intros center angle L. unfold drawUtil.getSquarePoints, Point.getCoordinates.
  unfold Point.rotateAllPoints, withMutate. cbn [fst snd map].
  eexists _, _, _, _. split; [reflexivity|].
  rewrite !rotateAround_isometry.
  assert (Hhalf : Rabs (L / 2) = (Rabs L / 2)%R).
  { unfold Rdiv. rewrite Rabs_mult. f_equal. apply Rabs_pos_eq.
    assert (0 < / 2)%R by (apply Rinv_0_lt_compat; lra). lra. }
  assert (Hneg : Rabs (- (L / 2)) = (Rabs L / 2)%R) by (by rewrite Rabs_Ropp).
  split; [rewrite distance_axis by done; f_equal; field|].
  split; [rewrite distance_axis_y by done; f_equal; field|].
  split; [rewrite distance_axis by done;
          replace (Point.x center - L / 2 - (Point.x center + L / 2))%R with (- L)%R by field;
          apply Rabs_Ropp|].
  split; [rewrite distance_axis_y by done;
          replace (Point.y center - L / 2 - (Point.y center + L / 2))%R with (- L)%R by field;
          apply Rabs_Ropp|].
  assert (Hpivot : ∀ p, Point.getDistanceTo (fst (Point.rotateAround p center angle false)) center
                        = Point.getDistanceTo p center).
  { intros p. pose proof (rotateAround_isometry p center center angle) as H.
    by rewrite rotateAround_pivot in H. }
  destruct center as [cx cy]. cbn [Point.x Point.y].
  repeat constructor; rewrite Hpivot.
  - replace (cx - L / 2)%R with (cx + - (L / 2))%R by ring.
    replace (cy - L / 2)%R with (cy + - (L / 2))%R by ring.
    rewrite distance_diagonal by done. by rewrite Hneg.
  - replace (cy - L / 2)%R with (cy + - (L / 2))%R by ring.
    rewrite distance_diagonal by (by rewrite Rabs_Ropp). by rewrite Hhalf.
  - rewrite distance_diagonal by done. by rewrite Hhalf.
  - replace (cx - L / 2)%R with (cx + - (L / 2))%R by ring.
    rewrite distance_diagonal by (by rewrite Rabs_Ropp). by rewrite Hneg.
Qed.

(* ================================================================= *)
(** ** util/canvasUtil.ts: the borders and the grid *)

Section border_facts.
Local Open Scope R_scope.
Import canvasUtil.

(** the smallest of the distances to the four borders *)
Definition borderDistance (c : Canvas) (p : Point.t) : R :=
  Rmin (Rmin (Rmin (Point.x p) (width c - Point.x p)) (Point.y p)) (height c - Point.y p).

Lemma getDistanceToCanvasBorder_min c p :
  getDistanceToCanvasBorder c p = borderDistance c p.
Proof.
  unfold getDistanceToCanvasBorder, borderDistance, Js.gtb. unfold Js.ltb, Rmin, Rabs.
  repeat first [destruct (Rlt_dec _ _) | destruct (Rle_dec _ _) | destruct (Rcase_abs _)];
    simpl; lra.
Qed.

Lemma isPointOutOfBounds_min c p t :
  isPointOutOfBounds c p t = true ↔ borderDistance c p < - t.
Proof.
  unfold isPointOutOfBounds, borderDistance, Js.gtb. unfold Js.ltb, Rmin.
  repeat first [destruct (Rlt_dec _ _) | destruct (Rle_dec _ _)];
    simpl; split; intros H; first [lra | discriminate | reflexivity].
Qed.
End border_facts.

(** X17.  [getDistanceToCanvasBorder] is the smallest of the four signed
    distances to the borders (x, width - x, y, height - y): positive
    inside the canvas, negative outside.  So a point is out of bounds with a
    tolerance exactly when its border distance is below minus the
    tolerance; the exit test of a fish, border distance below -20, is
    [isPointOutOfBounds(position, 20)]. *)
Theorem X17_border_distance_agrees_with_out_of_bounds :
  ∀ (c : Canvas) (p : Point.t) (tolerance : R),
    canvasUtil.getDistanceToCanvasBorder c p
    = Rmin (Rmin (Rmin (Point.x p) (width c - Point.x p)) (Point.y p))
           (height c - Point.y p)
    ∧ (canvasUtil.isPointOutOfBounds c p tolerance = true
       ↔ (canvasUtil.getDistanceToCanvasBorder c p < - tolerance)%R)
    ∧ (canvasUtil.isPointOutOfBounds c p 20 = true
       ↔ (canvasUtil.getDistanceToCanvasBorder c p < koifish.canvasExitDistance)%R).
Proof.
  intros c p t. split; [apply getDistanceToCanvasBorder_min|].
  rewrite getDistanceToCanvasBorder_min. split; [apply isPointOutOfBounds_min|].
  unfold koifish.canvasExitDistance. apply isPointOutOfBounds_min.
Qed.

Section edge_facts.
Local Open Scope R_scope.
Import canvasUtil.

Lemma Rmin_eq_l (a b : R) : a <= b → Rmin a b = a.
Proof. intros H. by apply Rmin_left. Qed.

Lemma edge_distance (c : Canvas) (d r : R) (p : Point.t) :
  0 <= d → 0 <= width c → 0 <= height c → 0 <= r < 1 →
  p ∈ [Point.mk (r * width c) (height c + d); Point.mk (r * width c) (0 - d);
       Point.mk (0 - d) (r * height c); Point.mk (width c + d) (r * height c)] →
  borderDistance c p = - d.
Proof.
  intros Hd Hw Hh [Hr0 Hr1] Hp.
  assert (0 <= r * width c <= width c).
  { split; [by apply Rmult_le_pos|].
    assert (r * width c <= 1 * width c) by (apply Rmult_le_compat_r; lra). lra. }
  assert (0 <= r * height c <= height c).
  { split; [by apply Rmult_le_pos|].
    assert (r * height c <= 1 * height c) by (apply Rmult_le_compat_r; lra). lra. }
  unfold borderDistance.
  repeat (apply elem_of_cons in Hp as [->|Hp]); [| | | |by apply elem_of_nil in Hp];
    cbn [Point.x Point.y]; unfold Rmin;
    repeat (destruct (Rle_dec _ _)); lra.
Qed.

Lemma getRandomEdgePoint_at d w :
  let rt := runtime w in
  0 <= nextDraw rt 0 < 1 →
  ∃ p, getRandomEdgePoint d w = (Returned p, set_runtime (drawn 2 rt) w)
       ∧ p ∈ [Point.mk (nextDraw rt 1 * width (canvas w)) (height (canvas w) + d);
              Point.mk (nextDraw rt 1 * width (canvas w)) (0 - d);
              Point.mk (0 - d) (nextDraw rt 1 * height (canvas w));
              Point.mk (width (canvas w) + d) (nextDraw rt 1 * height (canvas w))].
Proof.
  intros rt Hr.
  destruct (getRandomItem_run
              [getTopEdgePoint; getBottomEdgePoint; getLeftEdgePoint; getRightEdgePoint]
              rt Hr ltac:(done)) as (f & Hf & Hrun).
  unfold getRandomEdgePoint, bind at 1, liftRuntime. fold rt. rewrite Hrun.
  repeat (apply elem_of_cons in Hf as [->|Hf]); [| | | |by apply elem_of_nil in Hf];
    (eexists; split; [reflexivity|]); cbn [canvas set_runtime];
    repeat first [apply list_elem_of_here | apply list_elem_of_further].
Qed.
End edge_facts.

(** X18.  With draws in [0, 1) and an outside distance [d >= 0],
    [getRandomEdgePoint(d)] consumes two draws and returns a point that is
    exactly [d] outside of the canvas: its signed border distance is
    [-d]. *)
Theorem X18_getRandomEdgePoint_is_outside_by_the_distance :
  ∀ (d : R) (w : World),
    (0 <= d)%R → (0 <= width (canvas w))%R → (0 <= height (canvas w))%R →
    (0 <= draw w 0 < 1)%R → (0 <= draw w 1 < 1)%R →
    ∃ p : Point.t,
      canvasUtil.getRandomEdgePoint d w
      = (Returned p, set_runtime (drawn 2 (runtime w)) w)
      ∧ canvasUtil.getDistanceToCanvasBorder (canvas w) p = (- d)%R
      ∧ (0 < d → canvasUtil.isPointOutOfBounds (canvas w) p 0 = true)%R.
Proof.
  intros d w Hd Hw Hh H0 H1.
  destruct (getRandomEdgePoint_at d w H0) as (p & Hrun & Hp).
  exists p. split; [exact Hrun|].
  rewrite getDistanceToCanvasBorder_min.
  pose proof (edge_distance (canvas w) d _ p Hd Hw Hh H1 Hp) as Hdist.
  split; [exact Hdist|]. intros Hpos.
  apply isPointOutOfBounds_min. lra.
Qed.

(** a wave of the pond re-entering in ambient mode, 300 outside *)
Lemma X18_witness :
  ∃ p : Point.t,
    fst (canvasUtil.getRandomEdgePoint 300 (scene.pond None)) = Returned p
    ∧ canvasUtil.getDistanceToCanvasBorder (canvas (scene.pond None)) p = (- 300)%R.
Proof.
  assert (Hd : (0 <= 300)%R) by lra.
  assert (Hw : (0 <= width (canvas (scene.pond None)))%R) by (simpl; lra).
  assert (Hh : (0 <= height (canvas (scene.pond None)))%R) by (simpl; lra).
  assert (H0 : (0 <= draw (scene.pond None) 0 < 1)%R) by (unfold draw; simpl; lra).
  assert (H1 : (0 <= draw (scene.pond None) 1 < 1)%R) by (unfold draw; simpl; lra).
  destruct (X18_getRandomEdgePoint_is_outside_by_the_distance 300 (scene.pond None)
              Hd Hw Hh H0 H1) as (p & Hrun & Hdist & _).
  exists p. split; [by rewrite Hrun | exact Hdist].
Defined.

Section grid_cover.
Import canvasUtil.

(** the cell of a coordinate inside the canvas is a cell of the grid *)
Lemma cell_in_grid (v size : R) :
  (0 <= v < size)%R → (0 ≤ Zfloor (v / cellSize) < Zceil (size / cellSize))%Z.
Proof.
  intros [H0 H1]. unfold cellSize.
  pose proof (Zfloor_bound (v / 50)) as [Hf _].
  pose proof (Zceil_bound (size / 50)) as [_ Hc].
  split.
  - apply Zfloor_lub. change (IZR 0) with 0%R. lra.
  - apply lt_IZR. lra.
Qed.

Lemma index_injective (nx cx cy cx' cy' : Z) :
  (0 ≤ cx < nx)%Z → (0 ≤ cx' < nx)%Z →
  (cy * nx + cx = cy' * nx + cx')%Z → cx = cx' ∧ cy = cy'.
Proof.
  intros H1 H2 H.
  assert (Hy : cy = cy').
  { destruct (Z.lt_trichotomy cy cy') as [Hlt|[Heq|Hgt]]; [|done|].
    - assert (nx ≤ (cy' - cy) * nx)%Z by nia. lia.
    - assert (nx ≤ (cy - cy') * nx)%Z by nia. lia. }
  subst cy'. split; [lia | done].
Qed.
End grid_cover.

(** X19.  After [setupCanvas] for a window of a given size, the grid
    covers the canvas: every point inside the canvas lies in a cell of the
    grid and has a cell index between 0 and the number of cells; and inside
    the canvas the cell index is injective on cells: two points have the
    same index only if they are in the same cell. *)
Theorem X19_grid_covers_the_canvas :
  ∀ (innerWidth innerHeight : R) (w0 : World) (p q : Point.t),
    let w := snd (canvasUtil.setupCanvas innerWidth innerHeight w0) in
    (0 <= Point.x p < innerWidth)%R → (0 <= Point.y p < innerHeight)%R →
    (0 <= Point.x q < innerWidth)%R → (0 <= Point.y q < innerHeight)%R →
    canvas w = mkCanvas innerWidth innerHeight
    ∧ (0 ≤ cellX p < numCellsX w)%Z ∧ (0 ≤ cellY p < numCellsY w)%Z
    ∧ (0 ≤ canvasUtil.getCellIndex w p < numCellsX w * numCellsY w)%Z
    ∧ (canvasUtil.getCellIndex w p = canvasUtil.getCellIndex w q
       → cellX p = cellX q ∧ cellY p = cellY q).
Proof.
  intros W H w0 p q w Hpx Hpy Hqx Hqy.
  assert (Hx : numCellsX w = Zceil (W / canvasUtil.cellSize)) by reflexivity.
  assert (Hy : numCellsY w = Zceil (H / canvasUtil.cellSize)) by reflexivity.
  pose proof (cell_in_grid _ _ Hpx) as Hcx. pose proof (cell_in_grid _ _ Hpy) as Hcy.
  pose proof (cell_in_grid _ _ Hqx) as Hcx'. pose proof (cell_in_grid _ _ Hqy) as Hcy'.
  rewrite <- Hx in Hcx, Hcx'. rewrite <- Hy in Hcy, Hcy'.
  split; [reflexivity|]. split; [exact Hcx|]. split; [exact Hcy|].
  unfold canvasUtil.getCellIndex. fold (cellX p) (cellY p) (cellX q) (cellY q).
  unfold cellX, cellY in *.
  split; [nia|]. intros Heq. by apply (index_injective (numCellsX w)).
Qed.

(** the page at 1000 x 500: the points (120, 60) and (170, 60) are in
    neighbouring cells and have different indices *)
Lemma X19_witness :
  let w := snd (canvasUtil.setupCanvas 1000 500 scene.blank) in
  (0 ≤ canvasUtil.getCellIndex w (Point.mk 120 60) < numCellsX w * numCellsY w)%Z
  ∧ (canvasUtil.getCellIndex w (Point.mk 120 60) = canvasUtil.getCellIndex w (Point.mk 170 60)
     → cellX (Point.mk 120 60) = cellX (Point.mk 170 60)).
Proof.
  intros w.
  assert (H1 : (0 <= Point.x (Point.mk 120 60) < 1000)%R) by (simpl; lra).
  assert (H2 : (0 <= Point.y (Point.mk 120 60) < 500)%R) by (simpl; lra).
  assert (H3 : (0 <= Point.x (Point.mk 170 60) < 1000)%R) by (simpl; lra).
  assert (H4 : (0 <= Point.y (Point.mk 170 60) < 500)%R) by (simpl; lra).
  destruct (X19_grid_covers_the_canvas 1000 500 scene.blank _ _ H1 H2 H3 H4)
    as (_ & _ & _ & Hidx & Hinj).
  split; [exact Hidx|]. intros Heq. by apply Hinj.
Defined.

(* ================================================================= *)
(** ** objects/koifish.ts: the reset of a fish that left the canvas *)

Section reset_facts.
Local Open Scope R_scope.
Import KoiFish koifish.

Lemma reentryDistance : 8 / 10 * Rabs canvasExitDistance = 16.
Proof.
  unfold canvasExitDistance. rewrite Rabs_left by lra. lra.
Qed.

Lemma getDirectionTo_run (p q : Point.t) :
  p ≠ q →
  ∃ v, Point.getDirectionTo p q = Ok v ∧ Vector.getMagnitude v = 1
       ∧ fst (Point.applyVector p (fst (Vector.scale v (Point.getDistanceTo p q) false)) false)
         = q.
Proof.
  intros Hne.
  assert (Hm : Vector.getMagnitude (Point.getVectorTo p q) ≠ 0).
  { intros H. by apply getDistanceTo_zero in H. }
  unfold Point.getDirectionTo. rewrite (normalize_ok _ false Hm). unfold withMutate.
  cbn [fst]. eexists. split; [reflexivity|]. split; [by apply magnitude_of_normalized|].
  unfold Point.getDistanceTo, Point.applyVector, Vector.scale, withMutate.
  cbn [fst Vector.dx Vector.dy].
  set (m := Vector.getMagnitude (Point.getVectorTo p q)) in *.
  unfold Point.getVectorTo. cbn [Vector.dx Vector.dy].
  destruct p as [a b], q as [c d]. cbn [Point.x Point.y]. f_equal; field; exact Hm.
Qed.

Lemma handleOutOfBounds_run self w :
  let rt := runtime w in
  let c := canvas w in
  0 <= width c → 0 <= height c →
  0 <= nextDraw rt 0 < 1 → 0 <= nextDraw rt 1 < 1 →
  0 <= nextDraw rt 2 < 1 → 0 <= nextDraw rt 3 < 1 →
  ∃ w' p t v,
    handleOutOfBounds self w = (Returned tt, w')
    ∧ koiFish w' self
      = set_direction v (set_targetPoint (OwnPoint t) (set_position p (koiFish w self)))
    ∧ (∀ other, other ≠ self → koiFish w' other = koiFish w other)
    ∧ canvas w' = c ∧ runtime w' = drawn 4 rt
    ∧ borderDistance c p = - 16
    ∧ (1 / 10 * width c <= Point.x t <= 9 / 10 * width c
       ∧ 1 / 10 * height c <= Point.y t <= 9 / 10 * height c)
    ∧ Point.getDirectionTo p t = Ok v.
Proof.
  intros rt c Hw Hh H0 H1 H2 H3.
  destruct (getRandomEdgePoint_at (8 / 10 * Rabs canvasExitDistance) w H0) as (p & Hp & Hin).
  fold rt in Hp, Hin. fold c in Hin.
  assert (Hd : borderDistance c p = - 16).
  { rewrite reentryDistance in Hin.
    apply (edge_distance c 16 (nextDraw rt 1)); [lra|done..]. }
  destruct (getRandomPoint_inside c (8 / 10) (drawn 2 rt))
    as (t & Ht & Htx & Hty & Hin_t); [done|done|lra|exact H2|exact H3|].
  assert (Hne : p ≠ t).
  { intros ->. apply not_true_iff_false in Hin_t. apply Hin_t.
    apply isPointOutOfBounds_min. lra. }
  destruct (getDirectionTo_run p t Hne) as (v & Hv & _).
  assert (Hrun : ∃ w', handleOutOfBounds self w = (Returned tt, w')
            ∧ koiFish w' = <[self := set_direction v
                                       (set_targetPoint (OwnPoint t)
                                          (set_position p (koiFish w self)))]>
                             (<[self := set_targetPoint (OwnPoint t)
                                          (set_position p (koiFish w self))]>
                                (<[self := set_position p (koiFish w self)]> (koiFish w)))
            ∧ canvas w' = c ∧ runtime w' = drawn 4 rt).
  { unfold handleOutOfBounds. unfold bind at 1. rewrite Hp.
    rewrite bind_updateKoiFish. cbn beta. rewrite bind_gets. cbn beta.
    unfold bind at 1, liftRuntime. cbn [runtime set_runtime set_koiFish canvas].
    fold c. rewrite Ht.
    rewrite bind_updateKoiFish. cbn beta. rewrite Hv. unfold liftResult.
    rewrite bind_ret_l. unfold updateKoiFish, modify.
    cbn [koiFish set_koiFish set_runtime]. rewrite !fn_lookup_insert.
    eexists. split; [reflexivity|]. split; [reflexivity|]. split; reflexivity. }
  destruct Hrun as (w' & Hrun & Hfish & Hcanvas & Hrt).
  exists w', p, t, v. split; [exact Hrun|]. rewrite Hfish.
  split; [by rewrite fn_lookup_insert|].
  split; [intros other Hother; by rewrite !fn_lookup_insert_ne by done|].
  split; [exact Hcanvas|]. split; [exact Hrt|]. split; [exact Hd|]. split; [|exact Hv]. lra.
Qed.
End reset_facts.

(** X20.  On a canvas of non-negative size and with draws in [0, 1),
    [handleOutOfBounds] always returns (it does not throw): it consumes four
    draws, puts the fish 16 units outside a border, which is within the
    exit distance of 20 so that the next update does not reset the fish
    again, gives it a target point of its own in the central 80% of the
    canvas and a unit direction that points from the new position to that
    target.  No other fish is changed. *)
Theorem X20_out_of_bounds_reset_brings_the_fish_back :
  ∀ (self : ObjectId) (w : World),
    (0 <= width (canvas w))%R → (0 <= height (canvas w))%R →
    (0 <= draw w 0 < 1)%R → (0 <= draw w 1 < 1)%R →
    (0 <= draw w 2 < 1)%R → (0 <= draw w 3 < 1)%R →
    ∃ (w' : World) (target : Point.t),
      koifish.handleOutOfBounds self w = (Returned tt, w')
      ∧ runtime w' = drawn 4 (runtime w)
      ∧ canvasUtil.getDistanceToCanvasBorder (canvas w') (KoiFish.position (koiFish w' self))
        = (-16)%R
      ∧ ¬ (canvasUtil.getDistanceToCanvasBorder (canvas w') (KoiFish.position (koiFish w' self))
           < koifish.canvasExitDistance)%R
      ∧ KoiFish.targetPoint (koiFish w' self) = OwnPoint target
      ∧ (1 / 10 * width (canvas w) <= Point.x target <= 9 / 10 * width (canvas w))%R
      ∧ (1 / 10 * height (canvas w) <= Point.y target <= 9 / 10 * height (canvas w))%R
      ∧ Vector.getMagnitude (KoiFish.direction (koiFish w' self)) = 1%R
      ∧ Point.getDirectionTo (KoiFish.position (koiFish w' self)) target
        = Ok (KoiFish.direction (koiFish w' self))
      ∧ ∀ other, other ≠ self → koiFish w' other = koiFish w other.
Proof.
  intros self w Hw Hh H0 H1 H2 H3.
  destruct (handleOutOfBounds_run self w Hw Hh H0 H1 H2 H3)
    as (w' & p & t & v & Hrun & Hself & Hothers & Hcanvas & Hrt & Hd & [Htx Hty] & Hv).
  exists w', t. split; [exact Hrun|].
  rewrite Hself, Hcanvas. cbn [KoiFish.position KoiFish.set_direction KoiFish.set_targetPoint
    KoiFish.set_position KoiFish.targetPoint KoiFish.direction].
  rewrite getDistanceToCanvasBorder_min, Hd.
  split; [exact Hrt|]. split; [reflexivity|].
  split; [unfold koifish.canvasExitDistance; lra|].
  split; [reflexivity|]. split; [exact Htx|]. split; [exact Hty|].
  split; [|split; [exact Hv | exact Hothers]].
  unfold Point.getDirectionTo in Hv.
  destruct (Req_dec (Vector.getMagnitude (Point.getVectorTo p t)) 0) as [Hz|Hnz].
  - unfold Vector.normalize, Vector.getMagnitude in *.
    destruct (Req_dec_T _ 0); [discriminate | contradiction].
  - rewrite (normalize_ok _ false Hnz) in Hv. injection Hv as <-.
    exact (magnitude_of_normalized (Point.getVectorTo p t) Hnz).
Qed.

(** the fish "koi" of the shoal, 30 units beyond the left border *)
Lemma X20_witness :
  ∃ w' : World,
    koifish.handleOutOfBounds "koi" scene.shoal = (Returned tt, w')
    ∧ canvasUtil.getDistanceToCanvasBorder (canvas w') (KoiFish.position (koiFish w' "koi"))
      = (-16)%R
    ∧ Vector.getMagnitude (KoiFish.direction (koiFish w' "koi")) = 1%R.
Proof.
  assert (Hw : (0 <= width (canvas scene.shoal))%R) by (simpl; lra).
  assert (Hh : (0 <= height (canvas scene.shoal))%R) by (simpl; lra).
  assert (H0 : (0 <= draw scene.shoal 0 < 1)%R) by (unfold draw; simpl; lra).
  assert (H1 : (0 <= draw scene.shoal 1 < 1)%R) by (unfold draw; simpl; lra).
  assert (H2 : (0 <= draw scene.shoal 2 < 1)%R) by (unfold draw; simpl; lra).
  assert (H3 : (0 <= draw scene.shoal 3 < 1)%R) by (unfold draw; simpl; lra).
  destruct (X20_out_of_bounds_reset_brings_the_fish_back "koi" scene.shoal Hw Hh H0 H1 H2 H3)
    as (w' & t & Hrun & _ & Hd & _ & _ & _ & _ & Hm & _).
  exists w'. split; [exact Hrun|]. split; [exact Hd | exact Hm].
Defined.

(* ================================================================= *)
(** ** geometry/Oscillator.ts: the phase *)

Section phase_facts.
Local Open Scope R_scope.
Import Oscillator.

(** the remainder is the dividend less a whole multiple of the divisor,
    and is smaller than the divisor *)
Lemma rem_bound (a b : R) : 0 < b → Rabs (Js.rem a b) < b.
Proof.
  intros Hb. unfold Js.rem, Js.trunc.
  assert (Ha : a = b * (a / b)) by (field; lra).
  destruct (Rle_dec 0 (a / b)) as [Hq|Hq].
  - pose proof (Zfloor_bound (a / b)) as [H1 H2].
    rewrite Rabs_pos_eq; [nra|]. nra.
  - pose proof (Zceil_bound (a / b)) as [H1 H2].
    rewrite Rabs_left1; [nra|]. nra.
Qed.

Lemma rem_nonneg (a b : R) : 0 < b → 0 <= a → 0 <= Js.rem a b.
Proof.
  intros Hb Ha. unfold Js.rem, Js.trunc.
  assert (Hq : 0 <= a / b).
  { unfold Rdiv. apply Rmult_le_pos; [lra|]. left. apply Rinv_0_lt_compat. lra. }
  assert (Ha' : a = b * (a / b)) by (field; lra).
  destruct (Rle_dec 0 (a / b)); [|contradiction].
  pose proof (Zfloor_bound (a / b)) as [H1 H2]. nra.
Qed.

Lemma sin_period_Z (t : R) (k : Z) : sin (t - 2 * PI * IZR k) = sin t.
Proof.
  destruct (Z_le_gt_dec 0 k) as [Hk|Hk].
  - rewrite <- (sin_period (t - 2 * PI * IZR k) (Z.to_nat k)).
    f_equal. rewrite INR_IZR_INZ, Z2Nat.id by done. ring.
  - rewrite <- (sin_period t (Z.to_nat (- k))).
    f_equal. rewrite INR_IZR_INZ, Z2Nat.id by lia. rewrite opp_IZR. ring.
Qed.

(** the phase after a read, and the value read *)
Definition phaseAt (o : Oscillator.t) (currentTime : R) : R :=
  2 * PI * ((currentTime - lastUpdateTime o) / 1000 / (period o / speedFactor o)) + phase o.

(** the value read at a time *)
Definition valueAt (o : Oscillator.t) (currentTime : R) : R :=
  min o + amplitude o + amplitude o * sin (phaseAt o currentTime).

(** the oscillator after a read at a time *)
Definition afterRead (o : Oscillator.t) (currentTime : R) : Oscillator.t :=
  mk (amplitude o) (period o) (Js.rem (phaseAt o currentTime) (2 * PI)) currentTime
     (min o) (max o) (neutralValue o) (valueAt o currentTime) (speedFactor o).

Lemma getValue_at o rt :
  getValue o rt
  = (Returned (valueAt o (clock rt (ticks rt)), afterRead o (clock rt (ticks rt))),
     mkRuntime (clock rt) (S (ticks rt)) (random rt) (draws rt)).
Proof. reflexivity. Qed.

Lemma valueAt_afterRead o t1 t2 : valueAt (afterRead o t1) t2 = valueAt o t2.
Proof.
  unfold valueAt at 1. cbn [afterRead min amplitude]. unfold valueAt. do 2 f_equal.
  unfold phaseAt at 1. cbn [afterRead lastUpdateTime period speedFactor phase].
  unfold Js.rem.
  rewrite <- (sin_period_Z (phaseAt o t2) (Js.trunc (phaseAt o t1 / (2 * PI)))).
  f_equal. unfold phaseAt, Rdiv. ring.
Qed.
End phase_facts.

(** X21.  Reading an oscillator does not disturb it: the value read at a
    time is the same whether or not the oscillator was read at an earlier
    time in between (the stored phase accounts for the time that has
    passed); the stored phase is kept within one turn, strictly between
    -2 PI and 2 PI, and in [0, 2 PI) when the phase reached is not
    negative; and an oscillator with phase 0 read at the time of its last
    update is at its neutral value, the middle of its range. *)
Theorem X21_reading_an_oscillator_does_not_disturb_it :
  ∀ (o : Oscillator.t) (rt direct : Runtime),
    clock direct (ticks direct) = clock rt (S (ticks rt)) →
    ∃ (v1 v2 : R) (o1 o2 o2' : Oscillator.t) (rt1 rt2 direct' : Runtime),
      Oscillator.getValue o rt = (Returned (v1, o1), rt1)
      ∧ Oscillator.getValue o1 rt1 = (Returned (v2, o2), rt2)
      ∧ Oscillator.getValue o direct = (Returned (v2, o2'), direct')
      ∧ (Rabs (Oscillator.phase o1) < 2 * PI)%R
      ∧ (0 <= phaseAt o (clock rt (ticks rt)) → 0 <= Oscillator.phase o1 < 2 * PI)%R
      ∧ (clock rt (ticks rt) = Oscillator.lastUpdateTime o → Oscillator.phase o = 0%R →
         v1 = (Oscillator.min o + Oscillator.amplitude o)%R).
Proof.
  intros o rt direct Hclock.
  pose proof PI_RGT_0 as Hpi.
  set (t1 := clock rt (ticks rt)). set (t2 := clock rt (S (ticks rt))).
  exists (valueAt o t1), (valueAt o t2), (afterRead o t1), (afterRead (afterRead o t1) t2),
    (afterRead o t2).
  eexists _, _, _.
  split; [apply getValue_at|].
  split; [rewrite getValue_at; cbn [clock ticks]; fold t2;
          by rewrite valueAt_afterRead|].
  split; [rewrite getValue_at, Hclock; reflexivity|].
  cbn [afterRead Oscillator.phase].
  split; [apply rem_bound; lra|].
  split.
  - intros Hpos. split; [apply rem_nonneg; lra|].
    pose proof (rem_bound (phaseAt o t1) (2 * PI) ltac:(lra)) as Hb.
    pose proof (Rle_abs (Js.rem (phaseAt o t1) (2 * PI))). lra.
  - intros Hnow Hphase. unfold valueAt, phaseAt. rewrite Hnow, Hphase.
    replace (2 * PI * ((Oscillator.lastUpdateTime o - Oscillator.lastUpdateTime o) / 1000
                       / (Oscillator.period o / Oscillator.speedFactor o)) + 0)%R
      with 0%R by (unfold Rdiv; ring).
    rewrite sin_0. ring.
Qed.

(** the tail oscillator of a fish, read 8 ms and 16 ms after its last
    update, against a single read at 16 ms *)
Lemma X21_witness :
  ∃ (v1 v2 : R) (o1 o2 o2' : Oscillator.t) (rt1 rt2 direct' : Runtime),
    Oscillator.getValue scene.oscillator scene.runtime = (Returned (v1, o1), rt1)
    ∧ Oscillator.getValue o1 rt1 = (Returned (v2, o2), rt2)
    ∧ Oscillator.getValue scene.oscillator (mkRuntime (λ _, 16%R) 0 (λ _, 0%R) 0)
      = (Returned (v2, o2'), direct').
Proof.
  assert (Hclock : clock (mkRuntime (λ _, 16%R) 0 (λ _, 0%R) 0)
                         (ticks (mkRuntime (λ _, 16%R) 0 (λ _, 0%R) 0))
                   = clock scene.runtime (S (ticks scene.runtime))).
  { simpl. lra. }
  destruct (X21_reading_an_oscillator_does_not_disturb_it scene.oscillator scene.runtime
              (mkRuntime (λ _, 16%R) 0 (λ _, 0%R) 0) Hclock)
    as (v1 & v2 & o1 & o2 & o2' & rt1 & rt2 & d' & H1 & H2 & H3 & _).
  exists v1, v2, o1, o2, o2', rt1, rt2, d'. split; [exact H1|]. split; [exact H2 | exact H3].
Defined.

(* ================================================================= *)
(** ** drawManager.ts: nothing is lost, nothing is drawn twice *)

Section flush_facts.
Import DrawManager.
Context {Callback : Type}.
Implicit Types (calls : list (DrawLayer * Callback)).

Lemma scheduledAt_cons layer (cb : Callback) calls l :
  scheduledAt ((layer, cb) :: calls) l
  = (if decide (layer = l) then [cb] else []) ++ scheduledAt calls l.
Proof.
  unfold scheduledAt. rewrite filter_cons. cbn [fst].
  by destruct (decide (layer = l)).
Qed.

Lemma executed_permutation calls :
  flat_map (scheduledAt calls) executedOrder ≡ₚ map snd calls.
Proof.
  induction calls as [|[layer cb] calls IH]; [done|].
  cbn [map snd]. rewrite <- IH. unfold executedOrder. cbn [flat_map].
  rewrite !scheduledAt_cons, !app_nil_r.
  destruct layer; cbn [decide_rel]; simpl;
    repeat (rewrite <- Permutation_middle); done.
Qed.
End flush_facts.

(** X22.  A flush runs every operation scheduled since the previous flush
    exactly once, whatever the layers: the operations executed are a
    permutation of the operations scheduled.  And it leaves nothing behind:
    a second flush right after executes nothing. *)
Theorem X22_flush_runs_every_scheduled_draw_once :
  ∀ (Callback : Type) (calls : list (DrawManager.DrawLayer * Callback)),
    fst (DrawManager.frame calls) ≡ₚ map snd calls
    ∧ length (fst (DrawManager.frame calls)) = length calls
    ∧ DrawManager.executeScheduledDraws (snd (DrawManager.frame calls))
      = ([], DrawManager.new).
Proof.
  intros Callback calls.
  assert (Hperm : fst (DrawManager.frame calls) ≡ₚ map snd calls).
  { rewrite executed_in_order, layerDrawOrder_eq. apply executed_permutation. }
  split; [exact Hperm|]. split; [by rewrite Hperm, length_map|]. reflexivity.
Qed.

(* ================================================================= *)
(** ** objects/food.ts: the life of a food after it is eaten *)

Section eaten_facts.
Import Food.

(** the world after [n] firings of the interval of a food *)
Definition firings (self : ObjectId) (n : nat) (w : World) : World :=
  Nat.iter n (λ w, snd (food.onInterval self w)) w.

(** while the particles last: [i] of them are gone, the rest is as before *)
Definition dissolving (self : ObjectId) (w0 : World) (i : nat) (w : World) : Prop :=
  foodParticles (food w self)
  = take (length (foodParticles (food w0 self)) - i) (foodParticles (food w0 self))
  ∧ isEaten (food w self) = true
  ∧ foodMap w = foodMap w0
  ∧ intervals w = intervals w0 ++ [self].

Lemma onEaten_run self w :
  food.onEaten self w
  = (Returned tt,
     set_intervals (intervals w ++ [self])
       (set_food (<[self := set_isEaten true (food w self)]> (food w)) w)).
Proof. reflexivity. Qed.

Lemma onEaten_dissolving self w : dissolving self w 0 (snd (food.onEaten self w)).
Proof.
  rewrite onEaten_run. unfold dissolving. cbn [snd food set_intervals set_food intervals foodMap].
  rewrite fn_lookup_insert. cbn [foodParticles isEaten set_isEaten].
  by rewrite Nat.sub_0_r, firstn_all.
Qed.

Lemma onInterval_dissolving self w0 i w :
  i < length (foodParticles (food w0 self)) →
  dissolving self w0 i w → dissolving self w0 (S i) (snd (food.onInterval self w)).
Proof.
  intros Hi (Hp & He & Hm & Hiv). unfold food.onInterval. rewrite bind_gets. cbn beta.
  assert (Hlen : length (foodParticles (food w self))
                 = length (foodParticles (food w0 self)) - i).
  { rewrite Hp, length_take. lia. }
  destruct (decide (0 < length (foodParticles (food w self)))) as [_|Hz]; [|lia].
  unfold dissolving, updateFood, modify. cbn [snd food set_food foodMap intervals].
  rewrite fn_lookup_insert. cbn [foodParticles isEaten set_foodParticles].
  split; [|done].
  rewrite removelast_firstn_len, Hlen, Hp, take_take. f_equal. lia.
Qed.

Lemma firings_dissolving self w0 i :
  i ≤ length (foodParticles (food w0 self)) →
  dissolving self w0 i (firings self i (snd (food.onEaten self w0))).
Proof.
  induction i as [|i IH]; intros Hi; [apply onEaten_dissolving|].
  unfold firings. cbn [Nat.iter]. apply onInterval_dissolving; [lia|]. apply IH. lia.
Qed.

Lemma onInterval_last self w0 w :
  dissolving self w0 (length (foodParticles (food w0 self))) w →
  foodMap (snd (food.onInterval self w)) = foodMap w0 ∖ {[self]}
  ∧ intervals (snd (food.onInterval self w)) = filter (λ i, i ≠ self) (intervals w0).
Proof.
  intros (Hp & He & Hm & Hiv). unfold food.onInterval. rewrite bind_gets. cbn beta.
  assert (Hlen : length (foodParticles (food w self)) = 0).
  { rewrite Hp, length_take. lia. }
  destruct (decide (0 < length (foodParticles (food w self)))) as [Hz|_]; [lia|].
  unfold bind, ObjectManager.removeFood. unfold modify.
  cbn [snd foodMap set_foodMap set_intervals intervals].
  rewrite Hm, Hiv. split; [done|].
  rewrite list.filter_app, filter_cons_False by (intros H; by apply H).
  by rewrite filter_nil, app_nil_r.
Qed.
End eaten_facts.

(** X23.  A food that is eaten dissolves and then goes: [onEaten] (on a
    food that is not dissolving already) marks it as eaten at once, so that
    no fish picks it as its closest food again, and starts an interval; with
    [n] particles left, each of the first [n] firings of the interval
    removes the last particle and keeps the food in the food collection; the
    firing after that removes the food from the collection and clears the
    interval. *)
Theorem X23_eaten_food_dissolves_then_is_removed :
  ∀ (self : ObjectId) (w : World),
    self ∉ intervals w →
    let n := length (Food.foodParticles (food w self)) in
    let eaten := snd (food.onEaten self w) in
    fst (food.onEaten self w) = Returned tt
    ∧ (∀ i : nat, i ≤ n →
         let wi := firings self i eaten in
         Food.isEaten (food wi self) = true
         ∧ Food.foodParticles (food wi self) = take (n - i) (Food.foodParticles (food w self))
         ∧ foodMap wi = foodMap w
         ∧ self ∈ intervals wi)
    ∧ foodMap (firings self (S n) eaten) = foodMap w ∖ {[self]}
    ∧ self ∉ intervals (firings self (S n) eaten).
Proof.
  intros self w _ n eaten. split; [reflexivity|]. split.
  - intros i Hi wi. destruct (firings_dissolving self w i Hi) as (Hp & He & Hm & Hiv).
    fold eaten in Hp, He, Hm, Hiv. fold wi in Hp, He, Hm, Hiv.
    split; [exact He|]. split; [exact Hp|]. split; [exact Hm|].
    rewrite Hiv. apply elem_of_app. right. apply list_elem_of_here.
  - pose proof (firings_dissolving self w n ltac:(done)) as Hd.
    destruct (onInterval_last self w _ Hd) as [Hm Hiv].
    change (firings self (S n) eaten)
      with (snd (food.onInterval self (firings self n eaten))).
    split; [exact Hm|]. unfold eaten. rewrite Hiv. intros Hin.
    apply list_elem_of_filter in Hin as [Hne _]. by apply Hne.
Qed.

(** the pellet "f" of the pond, with two particles left, eaten *)
Lemma X23_witness :
  let particle := Food.mkFoodParticle 0 10 45 5 Vector.UP in
  let w := set_food (<["f" := Food.set_foodParticles [particle; particle]
                               (food (scene.pond None) "f")]> (food (scene.pond None)))
                    (scene.pond None) in
  let eaten := snd (food.onEaten "f" w) in
  ("f" ∉ intervals w)
  ∧ ("f" ∈ foodMap (firings "f" 2 eaten))
  ∧ ("f" ∉ foodMap (firings "f" 3 eaten)).
Proof.
  intros particle w eaten.
  assert (Hno : "f" ∉ intervals w) by (intros H; by apply elem_of_nil in H).
  destruct (X23_eaten_food_dissolves_then_is_removed "f" w Hno) as (_ & Hwhile & Hgone & _).
  split; [exact Hno|]. split.
  - destruct (Hwhile 2%nat) as (_ & _ & Hm & _); [by vm_compute|].
    fold eaten in Hm. rewrite Hm. by vm_compute.
  - change (firings "f" 3 eaten)
      with (firings "f" (S (length (Food.foodParticles (food w "f")))) eaten).
    fold eaten in Hgone. rewrite Hgone. intros Hin.
    apply elem_of_difference in Hin as [_ Hin]. apply Hin. by apply elem_of_singleton.
Defined.

(* ================================================================= *)
(** ** geometry/Vector.ts: the heading of a vector *)

Section heading_facts.
Local Open Scope R_scope.
Import Vector.

(** [UP] turned clockwise by an angle *)
Lemma rotate_UP (a : R) :
  fst (rotateVector UP a false) = mk (sin (a * PI / 180)) (cos (a * PI / 180)).
Proof.
  unfold rotateVector, UP, withMutate. cbn [fst dx dy].
  replace (- a * PI / 180) with (- (a * PI / 180)) by field.
  rewrite cos_neg, sin_neg. f_equal; ring.
Qed.

(** a vector in polar form, the angle being its heading *)
Lemma getAngle_polar (v : t) :
  let g := getAngle v * PI / 180 in
  dx v = getMagnitude v * sin g ∧ dy v = getMagnitude v * cos g.
Proof.
  intros g. destruct (atan2_polar (dy v) (dx v)) as [Hy Hx]. cbv zeta in Hx, Hy.
  replace (dy v * dy v + dx v * dx v) with (dx v * dx v + dy v * dy v) in Hx, Hy by ring.
  fold (getMagnitude v) in Hx, Hy.
  assert (Hpi : PI ≠ 0) by (pose proof PI_RGT_0; lra).
  assert (Hg : g = Js.atan2 (dx v) (dy v) ∨ g = Js.atan2 (dx v) (dy v) + 2 * PI).
  { unfold g, getAngle. destruct (Rlt_dec _ 0); [right | left]; field; exact Hpi. }
  destruct Hg as [-> | ->]; [done|].
  by rewrite sin_plus, cos_plus, sin_2PI, cos_2PI, !Rmult_1_r, !Rmult_0_r, Rplus_0_r, Rminus_0_r.
Qed.

(** two angles of one turn with the same sine and cosine are equal *)
Lemma same_sin_cos (x y : R) :
  0 <= x < 2 * PI → 0 <= y < 2 * PI → sin x = sin y → cos x = cos y → x = y.
Proof.
  intros Hx Hy Hs Hc.
  assert (Hsin : ∀ a b, sin a = sin b → cos a = cos b → sin (a - b) = 0).
  { intros a b H1 H2. rewrite sin_minus, H1, H2. ring. }
  assert (Hcos : ∀ a b, sin a = sin b → cos a = cos b → cos (a - b) = 1).
  { intros a b H1 H2. rewrite cos_minus, H1, H2.
    pose proof (sin2_cos2 b) as H. unfold Rsqr in H. lra. }
  assert (Hzero : ∀ d, 0 <= d < 2 * PI → sin d = 0 → cos d = 1 → d = 0).
  { intros d [Hd0 Hd1] H1 H2.
    destruct (sin_eq_O_2PI_0 d Hd0 ltac:(lra) H1) as [H|[H|H]]; [done| |lra].
    rewrite H, cos_PI in H2. lra. }
  destruct (Rle_dec y x) as [Hle|Hgt].
  - assert (x - y = 0); [|lra]. apply Hzero; [lra|by apply Hsin|by apply Hcos].
  - assert (y - x = 0); [|lra]. apply Hzero; [lra|by apply Hsin|by apply Hcos].
Qed.

Lemma rotate_UP_getAngle (v : t) :
  getMagnitude v ≠ 0 →
  fst (rotateVector UP (getAngle v) false) = mk (dx v / getMagnitude v) (dy v / getMagnitude v).
Proof.
  intros Hm. rewrite rotate_UP. destruct (getAngle_polar v) as [Hx Hy]. cbv zeta in Hx, Hy.
  set (s := sin _) in *. set (c := cos _) in *. set (m := getMagnitude v) in *.
  f_equal; [rewrite Hx | rewrite Hy]; field; exact Hm.
Qed.

Lemma getAngle_rotate_UP (a : R) :
  0 <= a < 360 → getAngle (fst (rotateVector UP a false)) = a.
Proof.
  intros Ha. rewrite rotate_UP.
  set (w := mk (sin (a * PI / 180)) (cos (a * PI / 180))).
  assert (Hm : getMagnitude w = 1).
  { unfold getMagnitude, w. cbn [dx dy].
    pose proof (sin2_cos2 (a * PI / 180)) as H. unfold Rsqr in H. rewrite H. apply sqrt_1. }
  destruct (getAngle_polar w) as [Hx Hy]. cbv zeta in Hx, Hy.
  rewrite Hm, Rmult_1_l in Hx, Hy. unfold w in Hx at 1, Hy at 1. cbn [dx dy] in Hx, Hy.
  pose proof (getAngle_bound w) as Hg.
  pose proof PI_RGT_0 as Hpi.
  assert (Heq : getAngle w * PI / 180 = a * PI / 180).
  { apply same_sin_cos; [nra | nra | by symmetry | by symmetry]. }
  nra.
Qed.
End heading_facts.

(** X24.  The heading of a vector and the rotation of [UP] are inverse to
    each other: [UP] turned by [v.getAngle()] is [v] normalized (the unit
    vector of [v]; the heading of the zero vector, which cannot be
    normalized, is 0), and the heading of [UP] turned by an angle of
    [0, 360) is that angle. *)
Theorem X24_heading_and_rotation_round_trip :
  ∀ (v : Vector.t) (a : R),
    match Vector.normalize v false with
    | Ok (unit, _) => fst (Vector.rotateVector Vector.UP (Vector.getAngle v) false) = unit
    | Err _ => Vector.getAngle v = 0%R
    end
    ∧ ((0 <= a < 360)%R →
       Vector.getAngle (fst (Vector.rotateVector Vector.UP a false)) = a).
Proof.
  intros v a. split; [|apply getAngle_rotate_UP].
  destruct (Req_dec (Vector.getMagnitude v) 0) as [Hz|Hnz].
  - assert (Herr : Vector.normalize v false = Err "Cannot normalize a zero vector.").
    { unfold Vector.normalize, Vector.getMagnitude in *.
      destruct (Req_dec_T _ 0); [reflexivity | contradiction]. }
    rewrite Herr. apply magnitude_zero_iff in Hz as [Hx Hy].
    unfold Vector.getAngle, Js.atan2. rewrite Hx, Hy.
    repeat (destruct (Rlt_dec _ _); try lra).
  - rewrite (normalize_ok v false Hnz). unfold withMutate.
    by apply rotate_UP_getAngle.
Qed.

(* ================================================================= *)
(** ** objects/koifish.ts: the follow points *)

Section follow_point_facts.
Local Open Scope R_scope.
Import KoiFish koifish.

Lemma getVectorTo_applyVector (p : Point.t) (u : Vector.t) :
  Point.getVectorTo p (fst (Point.applyVector p u false)) = u.
Proof.
  unfold Point.getVectorTo, Point.applyVector, withMutate.
  cbn [fst Point.x Point.y]. destruct u as [a b]. cbn [Vector.dx Vector.dy].
  f_equal; ring.
Qed.

Lemma scale_rotateVector (v : Vector.t) (a k : R) :
  fst (Vector.rotateVector (fst (Vector.scale v k false)) a false)
  = fst (Vector.scale (fst (Vector.rotateVector v a false)) k false).
Proof.
  unfold Vector.rotateVector, Vector.scale, withMutate. cbn [fst Vector.dx Vector.dy].
  f_equal; ring.
Qed.

(** the point at the follow distance from the fish, in the direction of
    [UP] turned by the follow angle and then by the heading of the fish *)
Definition beside (this : KoiFish.t) (followAngle followDistance : R) : Point.t :=
  fst (Point.applyVector (position this)
         (fst (Vector.scale
                 (fst (Vector.rotateVector Vector.UP
                         (followAngle + Vector.getAngle (direction this)) false))
                 followDistance false))
         false).

Lemma newFollowPoint_beside this a d : newFollowPoint this a d = beside this a d.
Proof.
  unfold newFollowPoint, beside.
  by rewrite rotateAround_as_vector, getVectorTo_applyVector, scale_rotateVector,
    rotateVector_add.
Qed.

Lemma beside_distance this a d :
  Point.getDistanceTo (position this) (beside this a d) = Rabs d.
Proof.
  unfold Point.getDistanceTo, beside.
  rewrite getVectorTo_applyVector, scale_magnitude, rotateVector_magnitude.
  unfold Vector.getMagnitude, Vector.UP. cbn [Vector.dx Vector.dy].
  replace (0 * 0 + 1 * 1) with 1 by ring. rewrite sqrt_1. ring.
Qed.

(** for a fish whose direction is a unit vector, that is the direction of
    the fish turned by the follow angle *)
Lemma beside_direction this a d :
  Vector.getMagnitude (direction this) = 1 →
  beside this a d
  = fst (Point.applyVector (position this)
           (fst (Vector.scale (fst (Vector.rotateVector (direction this) a false)) d false))
           false).
Proof.
  intros Hunit. unfold beside.
  assert (Hm : Vector.getMagnitude (direction this) ≠ 0) by lra.
  pose proof (rotate_UP_getAngle (direction this) Hm) as Hup.
  rewrite Hunit, !Rdiv_1_r in Hup.
  replace (Vector.mk (Vector.dx (direction this)) (Vector.dy (direction this)))
    with (direction this) in Hup by (by destruct (direction this)).
  rewrite <- Hup at 2. rewrite rotateVector_add.
  by rewrite (Rplus_comm a).
Qed.

Lemma updateFollowPoints_run self w :
  let this := koiFish w self in
  let d := fish_followDistance (config w) in
  ∃ w', updateFollowPoints self w = (Returned tt, w')
        ∧ koiFish w' self
          = set_rightFollowPoint (beside this (rightFollowAngle this) d)
              (set_leftFollowPoint (beside this (leftFollowAngle this) d) this)
        ∧ (∀ other, other ≠ self → koiFish w' other = koiFish w other).
Proof.
  intros this d. unfold updateFollowPoints.
  rewrite bind_gets. cbn beta. unfold getThis. rewrite bind_gets. cbn beta.
  fold this. fold d. rewrite !newFollowPoint_beside.
  rewrite bind_updateKoiFish. unfold updateKoiFish, modify.
  eexists. split; [reflexivity|]. cbn [koiFish set_koiFish]. split.
  - rewrite !fn_lookup_insert. fold this. unfold Point.mutate.
    by destruct (beside this (leftFollowAngle this) d),
               (beside this (rightFollowAngle this) d).
  - intros other Hother. by rewrite !fn_lookup_insert_ne by done.
Qed.
End follow_point_facts.

(** X25.  [updateFollowPoints] never fails and puts the two follow points
    of a fish beside it: each is exactly the follow distance away from the
    position of the fish, in the direction of [UP] turned clockwise by the
    follow angle plus the heading of the fish, which for a fish with a unit
    direction is its direction turned clockwise by the follow angle.
    Nothing else of the fish changes, and no other fish changes. *)
Theorem X25_follow_points_ride_beside_the_fish :
  ∀ (self : ObjectId) (w : World),
    let this := koiFish w self in
    let d := fish_followDistance (config w) in
    let turned (angle : R) := fst (Vector.rotateVector (KoiFish.direction this) angle false) in
    let ahead (u : Vector.t) :=
      fst (Point.applyVector (KoiFish.position this) (fst (Vector.scale u d false)) false) in
    ∃ w' : World,
      koifish.updateFollowPoints self w = (Returned tt, w')
      ∧ koiFish w' self
        = KoiFish.set_rightFollowPoint (beside this (KoiFish.rightFollowAngle this) d)
            (KoiFish.set_leftFollowPoint (beside this (KoiFish.leftFollowAngle this) d) this)
      ∧ Point.getDistanceTo (KoiFish.position this) (KoiFish.leftFollowPoint (koiFish w' self))
        = Rabs d
      ∧ Point.getDistanceTo (KoiFish.position this) (KoiFish.rightFollowPoint (koiFish w' self))
        = Rabs d
      ∧ (Vector.getMagnitude (KoiFish.direction this) = 1%R →
         KoiFish.leftFollowPoint (koiFish w' self) = ahead (turned (KoiFish.leftFollowAngle this))
         ∧ KoiFish.rightFollowPoint (koiFish w' self)
           = ahead (turned (KoiFish.rightFollowAngle this)))
      ∧ ∀ other, other ≠ self → koiFish w' other = koiFish w other.
Proof.
  intros self w this d turned ahead.
  destruct (updateFollowPoints_run self w) as (w' & Hrun & Hself & Hothers).
  fold this in Hself. fold d in Hself.
  exists w'. split; [exact Hrun|]. split; [exact Hself|].
  rewrite Hself.
  cbn [KoiFish.leftFollowPoint KoiFish.rightFollowPoint KoiFish.set_rightFollowPoint
       KoiFish.set_leftFollowPoint].
  split; [apply beside_distance|]. split; [apply beside_distance|].
  split; [|exact Hothers].
  intros Hunit. split; by apply beside_direction.
Qed.

(* ================================================================= *)
(** ** objects/koifish.ts: what the behaviours leave alone, and the speed *)

Section body_facts.
Local Open Scope R_scope.
Import KoiFish koifish.

(** the fields of a fish that say where it is and how it moved: all but
    the speed, the turn multiplier, the target, the desired food, the
    pairing and the oscillators *)
Definition sameBody (a b : KoiFish.t) : Prop :=
  id b = id a ∧ size b = size a ∧ position b = position a ∧ direction b = direction a
  ∧ baseSpeed b = baseSpeed a ∧ previousSpeed b = previousSpeed a
  ∧ lastUpdateTime b = lastUpdateTime a
  ∧ leftFollowAngle b = leftFollowAngle a ∧ rightFollowAngle b = rightFollowAngle a
  ∧ leftFollowPoint b = leftFollowPoint a ∧ rightFollowPoint b = rightFollowPoint a.

Definition sameBodies (h0 h : ObjectId → KoiFish.t) : Prop := ∀ x, sameBody (h0 x) (h x).

Lemma sameBody_refl a : sameBody a a.
Proof. by repeat split. Qed.

Ltac body_step :=
  let h := fresh "h" in let Hh := fresh "Hh" in let y := fresh "y" in
  intros h Hh y; unfold sameBodies in Hh;
  match goal with
  | |- context [<[?x := _]> _ y] =>
      destruct (decide (x = y)) as [->|];
      [ rewrite fn_lookup_insert; exact (Hh y)
      | rewrite fn_lookup_insert_ne by done; exact (Hh y) ]
  end.

Lemma sameBodies_checkAndSetFoodBehavior h0 x :
  preserves (λ w, sameBodies h0 (koiFish w)) (checkAndSetFoodBehavior x).
Proof.
  unfold checkAndSetFoodBehavior, eatDesiredFood, findClosestFood, chaseFood,
    unsetLeaderFollower.
  walk body_step.
Qed.

Lemma sameBodies_checkAndSetFollowBehavior h0 fuel x :
  preserves (λ w, sameBodies h0 (koiFish w)) (checkAndSetFollowBehavior fuel x).
Proof.
  unfold checkAndSetFollowBehavior, setNewRandomTargetPoint, unsetLeaderFollower,
    setLeaderFollower.
  walk body_step.
Qed.

Lemma sameBodies_standardBehavior h0 fuel x :
  preserves (λ w, sameBodies h0 (koiFish w)) (standardBehavior fuel x).
Proof. unfold standardBehavior, setNewRandomTargetPoint. walk body_step. Qed.

Lemma sameBodies_selectBehavior h0 fuel x :
  preserves (λ w, sameBodies h0 (koiFish w)) (selectBehavior fuel x).
Proof.
  unfold selectBehavior.
  apply preserves_bind; [apply sameBodies_checkAndSetFoodBehavior|intros ?].
  apply preserves_bind; [|intros ?].
  - apply preserves_bind; [apply preserves_gets|intros this].
    destruct (desiredFood this);
      [apply preserves_ret | apply sameBodies_checkAndSetFollowBehavior].
  - apply preserves_bind; [apply preserves_gets|intros this].
    destruct (desiredFood this), (leaderKoiFish this);
      first [apply preserves_ret | apply sameBodies_standardBehavior].
Qed.
End body_facts.

(** X26.  The behaviour selection of [update] (food, follow and standard
    behaviour) only steers: whatever its outcome, also when it throws, it
    leaves the id, size, position, direction, base speed, previous speed,
    last update time, follow angles and follow points of every fish as they
    were.  A fish is moved and turned by the smoothing and the integration
    step of [update] alone. *)
Theorem X26_behaviour_selection_moves_no_fish :
  ∀ (fuel : nat) (self : ObjectId) (w : World) (x : ObjectId),
    let w' := snd (koifish.selectBehavior fuel self w) in
    KoiFish.id (koiFish w' x) = KoiFish.id (koiFish w x)
    ∧ KoiFish.size (koiFish w' x) = KoiFish.size (koiFish w x)
    ∧ KoiFish.position (koiFish w' x) = KoiFish.position (koiFish w x)
    ∧ KoiFish.direction (koiFish w' x) = KoiFish.direction (koiFish w x)
    ∧ KoiFish.baseSpeed (koiFish w' x) = KoiFish.baseSpeed (koiFish w x)
    ∧ KoiFish.previousSpeed (koiFish w' x) = KoiFish.previousSpeed (koiFish w x)
    ∧ KoiFish.lastUpdateTime (koiFish w' x) = KoiFish.lastUpdateTime (koiFish w x)
    ∧ KoiFish.leftFollowAngle (koiFish w' x) = KoiFish.leftFollowAngle (koiFish w x)
    ∧ KoiFish.rightFollowAngle (koiFish w' x) = KoiFish.rightFollowAngle (koiFish w x)
    ∧ KoiFish.leftFollowPoint (koiFish w' x) = KoiFish.leftFollowPoint (koiFish w x)
    ∧ KoiFish.rightFollowPoint (koiFish w' x) = KoiFish.rightFollowPoint (koiFish w x).
Proof.
  intros fuel self w x w'.
  pose proof (sameBodies_selectBehavior (koiFish w) fuel self w) as H.
  apply H. intros y. apply sameBody_refl.
Qed.

Section speed_facts.
Local Open Scope R_scope.
Import KoiFish koifish.

(** the speed that [smoothenSpeedChange] settles on *)
Definition clampedSpeed (previousSpeed speed maxSpeedChange : R) : R :=
  if Rgt_dec (Rabs (speed - previousSpeed)) maxSpeedChange
  then previousSpeed + Js.sign (speed - previousSpeed) * maxSpeedChange
  else speed.

Lemma clampedSpeed_bound (p s m : R) :
  0 <= m →
  Rabs (clampedSpeed p s m - p) <= m
  ∧ Rmin p s <= clampedSpeed p s m <= Rmax p s
  ∧ (Rabs (s - p) <= m → clampedSpeed p s m = s).
Proof.
  intros Hm. unfold clampedSpeed, Js.sign, Rmin, Rmax, Rabs.
  destruct (Rgt_dec _ m) as [Hbig|Hsmall]; revert Hbig || revert Hsmall;
    repeat (destruct (Rcase_abs _) || destruct (Rlt_dec _ _) || destruct (Rle_dec _ _));
    intros; repeat split; intros; lra.
Qed.

Lemma smoothenSpeedChange_run self w :
  let this := koiFish w self in
  let elapsed :=
    timeUtil.elapsedSeconds (clock (runtime w) (ticks (runtime w))) (lastUpdateTime this) in
  ∃ w', smoothenSpeedChange self w = (Returned tt, w')
        ∧ speed (koiFish w' self)
          = clampedSpeed (previousSpeed this) (speed this) (maxSpeedChangePerSecond * elapsed)
        ∧ sameBody this (koiFish w' self)
        ∧ (∀ other, other ≠ self → koiFish w' other = koiFish w other).
Proof.
  intros this elapsed.
  unfold smoothenSpeedChange, bind, getThis, gets, liftRuntime,
    timeUtil.getElapsedSeconds, Date_now, ret. simpl.
  fold this. fold elapsed. unfold clampedSpeed.
  destruct (Rgt_dec (Rabs (speed this - previousSpeed this))
                    (maxSpeedChangePerSecond * elapsed)).
  - eexists. split; [reflexivity|]. simpl. rewrite fn_lookup_insert. simpl. fold this.
    split; [reflexivity|]. split; [exact (sameBody_refl this)|].
    intros other Hother. by rewrite fn_lookup_insert_ne.
  - eexists. split; [reflexivity|]. simpl. fold this.
    split; [reflexivity|]. split; [apply sameBody_refl|]. done.
Qed.

(** the direction smoothing reads the clock once and changes the direction
    of the fish only *)
Lemma smoothenDirectionChange_frame self w :
  let w' := snd (smoothenDirectionChange self w) in
  speed (koiFish w' self) = speed (koiFish w self)
  ∧ previousSpeed (koiFish w' self) = previousSpeed (koiFish w self)
  ∧ lastUpdateTime (koiFish w' self) = lastUpdateTime (koiFish w self)
  ∧ runtime w' = mkRuntime (clock (runtime w)) (S (ticks (runtime w)))
                           (random (runtime w)) (draws (runtime w)).
Proof.
  unfold smoothenDirectionChange, bind, getThis, gets, liftRuntime,
    timeUtil.getElapsedSeconds, Date_now, ret. simpl.
  destruct (Rgt_dec _ 2); simpl; [rewrite fn_lookup_insert|]; done.
Qed.

Lemma startUpdate_speeds self w :
  let w' := snd (startUpdate self w) in
  previousSpeed (koiFish w' self) = speed (koiFish w self)
  ∧ lastUpdateTime (koiFish w' self) = lastUpdateTime (koiFish w self).
Proof. simpl. rewrite !fn_lookup_insert. by simpl. Qed.
End speed_facts.

(** X27.  The speed of a fish is rate limited.  In an [update()] call that
    reaches the smoothing (the fish was not out of bounds and the behaviour
    selection returned), with a clock that has not gone back since the
    previous update, [smoothenSpeedChange] returns and leaves the fish with
    a speed that differs from its speed before the call by at most 1.5
    times the elapsed seconds; the new speed lies between the old speed and
    the speed the behaviour asked for, and is the speed asked for when that
    is within the limit. *)
Theorem X27_speed_change_is_rate_limited :
  ∀ (fuel : nat) (self : ObjectId) (w0 w2 : World),
    let w1 := snd (koifish.startUpdate self w0) in
    koifish.selectBehavior fuel self w1 = (Returned tt, w2) →
    let w3 := snd (koifish.smoothenDirectionChange self w2) in
    let before := KoiFish.speed (koiFish w0 self) in
    let asked := KoiFish.speed (koiFish w2 self) in
    let elapsed :=
      timeUtil.elapsedSeconds (clock (runtime w3) (ticks (runtime w3)))
                              (KoiFish.lastUpdateTime (koiFish w0 self)) in
    (0 <= elapsed)%R →
    ∃ w4 : World,
      koifish.smoothenSpeedChange self w3 = (Returned tt, w4)
      ∧ (Rabs (KoiFish.speed (koiFish w4 self) - before) <= 15 / 10 * elapsed)%R
      ∧ (Rmin before asked <= KoiFish.speed (koiFish w4 self) <= Rmax before asked)%R
      ∧ ((Rabs (asked - before) <= 15 / 10 * elapsed)%R →
         KoiFish.speed (koiFish w4 self) = asked).
Proof.
  intros fuel self w0 w2 w1 Hselect w3 before asked elapsed Helapsed.
  destruct (startUpdate_speeds self w0) as [Hprev1 Hlast1]. fold w1 in Hprev1, Hlast1.
  pose proof (sameBodies_selectBehavior (koiFish w1) fuel self w1) as Hkeep.
  rewrite Hselect in Hkeep.
  destruct (Hkeep (λ y, sameBody_refl _) self)
    as (_ & _ & _ & _ & _ & Hprev2 & Hlast2 & _).
  cbn [snd] in Hprev2, Hlast2.
  destruct (smoothenDirectionChange_frame self w2) as (Hspeed3 & Hprev3 & Hlast3 & _).
  fold w3 in Hspeed3, Hprev3, Hlast3.
  destruct (smoothenSpeedChange_run self w3) as (w4 & Hrun & Hspeed & _ & _).
  rewrite Hspeed3, Hprev3, Hprev2, Hprev1, Hlast3, Hlast2, Hlast1 in Hspeed.
  fold before asked elapsed in Hspeed.
  exists w4. split; [exact Hrun|]. rewrite Hspeed.
  apply clampedSpeed_bound.
  unfold koifish.maxSpeedChangePerSecond. lra.
Qed.

(** the fish of the pond turns to the pellet "f" and asks for five times
    its base speed; 16 ms after its last update it gets 18.024 at most *)
Lemma X27_witness :
  let w0 := scene.pond None in
  let w1 := snd (koifish.startUpdate "koi" w0) in
  let w2 := snd (koifish.selectBehavior 0 "koi" w1) in
  let w3 := snd (koifish.smoothenDirectionChange "koi" w2) in
  koifish.selectBehavior 0 "koi" w1 = (Returned tt, w2)
  ∧ timeUtil.elapsedSeconds (clock (runtime w3) (ticks (runtime w3)))
                            (KoiFish.lastUpdateTime (koiFish w0 "koi")) = (16 / 1000)%R
  ∧ ∃ w4 : World,
      koifish.smoothenSpeedChange "koi" w3 = (Returned tt, w4)
      ∧ (Rabs (KoiFish.speed (koiFish w4 "koi") - 18) <= 15 / 10 * (16 / 1000))%R.
Proof.
  intros w0 w1 w2 w3.
  destruct (startUpdate_scene "koi" w0) as (w1' & Hstart & Hs & Hfood & Hmap & Hd & _).
  assert (Hw1 : w1' = w1) by (unfold w1; by rewrite Hstart). subst w1'.
  assert (Hsight : inSight w1 "koi" "f").
  { eapply inSight_scene; [exact Hs | by rewrite Hfood | by rewrite Hfood |].
    apply pond_inSight. }
  assert (Hnot : ¬ eatsNow w1 "koi" "f").
  { intros [H _]. rewrite Hd in H. discriminate H. }
  destruct (checkAndSetFoodBehavior_pursuit "koi" "f" w1 Hsight Hnot)
    as (_ & [(_ & Hdes & _) _] & Hret).
  assert (Hsel : koifish.selectBehavior 0 "koi" w1 = koifish.checkAndSetFoodBehavior "koi" w1)
    by (by apply (selectBehavior_chasing 0 "koi" "f")).
  assert (Hselect : koifish.selectBehavior 0 "koi" w1 = (Returned tt, w2)).
  { unfold w2. rewrite Hsel.
    rewrite (surjective_pairing (koifish.checkAndSetFoodBehavior "koi" w1)) at 1.
    f_equal. apply Hret. unfold distanceToFood.
    rewrite (scene_position _ _ Hs), Hfood.
    change (distanceToFood w0 (koiFish w0 "koi") "f" ≠ 0%R).
    unfold w0. rewrite pond_distance_f. lra. }
  assert (Hrt : runtime w2 = scene.runtime).
  { unfold w2. rewrite Hsel. apply (checkAndSetFoodBehavior_runtime scene.runtime "koi" w1).
    by rewrite (scene_runtime _ _ Hs). }
  destruct (smoothenDirectionChange_frame "koi" w2) as (_ & _ & _ & Hrt3). fold w3 in Hrt3.
  assert (Helapsed : timeUtil.elapsedSeconds (clock (runtime w3) (ticks (runtime w3)))
                       (KoiFish.lastUpdateTime (koiFish w0 "koi")) = (16 / 1000)%R).
  { rewrite Hrt3, Hrt. unfold timeUtil.elapsedSeconds. simpl. lra. }
  split; [exact Hselect|]. split; [exact Helapsed|].
  assert (Hpos : (0 <= timeUtil.elapsedSeconds (clock (runtime w3) (ticks (runtime w3)))
                       (KoiFish.lastUpdateTime (koiFish w0 "koi")))%R)
    by (rewrite Helapsed; lra).
  destruct (X27_speed_change_is_rate_limited 0 "koi" w0 w2 Hselect Hpos)
    as (w4 & Hrun & Hbound & _).
  exists w4. split; [exact Hrun|].
  rewrite <- Helapsed. exact Hbound.
Defined.

(* ================================================================= *)
(** ** objects/koifish.ts: the search for a new target point *)

Section target_facts.
Local Open Scope R_scope.
Import KoiFish koifish.

(** the [i]-th point that the loop of [setNewRandomTargetPoint] draws: the
    result of the [i]-th call of [Point.getRandomPoint(0.9)] *)
Definition candidate (c : Canvas) (rt : Runtime) (i : nat) : Point.t :=
  Point.mk ((1 - 9 / 10) * width c / 2 + nextDraw rt (2 * i) * (width c * (9 / 10)))
           ((1 - 9 / 10) * height c / 2 + nextDraw rt (2 * i + 1) * (height c * (9 / 10))).

Lemma getRandomPoint_candidate c rt :
  Point.getRandomPoint c (9 / 10) rt = (Returned (candidate c rt 0), drawn 2 rt).
Proof. reflexivity. Qed.

Lemma candidate_drawn c rt i : candidate c (drawn 2 rt) i = candidate c rt (S i).
Proof.
  unfold candidate, nextDraw, drawn. cbn [random draws].
  replace (2 * i + (2 + draws rt))%nat with (2 * S i + draws rt)%nat by lia.
  replace (2 * i + 1 + (2 + draws rt))%nat with (2 * S i + 1 + draws rt)%nat by lia.
  reflexivity.
Qed.

Lemma candidate_after c rt i : candidate c (drawn (2 * i) rt) 0 = candidate c rt i.
Proof.
  unfold candidate, nextDraw, drawn. cbn [random draws].
  replace (2 * 0 + (2 * i + draws rt))%nat with (2 * i + draws rt)%nat by lia.
  replace (2 * 0 + 1 + (2 * i + draws rt))%nat with (2 * i + 1 + draws rt)%nat by lia.
  reflexivity.
Qed.

Lemma drawn_drawn n m rt : drawn n (drawn m rt) = drawn (n + m) rt.
Proof. unfold drawn. cbn [clock ticks random draws]. f_equal. lia. Qed.

(** the loop returns the first candidate that is not too close *)
Lemma whileTooClose_first (k : nat) :
  ∀ fuel c position q d rt,
    d < 300 →
    (∀ i, (i < k)%nat → Point.getDistanceTo position (candidate c rt i) < 300) →
    ¬ Point.getDistanceTo position (candidate c rt k) < 300 →
    (k < fuel)%nat →
    whileTooClose fuel c position q d rt
    = (Returned (candidate c rt k), drawn (2 * (k + 1)) rt).
Proof.
  induction k as [|k IH]; intros fuel c position q d rt Hd Hclose Hfar Hfuel.
  - destruct fuel as [|fuel]; [lia|]. cbn [whileTooClose].
    destruct (Rlt_dec d 300) as [_|Hn]; [|contradiction].
    unfold bind. rewrite getRandomPoint_candidate.
    destruct fuel; cbn [whileTooClose];
      (destruct (Rlt_dec _ 300) as [Hc|_]; [contradiction|reflexivity]).
  - destruct fuel as [|fuel]; [lia|]. cbn [whileTooClose].
    destruct (Rlt_dec d 300) as [_|Hn]; [|contradiction].
    unfold bind. rewrite getRandomPoint_candidate.
    rewrite (IH fuel c position (candidate c rt 0) _ (drawn 2 rt)).
    + rewrite candidate_drawn, drawn_drawn. do 2 f_equal. lia.
    + apply Hclose. lia.
    + intros i Hi. rewrite candidate_drawn. apply Hclose. lia.
    + by rewrite candidate_drawn.
    + lia.
Qed.

(** when every candidate is too close the loop goes on *)
Lemma whileTooClose_forever (fuel : nat) :
  ∀ c position q d rt,
    d < 300 →
    (∀ i, Point.getDistanceTo position (candidate c rt i) < 300) →
    fst (whileTooClose fuel c position q d rt) = OutOfFuel.
Proof.
  induction fuel as [|fuel IH]; intros c position q d rt Hd Hclose; cbn [whileTooClose];
    (destruct (Rlt_dec d 300) as [_|Hn]; [|contradiction]); [reflexivity|].
  unfold bind. rewrite getRandomPoint_candidate.
  apply IH; [apply Hclose|]. intros i. rewrite candidate_drawn. apply Hclose.
Qed.

Lemma candidate_inside c rt i :
  0 <= width c → 0 <= height c →
  0 <= nextDraw rt (2 * i) < 1 → 0 <= nextDraw rt (2 * i + 1) < 1 →
  1 / 20 * width c <= Point.x (candidate c rt i) <= 19 / 20 * width c
  ∧ 1 / 20 * height c <= Point.y (candidate c rt i) <= 19 / 20 * height c.
Proof.
  intros Hw Hh H0 H1. unfold candidate. cbn [Point.x Point.y].
  pose proof (margin_bounds (width c) (9 / 10) _ Hw ltac:(lra) H0) as Hx.
  pose proof (margin_bounds (height c) (9 / 10) _ Hh ltac:(lra) H1) as Hy.
  cbv zeta in Hx, Hy. lra.
Qed.

(** two points of a canvas are closer than its diagonal is long *)
Lemma distance_within (c : Canvas) (p q : Point.t) (bound : R) :
  0 <= Point.x p <= width c → 0 <= Point.y p <= height c →
  0 <= Point.x q <= width c → 0 <= Point.y q <= height c →
  0 <= bound → width c * width c + height c * height c < bound * bound →
  Point.getDistanceTo p q < bound.
Proof.
  intros Hpx Hpy Hqx Hqy Hb Hdiag.
  unfold Point.getDistanceTo, Point.getVectorTo, Vector.getMagnitude.
  cbn [Vector.dx Vector.dy].
  rewrite <- (sqrt_square bound) by exact Hb.
  set (a := Point.x q - Point.x p). set (b := Point.y q - Point.y p).
  assert (Ha : a * a <= width c * width c).
  { assert (0 <= (width c - a) * (width c + a)) by (apply Rmult_le_pos; unfold a; lra). lra. }
  assert (Hb' : b * b <= height c * height c).
  { assert (0 <= (height c - b) * (height c + b)) by (apply Rmult_le_pos; unfold b; lra).
    lra. }
  apply sqrt_lt_1_alt. split; [nra | lra].
Qed.
End target_facts.

(** X28.  [setNewRandomTargetPoint] draws candidate points with
    [Point.getRandomPoint(0.9)] until one is at least 300 away from the
    fish, and makes the first such candidate the target: when the first [k]
    candidates are closer than 300 and the next one is not, the call
    returns after 2 (k + 1) random draws with that candidate (the result of
    the call of [getRandomPoint] number [k]) as the target point of the fish,
    a point of its own; nothing else of the fish and no other fish
    changes.  With draws in [0, 1) the target lies in the central
    90% of the canvas. *)
Theorem X28_new_target_is_the_first_far_candidate :
  ∀ (k fuel : nat) (self : ObjectId) (w : World),
    let this := koiFish w self in
    let distance (i : nat) :=
      Point.getDistanceTo (KoiFish.position this) (candidate (canvas w) (runtime w) i) in
    (∀ i, (i < k)%nat → (distance i < 300)%R) →
    (300 <= distance k)%R →
    (k < fuel)%nat →
    (∀ i, Point.getRandomPoint (canvas w) (9 / 10) (drawn (2 * i) (runtime w))
          = (Returned (candidate (canvas w) (runtime w) i), drawn (2 * (i + 1)) (runtime w)))
    ∧ ∃ w' : World,
      koifish.setNewRandomTargetPoint fuel self w = (Returned tt, w')
      ∧ koiFish w' self
        = KoiFish.set_targetPoint (OwnPoint (candidate (canvas w) (runtime w) k)) this
      ∧ (∀ other, other ≠ self → koiFish w' other = koiFish w other)
      ∧ runtime w' = drawn (2 * (k + 1)) (runtime w)
      ∧ ((0 <= width (canvas w))%R → (0 <= height (canvas w))%R →
         (0 <= nextDraw (runtime w) (2 * k) < 1)%R →
         (0 <= nextDraw (runtime w) (2 * k + 1) < 1)%R →
         canvasUtil.isPointOutOfBounds (canvas w) (candidate (canvas w) (runtime w) k) 0
         = false).
Proof.
  intros k fuel self w this distance Hclose Hfar Hfuel.
  split.
  { intros i. rewrite getRandomPoint_candidate, drawn_drawn, candidate_after.
    do 2 f_equal. lia. }
  assert (Hloop : koifish.whileTooClose fuel (canvas w) (KoiFish.position this)
                    (KoiFish.position this) 0 (runtime w)
                  = (Returned (candidate (canvas w) (runtime w) k),
                     drawn (2 * (k + 1)) (runtime w))).
  { apply whileTooClose_first; [lra | exact Hclose | | exact Hfuel].
    fold (distance k). lra. }
  unfold koifish.setNewRandomTargetPoint, koifish.getThis.
  rewrite bind_gets. cbn beta. rewrite bind_gets. cbn beta. fold this.
  unfold bind, liftRuntime. rewrite Hloop. unfold updateKoiFish, modify.
  eexists. split; [reflexivity|]. cbn [koiFish set_koiFish set_runtime runtime].
  split; [by rewrite fn_lookup_insert|].
  split; [intros other Hother; by rewrite fn_lookup_insert_ne|].
  split; [reflexivity|].
  intros Hw Hh H0 H1.
  destruct (candidate_inside (canvas w) (runtime w) k Hw Hh H0 H1) as [Hx Hy].
  apply not_true_iff_false. intros Hout.
  apply isPointOutOfBounds_min in Hout. unfold borderDistance, Rmin in Hout.
  repeat destruct (Rle_dec _ _); lra.
Qed.

(** the fish of the pond, at (100, 100): the first candidate is the centre
    of the canvas, more than 300 away *)
Lemma X28_witness :
  ∃ w' : World,
    koifish.setNewRandomTargetPoint 1 "koi" (scene.pond None) = (Returned tt, w')
    ∧ KoiFish.targetPoint (koiFish w' "koi") = OwnPoint (Point.mk 500 250).
Proof.
  assert (Hc : candidate (canvas (scene.pond None)) (runtime (scene.pond None)) 0
               = Point.mk 500 250).
  { unfold candidate, nextDraw. simpl. f_equal; lra. }
  assert (Hfar : (300 <= Point.getDistanceTo (KoiFish.position (koiFish (scene.pond None) "koi"))
                           (candidate (canvas (scene.pond None))
                                      (runtime (scene.pond None)) 0))%R).
  { rewrite Hc. unfold Point.getDistanceTo, Point.getVectorTo, Vector.getMagnitude. simpl.
    rewrite <- (sqrt_square 300) at 1 by lra. apply sqrt_le_1_alt. lra. }
  destruct (X28_new_target_is_the_first_far_candidate 0 1 "koi" (scene.pond None))
    as (_ & w' & Hrun & Hself & _); [intros i Hi; lia | exact Hfar | lia |].
  exists w'. split; [exact Hrun|]. by rewrite Hself, Hc.
Defined.

(** X29.  On a canvas whose diagonal is shorter than 300 the search for a
    new target point never ends: for a fish inside the canvas and draws in
    [0, 1), every candidate is closer than 300, so the loop of
    [setNewRandomTargetPoint] runs for as many iterations as it is given,
    and the fish is not changed. *)
Theorem X29_no_target_on_a_small_canvas :
  ∀ (fuel : nat) (self : ObjectId) (w : World),
    let this := koiFish w self in
    (0 <= Point.x (KoiFish.position this) <= width (canvas w))%R →
    (0 <= Point.y (KoiFish.position this) <= height (canvas w))%R →
    (width (canvas w) * width (canvas w) + height (canvas w) * height (canvas w)
     < 300 * 300)%R →
    (∀ i, 0 <= random (runtime w) i < 1)%R →
    fst (koifish.setNewRandomTargetPoint fuel self w) = OutOfFuel
    ∧ koiFish (snd (koifish.setNewRandomTargetPoint fuel self w)) = koiFish w.
Proof.
  intros fuel self w this Hx Hy Hdiag Hdraws.
  assert (Hloop : fst (koifish.whileTooClose fuel (canvas w) (KoiFish.position this)
                         (KoiFish.position this) 0 (runtime w)) = OutOfFuel).
  { apply whileTooClose_forever; [lra|]. intros i.
    destruct (candidate_inside (canvas w) (runtime w) i) as [Hcx Hcy];
      [lra | lra | apply Hdraws | apply Hdraws |].
    apply (distance_within (canvas w)); [done | done | lra | lra | lra | exact Hdiag]. }
  unfold koifish.setNewRandomTargetPoint, koifish.getThis.
  rewrite bind_gets. cbn beta. rewrite bind_gets. cbn beta. fold this.
  unfold bind, liftRuntime.
  destruct (koifish.whileTooClose _ _ _ _ _ _) as [[p|msg|] rt']; [discriminate..|].
  split; reflexivity.
Qed.

(** a window of 200 x 100, the fish in its corner *)
Lemma X29_witness :
  let w := snd (canvasUtil.setupCanvas 200 100 scene.blank) in
  fst (koifish.setNewRandomTargetPoint 1000 "koi" w) = OutOfFuel.
Proof.
  intros w.
  assert (Hx : (0 <= Point.x (KoiFish.position (koiFish w "koi")) <= width (canvas w))%R)
    by (simpl; lra).
  assert (Hy : (0 <= Point.y (KoiFish.position (koiFish w "koi")) <= height (canvas w))%R)
    by (simpl; lra).
  assert (Hdiag : (width (canvas w) * width (canvas w) + height (canvas w) * height (canvas w)
                   < 300 * 300)%R) by (simpl; lra).
  assert (Hdraws : ∀ i, (0 <= random (runtime w) i < 1)%R) by (intros i; simpl; lra).
  exact (proj1 (X29_no_target_on_a_small_canvas 1000 "koi" w Hx Hy Hdiag Hdraws)).
Defined.

(* ================================================================= *)
(** ** objects/wave.ts: the re-entry of a wave outside of river mode *)

Section ambient_wave.
Local Open Scope R_scope.

Lemma prepareReentry_ambient self w :
  let rt := runtime w in
  let c := canvas w in
  wave_riverMode (config w) = false →
  0 <= width c → 0 <= height c →
  0 <= nextDraw rt 0 < 1 → 0 <= nextDraw rt 1 < 1 →
  0 <= nextDraw rt 2 < 1 → 0 <= nextDraw rt 3 < 1 →
  ∃ w' p t v,
    wave.prepareReentry self w = (Returned tt, w')
    ∧ wave w' self = Wave.set_direction v (Wave.set_position p (wave w self))
    ∧ waveMap w' = waveMap w ∧ canvas w' = c
    ∧ runtime w' = drawn 4 rt
    ∧ borderDistance c p = - 300
    ∧ (0 <= Point.x t <= width c ∧ 0 <= Point.y t <= height c)
    ∧ Point.getDirectionTo p t = Ok v.
Proof.
  intros rt c Hmode Hw Hh H0 H1 H2 H3.
  destruct (getRandomEdgePoint_at 300 w H0) as (p & Hp & Hin).
  fold rt in Hp, Hin. fold c in Hin.
  assert (Hd : borderDistance c p = - 300).
  { apply (edge_distance c 300 (nextDraw rt 1)); [lra|done..]. }
  destruct (getRandomPoint_inside c 1 (drawn 2 rt))
    as (t & Ht & Htx & Hty & Hin_t); [done|done|lra|exact H2|exact H3|].
  assert (Hne : p ≠ t).
  { intros ->. apply not_true_iff_false in Hin_t. apply Hin_t.
    apply isPointOutOfBounds_min. lra. }
  destruct (getDirectionTo_run p t Hne) as (v & Hv & _).
  exists (set_wave (<[self := Wave.set_direction v (Wave.set_position p (wave w self))]>
                     (<[self := Wave.set_position p (wave w self)]> (wave w)))
                   (set_runtime (drawn 4 rt) w)), p, t, v.
  split.
  - unfold wave.prepareReentry. rewrite bind_gets. cbn beta. rewrite Hmode.
    unfold bind at 1. unfold bind at 1. rewrite Hp.
    rewrite bind_gets. cbn beta. cbn [canvas set_runtime]. fold c.
    unfold bind at 1, liftRuntime. cbn [runtime set_runtime]. rewrite Ht.
    rewrite Hv. unfold liftResult. rewrite bind_ret_l. unfold ret. cbn [fst snd].
    unfold updateWave, bind, modify.
    cbn [wave set_wave set_runtime]. rewrite !fn_lookup_insert. reflexivity.
  - cbn [wave set_wave set_runtime waveMap canvas runtime].
    split; [by rewrite fn_lookup_insert|].
    split; [reflexivity|]. split; [reflexivity|]. split; [reflexivity|].
    split; [exact Hd|]. split; [|exact Hv]. lra.
Qed.
End ambient_wave.

Section ambient_update.
Local Open Scope R_scope.

Lemma update_reenters_ambient self w :
  let rt := runtime w in
  let c := canvas w in
  wave_riverMode (config w) = false →
  canvasUtil.isPointOutOfBounds c (translated w self) 500 = true →
  0 <= width c → 0 <= height c →
  0 <= nextDraw rt 0 < 1 → 0 <= nextDraw rt 1 < 1 →
  0 <= nextDraw rt 2 < 1 → 0 <= nextDraw rt 3 < 1 →
  ∃ w' p t v,
    wave.update self w = (Returned tt, w')
    ∧ waveMap w' = waveMap w ∧ canvas w' = c
    ∧ Wave.id (wave w' self) = Wave.id (wave w self)
    ∧ Wave.position (wave w' self) = p
    ∧ Wave.direction (wave w' self) = v
    ∧ Wave.lastUpdateTime (wave w' self) = clock rt (S (ticks rt))
    ∧ borderDistance c p = - 300
    ∧ (0 <= Point.x t <= width c ∧ 0 <= Point.y t <= height c)
    ∧ Point.getDirectionTo p t = Ok v.
Proof.
  intros rt c Hmode Hout Hw Hh H0 H1 H2 H3.
  unfold wave.update. rewrite bind_gets. cbn beta.
  unfold bind at 1, liftRuntime, timeUtil.getElapsedSeconds. unfold bind at 1.
  unfold Date_now at 1. cbn [ret].
  unfold updateWave at 1. rewrite bind_modify. cbn beta.
  rewrite bind_gets. cbn beta. rewrite bind_gets. cbn beta.
  set (w1 := set_wave _ _).
  assert (Hpos : Wave.position (wave w1 self) = translated w self).
  { unfold w1. cbn [wave set_wave set_runtime]. by rewrite fn_lookup_insert. }
  assert (Hcanvas : canvas w1 = c) by reflexivity.
  rewrite Hpos, Hcanvas, Hout.
  destruct (prepareReentry_ambient self w1)
    as (w2 & p & t & v & Hrun & Hself & Hmap & Hcanvas2 & Hrt & Hd & Ht & Hv); try done.
  unfold bind at 1. rewrite Hrun.
  unfold bind at 1, liftRuntime, Date_now. unfold updateWave, modify.
  exists (set_wave (<[self := Wave.set_lastUpdateTime (clock rt (S (ticks rt))) (wave w2 self)]>
                     (wave w2))
                   (set_runtime (mkRuntime (clock rt) (S (S (ticks rt))) (random rt)
                                           (4 + draws rt)) w2)), p, t, v.
  split; [by rewrite Hrt|].
  cbn [waveMap set_wave set_runtime wave canvas]. rewrite fn_lookup_insert, Hself.
  split; [exact Hmap|]. split; [exact Hcanvas2|].
  split.
  { cbn [Wave.id Wave.set_lastUpdateTime Wave.set_direction Wave.set_position].
    unfold w1. cbn [wave set_wave set_runtime]. by rewrite fn_lookup_insert. }
  split; [reflexivity|]. split; [reflexivity|]. split; [reflexivity|].
  split; [exact Hd|]. split; [exact Ht | exact Hv].
Qed.
End ambient_update.

(** X30.  Outside of river mode (the mode of the selected theme), when the
    translated position of a wave is out of bounds by the 500-unit margin,
    on a canvas of non-negative size and with four draws in [0, 1),
    [update] returns (it does not throw) and keeps the wave in the
    collection; the wave re-enters from a point exactly 300 units outside a
    border of the canvas (inside the 500-unit margin, so that it is not
    sent back again), heading with a unit direction for a point of the
    canvas; its last update time is the second clock reading of the
    call. *)
Theorem X30_ambient_wave_reenters_from_an_edge :
  ∀ (self : ObjectId) (w : World),
    wave_riverMode (config w) = false →
    canvasUtil.isPointOutOfBounds (canvas w) (translated w self) 500 = true →
    (0 <= width (canvas w))%R → (0 <= height (canvas w))%R →
    (0 <= draw w 0 < 1)%R → (0 <= draw w 1 < 1)%R →
    (0 <= draw w 2 < 1)%R → (0 <= draw w 3 < 1)%R →
    ∃ (w' : World) (target : Point.t),
      wave.update self w = (Returned tt, w')
      ∧ waveMap w' = waveMap w
      ∧ Wave.id (wave w' self) = Wave.id (wave w self)
      ∧ canvasUtil.getDistanceToCanvasBorder (canvas w) (Wave.position (wave w' self))
        = (- 300)%R
      ∧ canvasUtil.isPointOutOfBounds (canvas w) (Wave.position (wave w' self)) 500 = false
      ∧ (0 <= Point.x target <= width (canvas w))%R
      ∧ (0 <= Point.y target <= height (canvas w))%R
      ∧ Point.getDirectionTo (Wave.position (wave w' self)) target
        = Ok (Wave.direction (wave w' self))
      ∧ Vector.getMagnitude (Wave.direction (wave w' self)) = 1%R
      ∧ Wave.lastUpdateTime (wave w' self)
        = clock (runtime w) (S (ticks (runtime w))).
Proof.
  intros self w Hmode Hout Hw Hh H0 H1 H2 H3.
  destruct (update_reenters_ambient self w Hmode Hout Hw Hh H0 H1 H2 H3)
    as (w' & p & t & v & Hrun & Hmap & _ & Hid & Hp & Hv & Hlast & Hd & [Htx Hty] & Hdir).
  exists w', t. rewrite Hp, Hv, Hlast.
  split; [exact Hrun|]. split; [exact Hmap|]. split; [exact Hid|].
  rewrite getDistanceToCanvasBorder_min. fold (borderDistance (canvas w) p).
  split; [exact Hd|]. split.
  { apply not_true_iff_false. intros H. apply isPointOutOfBounds_min in H.
    fold (borderDistance (canvas w) p) in H. lra. }
  split; [exact Htx|]. split; [exact Hty|]. split; [exact Hdir|]. split; [|reflexivity].
  unfold Point.getDirectionTo in Hdir.
  destruct (Req_dec (Vector.getMagnitude (Point.getVectorTo p t)) 0) as [Hz|Hnz].
  - unfold Vector.normalize, Vector.getMagnitude in *.
    destruct (Req_dec_T _ 0); [discriminate | contradiction].
  - rewrite (normalize_ok _ false Hnz) in Hdir. injection Hdir as <-.
    exact (magnitude_of_normalized (Point.getVectorTo p t) Hnz).
Qed.

(** the wave of the river scene, 600 under the canvas, with river mode
    switched off *)
Lemma X30_witness :
  let w := mkWorld scene.runtime (mkConfig 50 false (2 / 10)) (mkCanvas 1000 500)
                   (sqrt (1000 ^ 2 + 500 ^ 2)) 20 10 ∅
                   (koiFish (scene.river (1 / 2))) (food (scene.river (1 / 2)))
                   (wave (scene.river (1 / 2))) ∅ {[ "w1" ]} ∅ [] in
  ∃ w' : World,
    wave.update "w1" w = (Returned tt, w')
    ∧ canvasUtil.getDistanceToCanvasBorder (canvas w) (Wave.position (wave w' "w1"))
      = (- 300)%R
    ∧ Vector.getMagnitude (Wave.direction (wave w' "w1")) = 1%R.
Proof.
  intros w.
  assert (Hout : canvasUtil.isPointOutOfBounds (canvas w) (translated w "w1") 500 = true).
  { unfold canvasUtil.isPointOutOfBounds, translated, timeUtil.elapsedSeconds. simpl.
    unfold Js.gtb, Js.ltb.
    repeat destruct (Rlt_dec _ _); simpl; try reflexivity; lra. }
  assert (Hw : (0 <= width (canvas w))%R) by (simpl; lra).
  assert (Hh : (0 <= height (canvas w))%R) by (simpl; lra).
  assert (Hr : ∀ i, (0 <= draw w i < 1)%R) by (intros i; unfold draw; simpl; lra).
  destruct (X30_ambient_wave_reenters_from_an_edge "w1" w eq_refl Hout Hw Hh
              (Hr 0%nat) (Hr 1%nat) (Hr 2%nat) (Hr 3%nat))
    as (w' & t & Hrun & _ & _ & Hd & _ & _ & _ & _ & Hm & _).
  exists w'. split; [exact Hrun|]. split; [exact Hd | exact Hm].
Defined.

(* ================================================================= *)
(** ** Food seeking (C4): the food that the scan goes over *)

Section listing_facts.
Import KoiFish koifish.
Local Open Scope R_scope.



















End listing_facts.

Section missed_food.
Import KoiFish koifish.
Local Open Scope R_scope.


(** in a location map with one food and one fish, the food is the only
    one *)
Lemma only_food (kf kk : Z) (F K G : ObjectId) (k : Z) :
  mkRef FoodClass G
    ∈ default [] ((<[ kf := [mkRef FoodClass F] ]> {[ kk := [mkRef KoiFishClass K] ]}
                    : gmap Z (list ObjectRef)) !! k) →
  k = kf ∧ G = F.
Proof.
  intros Hin. destruct (decide (k = kf)) as [->|Hk].
  - rewrite lookup_insert_eq in Hin. simpl in Hin.
    apply list_elem_of_singleton in Hin. split; [done | congruence].
  - rewrite lookup_insert_ne in Hin by done.
    destruct (decide (k = kk)) as [->|Hk'].
    + rewrite lookup_singleton_eq in Hin. simpl in Hin.
      apply list_elem_of_singleton in Hin. discriminate.
    + rewrite lookup_singleton_ne in Hin by done. by apply elem_of_nil in Hin.
Qed.










End missed_food.

Section eating_facts.
Import KoiFish koifish.
Local Open Scope R_scope.

Lemma bind_assoc {S A B C} (m : Eff S A) (k : A → Eff S B) (K : B → Eff S C) s :
  bind (bind m k) K s = bind m (λ a, bind (k a) K) s.
Proof. unfold bind. by destruct (m s) as [[a|msg|] s']. Qed.

(** the food [D] has been eaten *)
Definition eaten (D : ObjectId) (w : World) : Prop := Food.isEaten (food w D) = true.








End eating_facts.




(* ================================================================= *)
(** ** The rotation limit of the fish (C2), over a whole [update] *)

Section turn_facts.
Import KoiFish koifish.
Local Open Scope R_scope.

(** [update] on a fish in bounds is the behaviour selection, the smoothing
    and the move *)
Lemma update_in_bounds fuel self w :
  ¬ (canvasUtil.getDistanceToCanvasBorder (canvas w) (position (koiFish w self))
     < canvasExitDistance) →
  update fuel self w
  = bind (selectBehavior fuel self) (λ _, afterBehavior self) (snd (startUpdate self w)).
Proof.
  intros Hin. destruct (startUpdate_scene self w) as (w1 & Hstart & Hs & _).
  rewrite Hstart. cbn [snd].
  unfold update. erewrite bind_returned by exact Hstart.
  unfold getThis. rewrite !bind_gets.
  rewrite (scene_position _ _ Hs), (scene_canvas _ _ Hs).
  destruct (Rlt_dec _ _) as [Hout|_]; [contradiction | reflexivity].
Qed.

(** [update] on a fish out of bounds is the reset *)
Lemma update_out_of_bounds fuel self w :
  canvasUtil.getDistanceToCanvasBorder (canvas w) (position (koiFish w self))
  < canvasExitDistance →
  update fuel self w = handleOutOfBounds self (snd (startUpdate self w)).
Proof.
  intros Hout. destruct (startUpdate_scene self w) as (w1 & Hstart & Hs & _).
  rewrite Hstart. cbn [snd].
  unfold update. erewrite bind_returned by exact Hstart.
  unfold getThis. rewrite !bind_gets.
  rewrite (scene_position _ _ Hs), (scene_canvas _ _ Hs).
  destruct (Rlt_dec _ _) as [_|Hin]; [reflexivity | contradiction].
Qed.

Lemma startUpdate_keeps self w :
  let w' := snd (startUpdate self w) in
  direction (koiFish w' self) = direction (koiFish w self)
  ∧ lastUpdateTime (koiFish w' self) = lastUpdateTime (koiFish w self)
  ∧ turnMultiplier (koiFish w' self) = 1
  ∧ runtime w' = runtime w.
Proof. simpl. rewrite !fn_lookup_insert. by simpl. Qed.

(** the runtime after [n] more clock readings *)
Definition ticked (n : nat) (rt : Runtime) : Runtime :=
  mkRuntime (clock rt) (n + ticks rt) (random rt) (draws rt).

Lemma smoothenDirectionChange_turn self w :
  let this := koiFish w self in
  let rt := runtime w in
  let elapsed := (clock rt (ticks rt) - lastUpdateTime this) / 1000 in
  let desired := desiredAngleChange w this in
  let final :=
    finalAngleChange (maxRotationAnglePerSecond * elapsed) desired (turnMultiplier this) in
  ∃ w', smoothenDirectionChange self w = (Returned tt, w')
        ∧ direction (koiFish w' self)
          = (if Rgt_dec (Rabs desired) 2
             then fst (Vector.rotateVector (direction this) final false)
             else direction this)
        ∧ turnMultiplier (koiFish w' self) = turnMultiplier this
        ∧ lastUpdateTime (koiFish w' self) = lastUpdateTime this
        ∧ runtime w' = ticked 1 rt.
Proof.
  intros this rt elapsed desired final.
  unfold smoothenDirectionChange, bind, getThis, gets, liftRuntime,
    timeUtil.getElapsedSeconds, Date_now, ret. simpl.
  fold this. fold rt.
  change (timeUtil.elapsedSeconds (clock rt (ticks rt)) (lastUpdateTime this)) with elapsed.
  assert (Hd : desiredAngleChange
                 (set_runtime (mkRuntime (clock rt) (S (ticks rt)) (random rt) (draws rt)) w)
                 this = desired) by reflexivity.
  rewrite Hd. fold final.
  destruct (Rgt_dec (Rabs desired) 2).
  - eexists. split; [reflexivity|]. simpl. by rewrite fn_lookup_insert.
  - eexists. split; [reflexivity|]. done.
Qed.

Lemma smoothenSpeedChange_turn self w :
  ∃ w', smoothenSpeedChange self w = (Returned tt, w')
        ∧ direction (koiFish w' self) = direction (koiFish w self)
        ∧ turnMultiplier (koiFish w' self) = turnMultiplier (koiFish w self)
        ∧ lastUpdateTime (koiFish w' self) = lastUpdateTime (koiFish w self)
        ∧ runtime w' = ticked 1 (runtime w).
Proof.
  unfold smoothenSpeedChange, bind, getThis, gets, liftRuntime,
    timeUtil.getElapsedSeconds, Date_now, ret. simpl.
  destruct (Rgt_dec _ _).
  - eexists. split; [reflexivity|]. simpl. by rewrite fn_lookup_insert.
  - eexists. split; [reflexivity|]. done.
Qed.

Lemma move_turn self w :
  ∃ w', move self w = (Returned tt, w')
        ∧ direction (koiFish w' self) = direction (koiFish w self)
        ∧ turnMultiplier (koiFish w' self) = turnMultiplier (koiFish w self)
        ∧ lastUpdateTime (koiFish w' self) = clock (runtime w) (1 + ticks (runtime w))
        ∧ runtime w' = ticked 2 (runtime w).
Proof.
  unfold move, updateFollowPoints, bind, getThis, gets, liftRuntime,
    timeUtil.getElapsedSeconds, Date_now, ret, updateKoiFish, modify. simpl.
  eexists. split; [reflexivity|]. simpl. by rewrite !fn_lookup_insert.
Qed.

(** the smoothing and the move: four clock readings, the direction turned
    by the smoothing alone, the last reading stamped *)
Lemma afterBehavior_run self w :
  let this := koiFish w self in
  let rt := runtime w in
  let elapsed := (clock rt (ticks rt) - lastUpdateTime this) / 1000 in
  let desired := desiredAngleChange w this in
  let final :=
    finalAngleChange (maxRotationAnglePerSecond * elapsed) desired (turnMultiplier this) in
  ∃ w', afterBehavior self w = (Returned tt, w')
        ∧ direction (koiFish w' self)
          = (if Rgt_dec (Rabs desired) 2
             then fst (Vector.rotateVector (direction this) final false)
             else direction this)
        ∧ turnMultiplier (koiFish w' self) = turnMultiplier this
        ∧ lastUpdateTime (koiFish w' self) = clock rt (3 + ticks rt)
        ∧ runtime w' = ticked 4 rt.
Proof.
  intros this rt elapsed desired final.
  destruct (smoothenDirectionChange_turn self w) as (w1 & H1 & Hd1 & Hm1 & Hl1 & Hr1).
  destruct (smoothenSpeedChange_turn self w1) as (w2 & H2 & Hd2 & Hm2 & Hl2 & Hr2).
  destruct (move_turn self w2) as (w3 & H3 & Hd3 & Hm3 & Hl3 & Hr3).
  exists w3. split.
  - unfold afterBehavior. erewrite bind_returned by exact H1.
    erewrite bind_returned by exact H2. exact H3.
  - rewrite Hd3, Hd2, Hd1, Hm3, Hm2, Hm1, Hl3, Hr3, Hr2, Hr1.
    split; [reflexivity|]. split; [reflexivity|]. split; reflexivity.
Qed.

Lemma updatedAt_handleOutOfBounds x t self :
  preserves (λ w, updatedAt x t (koiFish w)) (handleOutOfBounds self).
Proof.
  unfold handleOutOfBounds.
  walk ltac:(let h := fresh "h" in let Hh := fresh "Hh" in
             intros h Hh; unfold updatedAt in *;
             match goal with
             | |- context [<[?a := _]> _ ?b] => at_fish a b; exact Hh
             end).
Qed.
End turn_facts.

(** C2, as amended.  In every [update()] call that reaches the direction
    smoothing (the fish is not out of bounds and the behaviour selection
    returns), with a clock that has not gone back: the call returns, and the
    direction of the fish after the call is its direction before the call
    turned by an angle of at most 18 degrees times the turn multiplier
    (the one the behaviour selection has left, which is positive and is the
    one the fish has after the call) times the seconds between the
    [lastUpdateTime] of the fish and the clock reading of the smoothing;
    beyond the deadband the angle is min (18 * seconds, |desired|) *
    sign (desired) * multiplier, and when the desired angle change is 2
    degrees or less the direction is not changed at all.  The call reads
    the clock four times from the smoothing on and stamps the last reading
    as [lastUpdateTime].  An [update()] call on a fish that is out of bounds
    leaves [lastUpdateTime] as it was. *)
Theorem C2_rotation_is_rate_limited :
  ∀ (fuel : nat) (self : ObjectId) (w0 : World),
    let w1 := snd (koifish.startUpdate self w0) in
    let outOfBounds :=
      (canvasUtil.getDistanceToCanvasBorder (canvas w0) (KoiFish.position (koiFish w0 self))
       < koifish.canvasExitDistance)%R in
    (∀ w2 : World,
       ¬ outOfBounds →
       koifish.selectBehavior fuel self w1 = (Returned tt, w2) →
       let now := clock (runtime w2) (ticks (runtime w2)) in
       let elapsed := ((now - KoiFish.lastUpdateTime (koiFish w0 self)) / 1000)%R in
       let multiplier := KoiFish.turnMultiplier (koiFish w2 self) in
       let desired := koifish.desiredAngleChange w2 (koiFish w2 self) in
       (0 <= elapsed)%R →
       ∃ (w' : World) (turned : R),
         koifish.update fuel self w0 = (Returned tt, w')
         ∧ KoiFish.direction (koiFish w' self)
           = fst (Vector.rotateVector (KoiFish.direction (koiFish w0 self)) turned false)
         ∧ (0 < multiplier)%R
         ∧ KoiFish.turnMultiplier (koiFish w' self) = multiplier
         ∧ (Rabs turned <= 18 * elapsed * multiplier)%R
         ∧ ((Rabs desired <= 2)%R →
            turned = 0%R
            ∧ KoiFish.direction (koiFish w' self) = KoiFish.direction (koiFish w0 self))
         ∧ ((2 < Rabs desired)%R →
            turned = (Rmin (18 * elapsed) (Rabs desired) * Js.sign desired * multiplier)%R)
         ∧ KoiFish.lastUpdateTime (koiFish w' self)
           = clock (runtime w2) (3 + ticks (runtime w2))
         ∧ runtime w' = ticked 4 (runtime w2))
    ∧ (outOfBounds →
       KoiFish.lastUpdateTime (koiFish (snd (koifish.update fuel self w0)) self)
       = KoiFish.lastUpdateTime (koiFish w0 self)).
Proof.
  intros fuel self w0 w1 outOfBounds.
  destruct (startUpdate_keeps self w0) as (Hdir1 & Hlast1 & Hone & Hrt1).
  fold w1 in Hdir1, Hlast1, Hone, Hrt1.
  split.
  - intros w2 Hin Hselect now elapsed multiplier desired Helapsed.
    assert (Hturn : (0 < multiplier)%R).
    { pose proof (turnsForward_selectBehavior self fuel self w1) as Hp.
      rewrite Hselect in Hp. apply Hp. unfold turnsForward. rewrite Hone. lra. }
    pose proof (sameBodies_selectBehavior (koiFish w1) fuel self w1) as Hkeep.
    rewrite Hselect in Hkeep.
    destruct (Hkeep (λ y, sameBody_refl _) self)
      as (_ & _ & _ & Hdir2 & _ & _ & Hlast2 & _).
    cbn [snd] in Hdir2, Hlast2.
    destruct (afterBehavior_run self w2) as (w' & Hrun & Hdir & Hmul & Hlast & Hrt).
    rewrite Hlast2, Hlast1, Hdir2, Hdir1 in Hdir.
    fold now elapsed multiplier desired in Hdir.
    assert (Hupdate : koifish.update fuel self w0 = (Returned tt, w')).
    { rewrite (update_in_bounds fuel self w0 Hin). fold w1.
      erewrite bind_returned by exact Hselect. exact Hrun. }
    set (final := koifish.finalAngleChange (koifish.maxRotationAnglePerSecond * elapsed)
                    desired multiplier) in *.
    destruct (Rgt_dec (Rabs desired) 2) as [Hbig|Hsmall].
    + exists w', final. split; [exact Hupdate|]. split; [exact Hdir|].
      split; [exact Hturn|]. split; [exact Hmul|]. split.
      { replace (18 * elapsed * multiplier)%R
          with (koifish.maxRotationAnglePerSecond * elapsed * multiplier)%R by reflexivity.
        apply finalAngleChange_bound; [unfold koifish.maxRotationAnglePerSecond|]; lra. }
      split; [intros; lra|]. split; [intros _; reflexivity|].
      split; [exact Hlast | exact Hrt].
    + exists w', 0%R. split; [exact Hupdate|]. rewrite rotateVector_0.
      split; [exact Hdir|]. split; [exact Hturn|]. split; [exact Hmul|].
      split; [rewrite Rabs_R0; nra|]. split; [done|]. split; [intros; lra|].
      split; [exact Hlast | exact Hrt].
  - intros Hout. rewrite (update_out_of_bounds fuel self w0 Hout). fold w1.
    rewrite <- Hlast1.
    apply (updatedAt_handleOutOfBounds self (KoiFish.lastUpdateTime (koiFish w1 self)) self w1).
    reflexivity.
Qed.

Section reset_then_turn.
Import KoiFish koifish.
Local Open Scope R_scope.

(** a first draw below 1/4 picks the first of the four edges *)
Lemma getRandomEdgePoint_first d w :
  let rt := runtime w in
  0 <= nextDraw rt 0 < 1 / 4 →
  canvasUtil.getRandomEdgePoint d w
  = (Returned (Point.mk (nextDraw rt 1 * width (canvas w)) (height (canvas w) + d)),
     set_runtime (drawn 2 rt) w).
Proof.
  intros rt Hr. unfold canvasUtil.getRandomEdgePoint, bind at 1, liftRuntime. fold rt.
  rewrite (getRandomItem_at _ 0 canvasUtil.getTopEdgePoint rt); [reflexivity | done |].
  unfold nextDraw in Hr. simpl in *. lra.
Qed.

(** the reset, when the first edge is picked *)
Lemma handleOutOfBounds_first self w :
  let rt := runtime w in
  let c := canvas w in
  let p := Point.mk (nextDraw rt 1 * width c) (height c + 8 / 10 * Rabs canvasExitDistance) in
  let t := Point.mk ((1 - 8 / 10) * width c / 2 + nextDraw rt 2 * (width c * (8 / 10)))
                    ((1 - 8 / 10) * height c / 2 + nextDraw rt 3 * (height c * (8 / 10))) in
  let m := Vector.getMagnitude (Point.getVectorTo p t) in
  let v := Vector.mk (Vector.dx (Point.getVectorTo p t) / m)
                     (Vector.dy (Point.getVectorTo p t) / m) in
  0 <= nextDraw rt 0 < 1 / 4 → m ≠ 0 →
  ∃ h, handleOutOfBounds self w
       = (Returned tt, set_koiFish h (set_runtime (drawn 4 rt) w))
       ∧ h self = set_direction v (set_targetPoint (OwnPoint t) (set_position p (koiFish w self))).
Proof.
  intros rt c p t m v Hr Hm.
  pose proof (getRandomEdgePoint_first (8 / 10 * Rabs canvasExitDistance) w Hr) as Hp.
  fold rt in Hp. fold c in Hp. fold p in Hp.
  assert (Ht : Point.getRandomPoint c (8 / 10) (drawn 2 rt) = (Returned t, drawn 4 rt))
    by reflexivity.
  assert (Hv : Point.getDirectionTo p t = Ok v).
  { unfold Point.getDirectionTo. by rewrite (normalize_ok _ false Hm). }
  unfold handleOutOfBounds. unfold bind at 1. rewrite Hp.
  rewrite bind_updateKoiFish. cbn beta. rewrite bind_gets. cbn beta.
  unfold bind at 1, liftRuntime. cbn [runtime set_runtime set_koiFish canvas].
  fold c. rewrite Ht.
  rewrite bind_updateKoiFish. cbn beta. rewrite Hv. unfold liftResult.
  rewrite bind_ret_l. unfold updateKoiFish, modify.
  cbn [koiFish set_koiFish set_runtime]. rewrite !fn_lookup_insert.
  eexists. split; [reflexivity|]. by rewrite fn_lookup_insert.
Qed.

Lemma reef_out_of_bounds :
  let w := snd (liftRuntime Date_now scene.reef) in
  canvasUtil.getDistanceToCanvasBorder (canvas w) (position (koiFish w "koi"))
  < canvasExitDistance.
Proof.
  intros w. rewrite getDistanceToCanvasBorder_min. unfold canvasExitDistance, borderDistance. simpl.
  unfold Rmin. repeat destruct (Rle_dec _ _); lra.
Qed.

(** the state of the reef after the reset of the fish *)
Record afterReset (w0 : World) : Prop := mkAfterReset {
  reset_position : position (koiFish w0 "koi") = Point.mk 500 546;
  reset_direction : direction (koiFish w0 "koi") = Vector.mk 0 (-1);
  reset_lastUpdateTime : lastUpdateTime (koiFish w0 "koi") = 0;
  reset_desiredFood : desiredFood (koiFish w0 "koi") = None;
  reset_id : id (koiFish w0 "koi") = "koi";
  reset_leader : leaderKoiFish (koiFish w0 "koi") = None;
  reset_canvas : canvas w0 = mkCanvas 1000 530;
  reset_numCellsX : numCellsX w0 = 20%Z;
  reset_numCellsY : numCellsY w0 = 11%Z;
  reset_cache : adjacentIndicesCache w0 = ∅;
  reset_locationMap :
    locationMap w0
    = <[ 210%Z := [mkRef FoodClass "f"] ]> {[ (-10)%Z := [mkRef KoiFishClass "koi"] ]};
  reset_food : food w0 = food scene.reef;
  reset_clock : clock (runtime w0) = clock (runtime scene.reef);
}.

Lemma reef_reset :
  ∃ w0, update 0 "koi" (snd (liftRuntime Date_now scene.reef)) = (Returned tt, w0)
        ∧ afterReset w0 ∧ ticks (runtime w0) = 1%nat.
Proof.
  rewrite (update_out_of_bounds 0 "koi" _ reef_out_of_bounds).
  set (w1 := snd (startUpdate "koi" (snd (liftRuntime Date_now scene.reef)))).
  assert (Hexit : 8 / 10 * Rabs canvasExitDistance = 16).
  { unfold canvasExitDistance. rewrite Rabs_left by lra. lra. }
  assert (Hvec : Point.getVectorTo
            (Point.mk (nextDraw (runtime w1) 1 * width (canvas w1))
                      (height (canvas w1) + 8 / 10 * Rabs canvasExitDistance))
            (Point.mk ((1 - 8 / 10) * width (canvas w1) / 2
                       + nextDraw (runtime w1) 2 * (width (canvas w1) * (8 / 10)))
                      ((1 - 8 / 10) * height (canvas w1) / 2
                       + nextDraw (runtime w1) 3 * (height (canvas w1) * (8 / 10))))
          = Vector.mk 0 (-281)).
  { rewrite Hexit. unfold Point.getVectorTo, nextDraw. simpl. f_equal; lra. }
  assert (Hmag : Vector.getMagnitude (Vector.mk 0 (-281)) = 281).
  { apply magnitude_of; [lra | simpl; lra]. }
  destruct (handleOutOfBounds_first "koi" w1) as (h & Hrun & Hself).
  { unfold nextDraw. simpl. lra. }
  { rewrite Hvec, Hmag. lra. }
  rewrite Hvec, Hmag, Hexit in Hself.
  eexists. split; [exact Hrun|]. split; [|reflexivity].
  split; cbn [koiFish set_koiFish set_runtime canvas numCellsX numCellsY adjacentIndicesCache
              locationMap food runtime clock drawn];
    rewrite ?Hself;
    cbn [position direction lastUpdateTime desiredFood id leaderKoiFish set_direction set_targetPoint
         set_position];
    try reflexivity;
    try (unfold w1; simpl; by rewrite !fn_lookup_insert);
    try (unfold nextDraw; cbn [Vector.dx Vector.dy]; simpl; f_equal; lra).
Qed.

(** the food behaviour moves no food *)
Lemma checkAndSetFoodBehavior_foodPosition g p self :
  preserves (λ w, Food.position (food w g) = p) (checkAndSetFoodBehavior self).
Proof.
  unfold checkAndSetFoodBehavior, eatDesiredFood, findClosestFood, chaseFood,
    ObjectManager.getNearbyObjects, unsetLeaderFollower, food.onEaten, updateFood.
  repeat first
    [ apply preserves_ret | apply preserves_throw | apply preserves_gets
    | apply preserves_liftResult
    | apply preserves_modify; intros ? H; first
        [ exact H
        | simpl; match goal with
                 | |- context [<[?a := _]> _ ?b] => at_fish a b; exact H
                 end ]
    | intros w0 Hw0; unfold canvasUtil.getAdjacentIndices;
      destruct (util.memoize _ _ _ _); exact Hw0
    | apply preserves_bind; [|intros ?]
    | match goal with
      | |- preserves _ (if ?c then _ else _) => destruct c
      | |- preserves _ (match ?x with _ => _ end) => destruct x
      end ].
Qed.

(** with nothing in mind and a food in sight, the food behaviour is the
    chase of that food *)
Lemma checkAndSetFoodBehavior_chase self F w :
  desiredFood (koiFish w self) = None → inSight w self F →
  ∃ cache, checkAndSetFoodBehavior self w
           = chaseFood self F (set_adjacentIndicesCache cache w).
Proof.
  intros Hd Hsight. destruct (findClosestFood_inSight self F w Hsight) as (cache & Hfind).
  exists cache. unfold checkAndSetFoodBehavior, eatDesiredFood, getThis.
  rewrite bind_assoc, bind_gets, Hd, bind_ret_l.
  by erewrite bind_returned by exact Hfind.
Qed.

(** the turn multiplier that the chase of a food sets, for a fish without
    leader and off the food *)
Lemma chaseFood_turnMultiplier self F w :
  let this := koiFish w self in
  let v := Point.getVectorTo (position this) (Food.position (food w F)) in
  let m := Vector.getMagnitude v in
  let a := Vector.signedAngleBetween (direction this)
             (Vector.mk (Vector.dx v / m) (Vector.dy v / m)) in
  leaderKoiFish this = None → m ≠ 0 →
  turnMultiplier (koiFish (snd (chaseFood self F w)) self)
  = (if Js.ltb m 50 && Js.gtb (Rabs a) 30 then 4
     else if Js.ltb (Rabs a) 30 then 1 else 2).
Proof.
  intros this v m a Hnone Hm. unfold chaseFood, getThis. rewrite bind_gets.
  fold this. rewrite Hnone, bind_ret_l.
  repeat (rewrite bind_updateKoiFish; cbn beta).
  repeat (rewrite bind_gets; cbn beta).
  set (w3 := set_koiFish _ _).
  assert (Hthis : targetPoint (koiFish w3 self) = PositionOfFood F
                  ∧ position (koiFish w3 self) = position this
                  ∧ direction (koiFish w3 self) = direction this).
  { unfold w3. simpl. rewrite !fn_lookup_insert. by simpl. }
  destruct Hthis as (-> & -> & ->).
  assert (Hderef : deref w3 (PositionOfFood F) = Food.position (food w F)) by reflexivity.
  rewrite Hderef. fold v. rewrite (normalize_ok v false Hm). cbn [liftResult].
  rewrite bind_ret_l. cbn [withMutate fst]. fold m. fold a.
  destruct (Js.ltb m 50 && Js.gtb (Rabs a) 30); [|destruct (Js.ltb (Rabs a) 30)];
    simpl; by rewrite !fn_lookup_insert.
Qed.

(** the heading of a vector that points down, and a quarter of a right
    angle either way *)
Lemma signedAngleBetween_down_right (k : R) :
  0 < k → Vector.signedAngleBetween (Vector.mk 0 (-1)) (Vector.mk k (- k)) = -45.
Proof.
  intros Hk. pose proof PI_RGT_0 as Hpi.
  unfold Vector.signedAngleBetween, Js.atan2. cbn [Vector.dx Vector.dy].
  destruct (Rlt_dec 0 0) as [H|_]; [lra|].
  destruct (Rlt_dec 0 (-1)) as [H|_]; [lra|].
  destruct (Rlt_dec (-1) 0) as [_|H]; [|lra].
  destruct (Rlt_dec 0 k) as [_|H]; [|lra].
  replace (- k / k) with (Ropp 1) by (field; lra).
  rewrite atan_opp, atan_1.
  replace ((- (PI / 2) - - (PI / 4)) * (180 / PI)) with (-45) by (field; lra).
  destruct (Rgt_dec (-45) 180) as [H|_]; [lra|].
  destruct (Rlt_dec (-45) (-180)) as [H|_]; [lra|]. reflexivity.
Qed.

Lemma heading_down : Vector.mk 0 (-1) = fst (Vector.rotateVector Vector.UP 180 false).
Proof.
  rewrite rotate_UP. replace (180 * PI / 180) with PI by field.
  by rewrite sin_PI, cos_PI.
Qed.

(** the heading of a vector that points down after a turn *)
Lemma getAngle_down_turned (a : R) :
  -180 <= a < 180 →
  Vector.getAngle (fst (Vector.rotateVector (Vector.mk 0 (-1)) a false)) = 180 + a.
Proof.
  intros Ha. rewrite heading_down, rotateVector_add. apply getAngle_rotate_UP. lra.
Qed.

Lemma afterReset_cell w0 :
  afterReset w0 →
  cellX (position (koiFish w0 "koi")) = 10%Z ∧ cellY (position (koiFish w0 "koi")) = 10%Z.
Proof.
  intros []. rewrite reset_position0. unfold cellX, cellY, canvasUtil.cellSize. simpl.
  split; apply Zfloor_eq; split; simpl; lra.
Qed.

Lemma afterReset_in_bounds w0 :
  afterReset w0 →
  ¬ (canvasUtil.getDistanceToCanvasBorder (canvas w0) (position (koiFish w0 "koi"))
     < canvasExitDistance).
Proof.
  intros []. rewrite reset_canvas0, reset_position0.
  rewrite getDistanceToCanvasBorder_min. unfold canvasExitDistance, borderDistance. simpl.
  unfold Rmin. repeat destruct (Rle_dec _ _); lra.
Qed.

Lemma afterReset_distance w0 :
  afterReset w0 →
  Point.getVectorTo (position (koiFish w0 "koi")) (Food.position (food w0 "f"))
  = Vector.mk 40 (-40).
Proof.
  intros []. rewrite reset_position0, reset_food0. unfold Point.getVectorTo. simpl.
  f_equal; lra.
Qed.

Lemma afterReset_inSight w0 : afterReset w0 → inSight w0 "koi" "f".
Proof.
  intros Hr. destruct (afterReset_cell w0 Hr) as [Hx Hy]. destruct Hr. split.
  - exact reset_id0.
  - discriminate.
  - rewrite Hx, reset_numCellsX0. lia.
  - rewrite Hy, reset_numCellsY0. lia.
  - intros l Hl. by rewrite reset_cache0, lookup_empty in Hl.
  - exists 210%Z. rewrite Hx, Hy, reset_numCellsX0, reset_numCellsY0. split.
    + exists 10%Z, 10%Z. repeat split; lia.
    + rewrite reset_locationMap0, lookup_insert_eq. apply list_elem_of_here.
  - by rewrite reset_food0.
  - intros G (k & _ & Hin) HG _. rewrite reset_locationMap0 in Hin.
    by apply only_food in Hin as [_ ->].
Qed.

(** The update that follows the reset: the fish is in bounds, the behaviour
    selection sets it on the pellet, 45 degrees to its left and more than 50
    units away, with a turn multiplier of 2, and reads no clock. *)
Lemma reef_selectBehavior w0 :
  afterReset w0 →
  ∃ w2, selectBehavior 0 "koi" (snd (startUpdate "koi" w0)) = (Returned tt, w2)
        ∧ runtime w2 = runtime w0
        ∧ lastUpdateTime (koiFish w2 "koi") = 0
        ∧ direction (koiFish w2 "koi") = Vector.mk 0 (-1)
        ∧ turnMultiplier (koiFish w2 "koi") = 2
        ∧ desiredAngleChange w2 (koiFish w2 "koi") = -45.
Proof.
  intros Hr.
  destruct (startUpdate_scene "koi" w0) as (w1 & Hstart & Hs & Hfood & Hmap & Hd & _).
  rewrite Hstart. cbn [snd].
  pose proof (afterReset_inSight w0 Hr) as Hsight0.
  pose proof (afterReset_distance w0 Hr) as Hvec0.
  destruct (startUpdate_keeps "koi" w0) as (Hdir1 & Hlast1 & _ & Hrt1).
  rewrite Hstart in Hdir1, Hlast1, Hrt1. cbn [snd] in Hdir1, Hlast1, Hrt1.
  assert (Hsight : inSight w1 "koi" "f").
  { eapply inSight_scene; [exact Hs | by rewrite Hfood | | exact Hsight0].
    rewrite Hfood. apply Hsight0. }
  assert (Hnone : desiredFood (koiFish w1 "koi") = None)
    by (rewrite Hd; apply Hr).
  assert (Hvec : Point.getVectorTo (position (koiFish w1 "koi")) (Food.position (food w1 "f"))
                 = Vector.mk 40 (-40))
    by (by rewrite (scene_position _ _ Hs), Hfood).
  assert (Hmag : Vector.getMagnitude (Vector.mk 40 (-40)) = 40 * sqrt 2).
  { apply magnitude_of.
    - pose proof (sqrt_pos 2). lra.
    - cbn [Vector.dx Vector.dy]. pose proof (sqrt_sqrt 2 ltac:(lra)). nra. }
  assert (Hroot : 5 / 4 < sqrt 2).
  { pose proof (sqrt_pos 2). pose proof (sqrt_sqrt 2 ltac:(lra)). nra. }
  assert (Hnot : ¬ eatsNow w1 "koi" "f") by (intros [H _]; rewrite Hnone in H; discriminate H).
  destruct (checkAndSetFoodBehavior_pursuit "koi" "f" w1 Hsight Hnot)
    as (_ & [(Htarget & Hdes & _) _] & Hret).
  assert (Hsel : selectBehavior 0 "koi" w1 = checkAndSetFoodBehavior "koi" w1)
    by (by apply (selectBehavior_chasing 0 "koi" "f")).
  set (w2 := snd (checkAndSetFoodBehavior "koi" w1)) in *.
  assert (Hselect : selectBehavior 0 "koi" w1 = (Returned tt, w2)).
  { rewrite Hsel. rewrite (surjective_pairing (checkAndSetFoodBehavior "koi" w1)).
    f_equal. apply Hret. unfold distanceToFood, Point.getDistanceTo.
    rewrite Hvec, Hmag. lra. }
  exists w2. split; [exact Hselect|].
  pose proof (sameBodies_checkAndSetFoodBehavior (koiFish w1) "koi" w1 (λ y, sameBody_refl _)
                "koi") as (_ & _ & Hpos2 & Hdir2 & _ & _ & Hlast2 & _).
  fold w2 in Hpos2, Hdir2, Hlast2.
  assert (Hdir : direction (koiFish w2 "koi") = Vector.mk 0 (-1)).
  { rewrite Hdir2, Hdir1. apply Hr. }
  split; [|split; [|split; [exact Hdir|split]]].
  - rewrite <- Hrt1. by apply (checkAndSetFoodBehavior_runtime (runtime w1) "koi" w1).
  - rewrite Hlast2, Hlast1. apply Hr.
  - destruct (checkAndSetFoodBehavior_chase "koi" "f" w1 Hnone Hsight) as (cache & Hchase).
    unfold w2. rewrite Hchase.
    rewrite chaseFood_turnMultiplier.
    + cbn [koiFish food set_adjacentIndicesCache]. rewrite Hvec, Hmag, Hdir1.
      rewrite (reset_direction w0 Hr). cbn [Vector.dx Vector.dy].
      replace (-40 / (40 * sqrt 2)) with (- (40 / (40 * sqrt 2))) by (field; lra).
      rewrite signedAngleBetween_down_right.
      * unfold Js.ltb, Js.gtb. rewrite Rabs_left by lra.
        destruct (Rlt_dec (40 * sqrt 2) 50) as [H|_]; [lra|]. cbn [andb].
        destruct (Rlt_dec (- -45) 30) as [H|_]; [lra | reflexivity].
      * apply Rdiv_lt_0_compat; lra.
    + cbn [koiFish set_adjacentIndicesCache]. rewrite (scene_leader _ _ Hs). apply Hr.
    + cbn [koiFish food set_adjacentIndicesCache]. rewrite Hvec, Hmag. lra.
  - unfold desiredAngleChange. rewrite Htarget, Hdir, Hpos2. cbn [deref].
    assert (Hfp : Food.position (food w2 "f") = Food.position (food w1 "f"))
      by (by apply (checkAndSetFoodBehavior_foodPosition "f" _ "koi" w1)).
    rewrite Hfp, Hvec. apply signedAngleBetween_down_right. lra.
Qed.

(** the whole of that update: the fish turns by 18 degrees times 1.016
    seconds times 2 to its left, and the clock reading 1064 is stamped *)
Lemma reef_turn w0 :
  afterReset w0 → ticks (runtime w0) = 1%nat →
  ∃ w', update 0 "koi" w0 = (Returned tt, w')
        ∧ direction (koiFish w' "koi")
          = fst (Vector.rotateVector (Vector.mk 0 (-1)) (- (36576 / 1000)) false)
        ∧ turnMultiplier (koiFish w' "koi") = 2
        ∧ lastUpdateTime (koiFish w' "koi") = 1064.
Proof.
  intros Hr Hticks.
  destruct (reef_selectBehavior w0 Hr) as (w2 & Hselect & Hrt & Hlast & Hdir & Hm & Hdes).
  destruct (afterBehavior_run "koi" w2) as (w' & Hrun & Hdir' & Hm' & Hlast' & _).
  assert (Hnow : clock (runtime w2) (ticks (runtime w2)) = 1016).
  { rewrite Hrt, Hticks, (reset_clock w0 Hr). simpl. lra. }
  assert (Hstamp : clock (runtime w2) (3 + ticks (runtime w2)) = 1064).
  { rewrite Hrt, Hticks, (reset_clock w0 Hr). simpl. lra. }
  cbv zeta in Hdir'. rewrite Hnow, Hlast, Hdir, Hm, Hdes in Hdir'.
  rewrite Hstamp in Hlast'. rewrite Hm in Hm'.
  exists w'. split; [|split; [|split; [exact Hm'|]]].
  - rewrite (update_in_bounds 0 "koi" w0 (afterReset_in_bounds w0 Hr)).
    erewrite bind_returned by exact Hselect. exact Hrun.
  - rewrite Hdir'. rewrite Rabs_left by lra.
    destruct (Rgt_dec (- -45) 2) as [_|H]; [|lra].
    f_equal. unfold finalAngleChange, maxRotationAnglePerSecond, Js.sign.
    destruct (Rlt_dec 0 (-45)) as [H|_]; [lra|].
    destruct (Rlt_dec (-45) 0) as [_|H]; [|lra].
    rewrite Rabs_left by lra. unfold Rmin.
    destruct (Rle_dec _ _) as [_|H]; [|lra]. f_equal. lra.
  - exact Hlast'.
Qed.
End reset_then_turn.

(** The reef: the clock is read (1000 ms), the fish, out of bounds, is reset,
    and is updated again.  That second update is in bounds; the behaviour
    selection sets the fish on the pellet (desired angle change -45 degrees,
    turn multiplier 2) and the smoothing reads 1016 ms, with a
    [lastUpdateTime] of 0: the fish turns by 18 * 1.016 * 2 = 36.576 degrees
    to its left, which is the limit itself, and is stamped 1064 ms. *)
Lemma C2_witness :
  let wB := snd (koifish.update 0 "koi" (snd (liftRuntime Date_now scene.reef))) in
  ¬ (canvasUtil.getDistanceToCanvasBorder (canvas wB) (KoiFish.position (koiFish wB "koi"))
     < koifish.canvasExitDistance)%R
  ∧ ∃ (w2 w' : World) (turned : R),
      koifish.selectBehavior 0 "koi" (snd (koifish.startUpdate "koi" wB)) = (Returned tt, w2)
      ∧ clock (runtime w2) (ticks (runtime w2)) = 1016%R
      ∧ KoiFish.lastUpdateTime (koiFish wB "koi") = 0%R
      ∧ KoiFish.turnMultiplier (koiFish w2 "koi") = 2%R
      ∧ koifish.desiredAngleChange w2 (koiFish w2 "koi") = (-45)%R
      ∧ koifish.update 0 "koi" wB = (Returned tt, w')
      ∧ KoiFish.direction (koiFish w' "koi")
        = fst (Vector.rotateVector (KoiFish.direction (koiFish wB "koi")) turned false)
      ∧ turned = (- (36576 / 1000))%R
      ∧ Rabs turned = (18 * ((1016 - 0) / 1000) * 2)%R
      ∧ KoiFish.lastUpdateTime (koiFish w' "koi") = 1064%R.
Proof.
  intros wB. destruct reef_reset as (w0 & Hreset & Hr & Hticks).
  assert (HwB : wB = w0) by (unfold wB; by rewrite Hreset).
  rewrite HwB. clear wB HwB.
  pose proof (afterReset_in_bounds w0 Hr) as Hin.
  destruct (reef_selectBehavior w0 Hr) as (w2 & Hselect & Hrt & Hlast & Hdir & Hm & Hdes).
  assert (Hclock : ∀ n, clock (runtime w2) (n + ticks (runtime w2))
                        = (1000 + 16 * INR (n + 1))%R).
  { intros n. by rewrite Hrt, Hticks, (reset_clock w0 Hr). }
  assert (Hnow : clock (runtime w2) (ticks (runtime w2)) = 1016%R).
  { rewrite Hrt, Hticks, (reset_clock w0 Hr). simpl. lra. }
  pose proof (reset_lastUpdateTime w0 Hr) as Hlast0.
  assert (Hpos : (0 <= (clock (runtime w2) (ticks (runtime w2))
                        - KoiFish.lastUpdateTime (koiFish w0 "koi")) / 1000)%R).
  { rewrite Hnow, Hlast0. lra. }
  destruct (proj1 (C2_rotation_is_rate_limited 0 "koi" w0) w2 Hin Hselect Hpos)
    as (w' & turned & Hupdate & Hturned & _ & _ & _ & _ & Hbig & Hstamp & _).
  rewrite Hnow, Hlast0, Hm, Hdes in Hbig.
  assert (Habs : Rabs (-45) = 45%R) by (rewrite Rabs_left; lra).
  assert (Hsign : Js.sign (-45) = (-1)%R).
  { unfold Js.sign. destruct (Rlt_dec 0 (-45)); [lra|]. destruct (Rlt_dec (-45) 0); lra. }
  assert (Hmin : Rmin (18 * ((1016 - 0) / 1000)) 45 = (18 * ((1016 - 0) / 1000))%R)
    by (apply Rmin_left; lra).
  rewrite Habs, Hsign, Hmin in Hbig.
  assert (Hval : turned = (- (36576 / 1000))%R) by (rewrite Hbig; lra).
  split; [exact Hin|]. exists w2, w', turned.
  split; [exact Hselect|]. split; [exact Hnow|]. split; [exact Hlast0|].
  split; [exact Hm|]. split; [exact Hdes|]. split; [exact Hupdate|].
  split; [exact Hturned|]. split; [exact Hval|]. split.
  - rewrite Hval, Rabs_left; lra.
  - rewrite Hstamp, (Hclock 3%nat). simpl. lra.
Defined.

(** C2, as stated, fails after an out-of-bounds reset.  On the reef the
    clock is read: 1000 ms.  Then the fish, 30 units out of the canvas, is
    updated: this [update()] resets it and returns without reading the clock
    and without stamping [lastUpdateTime], which stays 0.  The next
    [update()] of the fish is in bounds and reaches the smoothing, which
    reads 1016 ms: at most 0.016 seconds have passed since the previous
    update, and the turn multiplier is 2, so the claim allows a change of
    heading of 18 * 0.016 * 2 = 0.576 degrees.  The heading of the fish goes
    from 180 to 143.424 degrees: it changes by 36.576 degrees. *)
Lemma C2_counterexample :
  let wA := snd (liftRuntime Date_now scene.reef) in
  let wB := snd (koifish.update 0 "koi" wA) in
  let wC := snd (koifish.update 0 "koi" wB) in
  let outOfBounds (w : World) :=
    (canvasUtil.getDistanceToCanvasBorder (canvas w) (KoiFish.position (koiFish w "koi"))
     < koifish.canvasExitDistance)%R in
  let before := Vector.getAngle (KoiFish.direction (koiFish wB "koi")) in
  let after := Vector.getAngle (KoiFish.direction (koiFish wC "koi")) in
  fst (liftRuntime Date_now scene.reef) = Returned 1000%R
  ∧ outOfBounds wA
  ∧ fst (koifish.update 0 "koi" wA) = Returned tt
  ∧ ticks (runtime wB) = ticks (runtime wA)
  ∧ KoiFish.lastUpdateTime (koiFish wA "koi") = 0%R
  ∧ KoiFish.lastUpdateTime (koiFish wB "koi") = 0%R
  ∧ ¬ outOfBounds wB
  ∧ (∃ w2 : World,
       koifish.selectBehavior 0 "koi" (snd (koifish.startUpdate "koi" wB)) = (Returned tt, w2)
       ∧ clock (runtime w2) (ticks (runtime w2)) = 1016%R
       ∧ KoiFish.turnMultiplier (koiFish w2 "koi") = 2%R)
  ∧ fst (koifish.update 0 "koi" wB) = Returned tt
  ∧ KoiFish.turnMultiplier (koiFish wC "koi") = 2%R
  ∧ before = 180%R
  ∧ after = (180 - 36576 / 1000)%R
  ∧ (18 * ((1016 - 1000) / 1000) * 2 < Rabs (after - before))%R.
Proof.
  intros wA wB wC outOfBounds before after.
  destruct reef_reset as (w0 & Hreset & Hr & Hticks). fold wA in Hreset.
  assert (HwB : wB = w0) by (unfold wB; by rewrite Hreset).
  destruct (reef_turn w0 Hr Hticks) as (w' & Hupdate & Hdir & Hm & _).
  assert (HwC : wC = w') by (unfold wC; by rewrite HwB, Hupdate).
  destruct (reef_selectBehavior w0 Hr) as (w2 & Hselect & Hrt & _ & _ & Hm2 & _).
  assert (Hbefore : before = 180%R).
  { unfold before. rewrite HwB, (reset_direction w0 Hr).
    rewrite <- (rotateVector_0 (Vector.mk 0 (-1))), getAngle_down_turned; lra. }
  assert (Hafter : after = (180 - 36576 / 1000)%R).
  { unfold after. rewrite HwC, Hdir, getAngle_down_turned; lra. }
  split. { unfold liftRuntime, Date_now. simpl. f_equal. lra. }
  split; [exact reef_out_of_bounds|].
  split; [by rewrite Hreset|].
  split; [by rewrite HwB, Hticks|].
  split; [reflexivity|].
  split; [rewrite HwB; apply Hr|].
  split; [rewrite HwB; exact (afterReset_in_bounds w0 Hr)|].
  split.
  { exists w2. rewrite HwB. split; [exact Hselect|]. split; [|exact Hm2].
    rewrite Hrt, Hticks, (reset_clock w0 Hr). simpl. lra. }
  split; [by rewrite HwB, Hupdate|].
  split; [by rewrite HwC|].
  split; [exact Hbefore|]. split; [exact Hafter|].
  rewrite Hafter, Hbefore, Rabs_left; lra.
Qed.
